(** * cosmic-gopass-plugin: the pop-launcher session engine

    A shallow embedding of the [launcher] package (the command loop [Run],
    its search goroutine and [LoadConfig]), of the search and activation
    callbacks that [main.go] hands to it, and of the search loop that the
    earlier, self-contained [main.go] runs in place.

    Goroutines are modelled by an interleaving small-step machine: a
    scheduler choice picks the command loop or one search goroutine, and
    [step] performs the next atomic action of that thread (or is [None]
    when the thread is blocked or gone).  The two callbacks are the
    parameters of the machine. *)

From stdpp Require Import base strings list gmap.
From Stdlib Require Import ZArith Lia.

Local Open Scope string_scope.
Local Open Scope Z_scope.

(** ** Go's [strings] functions used by the sources *)

Module strings.

(** [s] without the leading [p], when [s] starts with [p]. *)
Fixpoint cut_prefix (p s : string) : option string :=
  match p, s with
  | EmptyString, _ => Some s
  | String a p', String b s' => if Ascii.eqb a b then cut_prefix p' s' else None
  | String _ _, EmptyString => None
  end.

(** [strings.HasPrefix]. *)
Definition HasPrefix (s p : string) : bool :=
  match cut_prefix p s with Some _ => true | None => false end.

(** [strings.TrimPrefix]: [s] unchanged when it does not start with [p]. *)
Definition TrimPrefix (s p : string) : string :=
  match cut_prefix p s with Some r => r | None => s end.

(** [strings.Contains]: bytewise substring test. *)
Fixpoint Contains (s substr : string) : bool :=
  HasPrefix s substr ||
  match s with
  | EmptyString => false
  | String _ s' => Contains s' substr
  end.

Definition bytes (l : list nat) : string :=
  String.string_of_list_ascii (map Ascii.ascii_of_nat l).

(** The UTF-8 encodings of the code points with Unicode's White_Space
    property, which is what [unicode.IsSpace] tests: U+0009..U+000D, U+0020,
    U+0085, U+00A0, U+1680, U+2000..U+200A, U+2028, U+2029, U+202F, U+205F
    and U+3000. *)
Definition white_space : list string :=
  map bytes
    ([ [9%nat]; [10%nat]; [11%nat]; [12%nat]; [13%nat]; [32%nat];
       [194; 133]%nat; [194; 160]%nat; [225; 154; 128]%nat ]
     ++ map (fun b => [226; 128; b]%nat) (seq 128 11)
     ++ [ [226; 128; 168]%nat; [226; 128; 169]%nat; [226; 128; 175]%nat;
          [226; 129; 159]%nat; [227; 128; 128]%nat ]).

(** The first of [ps] that [s] starts with, cut off. *)
Fixpoint cut_any (ps : list string) (s : string) : option string :=
  match ps with
  | [] => None
  | p :: ps' =>
      match cut_prefix p s with
      | Some r => Some r
      | None => cut_any ps' s
      end
  end.

Fixpoint trim_left_of (ps : list string) (fuel : nat) (s : string) : string :=
  match fuel with
  | O => s
  | S fuel' =>
      match cut_any ps s with
      | Some r => trim_left_of ps fuel' r
      | None => s
      end
  end.

(** [strings.TrimSpace]: leading and trailing white space removed.  The
    trailing side is the leading side of the reversed string against the
    reversed encodings. *)
Definition TrimSpace (s : string) : string :=
  let l := trim_left_of white_space (String.length s) s in
  String.rev
    (trim_left_of (map String.rev white_space) (String.length l) (String.rev l)).

End strings.

(** A Go string literal between double quotes, as the wire carries the bare
    sentinels. *)
Definition dquote : Ascii.ascii := Ascii.ascii_of_nat 34.

Definition quoted (s : string) : string :=
  String dquote (s +:+ String dquote EmptyString).

(** ** What [json.Marshal] does to a string *)

Module json.

(** U+FFFD in UTF-8. *)
Definition replacement : string := strings.bytes [239; 191; 189]%nat.

(** For a leading byte from [0x80] on: the length of the sequence it starts
    and the range its second byte must lie in, as the tables [first] and
    [acceptRanges] of package [utf8] give them; [None] for a byte that starts
    no sequence. *)
Definition first (b : N) : option (nat * N * N) :=
  (if b <? 194 then None
   else if b <=? 223 then Some (2%nat, 128, 191)
   else if b =? 224 then Some (3%nat, 160, 191)
   else if b <=? 236 then Some (3%nat, 128, 191)
   else if b =? 237 then Some (3%nat, 128, 159)
   else if b <=? 239 then Some (3%nat, 128, 191)
   else if b =? 240 then Some (4%nat, 144, 191)
   else if b <=? 243 then Some (4%nat, 128, 191)
   else if b =? 244 then Some (4%nat, 128, 143)
   else None)%N.

Definition between (lo hi : N) (a : Ascii.ascii) : bool :=
  ((lo <=? Ascii.N_of_ascii a) && (Ascii.N_of_ascii a <=? hi))%N.

(** The string that the JSON text which [json.Marshal] writes for [s]
    stands for: [s] with every byte that [utf8.DecodeRuneInString] does not
    find at the head of a well-formed sequence replaced by U+FFFD.  (The
    escapes of the text stand for the characters they escape.) *)
Fixpoint valid_utf8 (s : string) : string :=
  match s with
  | EmptyString => EmptyString
  | String a0 s0 =>
      let bad := replacement +:+ valid_utf8 s0 in
      if (Ascii.N_of_ascii a0 <? 128)%N then String a0 (valid_utf8 s0)
      else
        match first (Ascii.N_of_ascii a0) with
        | None => bad
        | Some (sz, lo, hi) =>
            match s0 with
            | EmptyString => bad
            | String a1 s1 =>
                if negb (between lo hi a1) then bad
                else if Nat.eqb sz 2 then String a0 (String a1 (valid_utf8 s1))
                else
                  match s1 with
                  | EmptyString => bad
                  | String a2 s2 =>
                      if negb (between 128 191 a2) then bad
                      else if Nat.eqb sz 3 then
                        String a0 (String a1 (String a2 (valid_utf8 s2)))
                      else
                        match s2 with
                        | EmptyString => bad
                        | String a3 s3 =>
                            if between 128 191 a3 then
                              String a0 (String a1 (String a2
                                (String a3 (valid_utf8 s3))))
                            else bad
                        end
                  end
            end
        end
  end.

End json.

(** ** The [launcher] package *)

Module launcher.

(** A single item returned by the [OnSearch] callback; an empty [IconName]
    means that no icon is sent. *)
Record SearchResult := {
  Name : string;
  Description : string;
  IconName : string;
}.

(** One decoded line of the driver, as [json.Unmarshal] fills it: a field is
    [None] when its key is absent.  The numbers are [uint32]. *)
Record request := {
  Search : option string;
  Activate : option N;
  Complete : option N;
  Context : option N;
}.

(** The lines the engine writes: the three bare sentinels and the
    [appendResponse] object, whose [icon] is omitted when [None].  The
    strings of an [Append] are those its JSON text stands for. *)
Inductive reply :=
| Finished
| Clear
| Close
| Append (id : Z) (name description : string) (icon : option string).

#[global] Instance reply_eq_dec : EqDecision reply.
Proof. solve_decision. Defined.

(** [json.Marshal] of an [appendResponse], as the object its text stands
    for: the strings lose what is not UTF-8.  (It has no error on this
    type.) *)
Definition Marshal (id : Z) (name description : string) (icon : option string)
  : reply :=
  Append id (json.valid_utf8 name) (json.valid_utf8 description)
    (json.valid_utf8 <$> icon).

(** Who wrote a line: the command loop or the search goroutine started by
    the n-th accepted [Search]. *)
Inductive origin :=
| OMain
| OTask (i : nat).

#[global] Instance origin_eq_dec : EqDecision origin.
Proof. solve_decision. Defined.

(** What the logger receives. *)
Inductive log_entry :=
| LogReceived (line : string)
| LogExiting
| LogInterrupted
| LogParseError (line : string)
| LogUnhandled (line : string)
| LogSearchFailed (err : string)
| LogOutOfRange (id : N) (have : nat)
| LogActivateFailed (err : string)
| LogReply (r : reply)
| LogInvalidConfig (err : string).

(** One call of [OnSearch], as the engine sees it: the callback calls
    [appendResult], reads [ctx.Err()], blocks on [ctx.Done()] and finally
    returns [nil] or an error.  A callback that never returns although its
    context is cancelled stalls the engine and is not described here. *)
Inductive behaviour :=
| Return (err : option string)
| Emit (sr : SearchResult) (k : behaviour)
| CtxErr (k : bool -> behaviour)
| CtxDone (k : behaviour).

(** Where a search goroutine stands. *)
Inductive task_pc :=
| TClear                    (* before respondRaw("Clear") *)
| TSearch (b : behaviour)   (* inside cfg.OnSearch *)
| TPublish                  (* before lastResults = matched *)
| TFinished                 (* deferred respondRaw("Finished") *)
| TCloseDone                (* deferred close(done) *)
| TExited.

(** A search goroutine: its argument [query], its context, its local
    [matched] and its position. *)
Record task := {
  query : string;
  ctx_cancelled : bool;
  matched : list string;
  pc : task_pc;
}.

(** What a command does once [cancelSearch] has returned. *)
Inductive cont :=
| KExit
| KInterrupt (wasSearching : bool)
| KSearch (q : string)
| KActivate (id : N).

(** Where the command loop stands: at [range requests], inside
    [cancelSearch] on [<-searchDone], or returned. *)
Inductive main_pc :=
| MRecv
| MJoin (k : cont)
| MReturned.

(** The variables of [Run] and what it has done to the outside.
    [searchCancel] and [searchDone] hold the number of the goroutine whose
    context and channel they are. *)
Record state := {
  requests : list string;
  main : main_pc;
  searchCancel : option nat;
  searchDone : option nat;
  lastResults : list string;
  tasks : list task;
  stdout : list (origin * reply);
  activated : list string;
  logged : list log_entry;
}.

Definition set_main (m : main_pc) (s : state) : state :=
  {| requests := requests s; main := m; searchCancel := searchCancel s;
     searchDone := searchDone s; lastResults := lastResults s;
     tasks := tasks s; stdout := stdout s; activated := activated s;
     logged := logged s |}.

Definition set_requests (r : list string) (s : state) : state :=
  {| requests := r; main := main s; searchCancel := searchCancel s;
     searchDone := searchDone s; lastResults := lastResults s;
     tasks := tasks s; stdout := stdout s; activated := activated s;
     logged := logged s |}.

Definition set_search (c d : option nat) (s : state) : state :=
  {| requests := requests s; main := main s; searchCancel := c;
     searchDone := d; lastResults := lastResults s;
     tasks := tasks s; stdout := stdout s; activated := activated s;
     logged := logged s |}.

Definition set_lastResults (l : list string) (s : state) : state :=
  {| requests := requests s; main := main s; searchCancel := searchCancel s;
     searchDone := searchDone s; lastResults := l;
     tasks := tasks s; stdout := stdout s; activated := activated s;
     logged := logged s |}.

Definition set_tasks (ts : list task) (s : state) : state :=
  {| requests := requests s; main := main s; searchCancel := searchCancel s;
     searchDone := searchDone s; lastResults := lastResults s;
     tasks := ts; stdout := stdout s; activated := activated s;
     logged := logged s |}.

Definition set_activated (a : list string) (s : state) : state :=
  {| requests := requests s; main := main s; searchCancel := searchCancel s;
     searchDone := searchDone s; lastResults := lastResults s;
     tasks := tasks s; stdout := stdout s; activated := a;
     logged := logged s |}.

(** [l.Printf] / [l.Println]. *)
Definition log (e : log_entry) (s : state) : state :=
  {| requests := requests s; main := main s; searchCancel := searchCancel s;
     searchDone := searchDone s; lastResults := lastResults s;
     tasks := tasks s; stdout := stdout s; activated := activated s;
     logged := logged s ++ [e] |}.

(** [respondRaw], and [respond] once it has the text of [json.Marshal]: under
    [outputMu], log the line and write it.  ([json.Marshal] has no error on
    an [appendResponse], so the early return of [respond] is never taken.) *)
Definition respond (o : origin) (r : reply) (s : state) : state :=
  {| requests := requests s; main := main s; searchCancel := searchCancel s;
     searchDone := searchDone s; lastResults := lastResults s;
     tasks := tasks s; stdout := stdout s ++ [(o, r)]; activated := activated s;
     logged := logged s ++ [LogReply r] |}.

Definition set_pc (p : task_pc) (t : task) : task :=
  {| query := query t; ctx_cancelled := ctx_cancelled t;
     matched := matched t; pc := p |}.

Definition set_matched (m : list string) (t : task) : task :=
  {| query := query t; ctx_cancelled := ctx_cancelled t;
     matched := m; pc := pc t |}.

Definition set_cancelled (t : task) : task :=
  {| query := query t; ctx_cancelled := true;
     matched := matched t; pc := pc t |}.

(** Go's conversion [uint32(n)] of a non-negative [int]. *)
Definition uint32 (n : Z) : Z := n mod 2 ^ 32.

(** The scheduler's choice: the command loop or search goroutine [i]. *)
Inductive choice :=
| SchedMain
| SchedTask (i : nat).

(** The state [Run] starts its loop in, with the lines the reader
    goroutine will deliver. *)
Definition init (input : list string) : state :=
  {| requests := input; main := MRecv; searchCancel := None;
     searchDone := None; lastResults := []; tasks := []; stdout := [];
     activated := []; logged := [] |}.

Section Engine.

(** [json.Unmarshal] into a [request] ([None]: it returned an error), and
    the two callbacks of the [Config].  The callbacks are told how many times
    they have been called before, so they need not answer the same twice. *)
Variable Unmarshal : string -> option request.
Variable OnSearch : nat -> string -> behaviour.
Variable OnActivate : nat -> string -> option string.

(** The closure [appendResult] of search goroutine [i], called with [sr]. *)
Definition appendResult (i : nat) (t : task) (sr : SearchResult) (s : state)
  : task * state :=
  let icon := if String.eqb (IconName sr) EmptyString then None
              else Some (IconName sr) in
  let s' := respond (OTask i)
              (Marshal (uint32 (Z.of_nat (length (matched t))))
                       (Name sr) (Description sr) icon) s in
  (set_matched (matched t ++ [Name sr]) t, s').

(** The [Activate] case after [cancelSearch].  The conversion of the index
    to [int] keeps the number ([int] has 64 bits); it is compared with
    [len(lastResults)]. *)
Definition activate (id : N) (s : state) : state :=
  if Z.of_N id <? Z.of_nat (length (lastResults s)) then
    let entry := nth (N.to_nat id) (lastResults s) EmptyString in
    let res := OnActivate (length (activated s)) entry in
    let s1 := set_activated (activated s ++ [entry]) s in
    let s2 := match res with
              | Some err => log (LogActivateFailed err) s1
              | None => s1
              end in
    respond OMain Close s2
  else
    respond OMain Close (log (LogOutOfRange id (length (lastResults s))) s).

(** The [go func(ctx, query)] statement of the [Search] case. *)
Definition spawn (q : string) (s : state) : state :=
  let i := length (tasks s) in
  set_search (Some i) (Some i)
    (set_tasks (tasks s ++ [ {| query := q; ctx_cancelled := false;
                                matched := []; pc := TClear |} ]) s).

(** The rest of a command, after [cancelSearch]. *)
Definition resume (k : cont) (s : state) : state :=
  match k with
  | KExit => set_main MReturned (respond OMain Finished s)
  | KInterrupt wasSearching =>
      set_main MRecv (if wasSearching then s else respond OMain Finished s)
  | KSearch q => set_main MRecv (spawn q s)
  | KActivate id => set_main MRecv (activate id s)
  end.

(** [cancelSearch] up to its receive from [searchDone]: with no search
    held it returns at once and the command goes on. *)
Definition cancelSearch (k : cont) (s : state) : state :=
  match searchCancel s with
  | Some c => set_main (MJoin k) (set_tasks (alter set_cancelled c (tasks s)) s)
  | None => resume k s
  end.

(** One iteration of [for line := range requests], up to the first point
    where it may block. *)
Definition recv (s : state) : state :=
  match requests s with
  | [] => set_main MReturned s
  | line :: rest =>
      let s := log (LogReceived line) (set_requests rest s) in
      let trimmed := strings.TrimSpace line in
      if String.eqb trimmed (quoted "Exit") then
        cancelSearch KExit (log LogExiting s)
      else if String.eqb trimmed (quoted "Interrupt") then
        let s := log LogInterrupted s in
        let wasSearching := bool_decide (searchCancel s <> None) in
        cancelSearch (KInterrupt wasSearching) s
      else
        match Unmarshal line with
        | None => log (LogParseError line) s
        | Some req =>
            match Search req, Activate req with
            | Some q, _ => cancelSearch (KSearch q) s
            | None, Some id => cancelSearch (KActivate id) s
            | None, None => log (LogUnhandled line) s
            end
        end
  end.

(** The receive [<-searchDone] and the two assignments after it: enabled
    once the goroutine has closed its channel. *)
Definition join (k : cont) (s : state) : option state :=
  match searchDone s with
  | Some d =>
      match tasks s !! d with
      | Some t =>
          match pc t with
          | TExited => Some (resume k (set_search None None s))
          | _ => None
          end
      | None => None
      end
  | None => None
  end.

Definition step_main (s : state) : option state :=
  match main s with
  | MRecv => Some (recv s)
  | MJoin k => join k s
  | MReturned => None
  end.

Definition put_task (i : nat) (t : task) (s : state) : state :=
  set_tasks (<[i := t]> (tasks s)) s.

(** The next action of search goroutine [i]. *)
Definition step_task (i : nat) (s : state) : option state :=
  match tasks s !! i with
  | None => None
  | Some t =>
      match pc t with
      | TClear =>
          Some (put_task i (set_pc (TSearch (OnSearch i (query t))) t)
                  (respond (OTask i) Clear s))
      | TSearch (Return err) =>
          Some (put_task i (set_pc TPublish t)
                  match err with
                  | Some e => log (LogSearchFailed e) s
                  | None => s
                  end)
      | TSearch (Emit sr k) =>
          let '(t', s') := appendResult i t sr s in
          Some (put_task i (set_pc (TSearch k) t') s')
      | TSearch (CtxErr k) =>
          Some (put_task i (set_pc (TSearch (k (ctx_cancelled t))) t) s)
      | TSearch (CtxDone k) =>
          if ctx_cancelled t then Some (put_task i (set_pc (TSearch k) t) s)
          else None
      | TPublish =>
          Some (put_task i (set_pc TFinished t) (set_lastResults (matched t) s))
      | TFinished =>
          Some (put_task i (set_pc TCloseDone t) (respond (OTask i) Finished s))
      | TCloseDone => Some (put_task i (set_pc TExited t) s)
      | TExited => None
      end
  end.

Definition step (c : choice) (s : state) : option state :=
  match c with
  | SchedMain => step_main s
  | SchedTask i => step_task i s
  end.

(** A schedule, run from [s]; [None] when it picks a thread that cannot
    move. *)
Fixpoint exec (sched : list choice) (s : state) : option state :=
  match sched with
  | [] => Some s
  | c :: sched' =>
      match step c s with
      | Some s' => exec sched' s'
      | None => None
      end
  end.

(** The states of the runs that start in [s0]. *)
Inductive reachable_from (s0 : state) : state -> Prop :=
| reach_init : reachable_from s0 s0
| reach_step c s s' :
    reachable_from s0 s -> step c s = Some s' -> reachable_from s0 s'.

(** The states of the runs of the loop of [Run] on [input]. *)
Definition reachable (input : list string) : state -> Prop :=
  reachable_from (init input).

End Engine.

(** *** What the statements below speak of *)

(** The wire: the lines in the order written. *)
Definition wire (s : state) : list reply := (stdout s).*2.

(** The lines search goroutine [i] wrote, and those the command loop wrote. *)
Definition task_out (i : nat) (s : state) : list reply :=
  (filter (fun e => e.1 = OTask i) (stdout s)).*2.

Definition main_out (s : state) : list reply :=
  (filter (fun e => e.1 = OMain) (stdout s)).*2.

(** A search goroutine that has not closed its channel yet. *)
Definition alive (t : task) : bool :=
  match pc t with TExited => false | _ => true end.

(** A search goroutine that has stored its [matched] in [lastResults]. *)
Definition has_published (t : task) : bool :=
  match pc t with
  | TFinished | TCloseDone | TExited => true
  | _ => false
  end.

(** A search goroutine whose call of the callback is returning or has
    returned. *)
Definition returned (t : task) : bool :=
  match pc t with
  | TClear | TSearch (Emit _ _) | TSearch (CtxErr _) | TSearch (CtxDone _) =>
      false
  | _ => true
  end.

(** The [matched] of the last goroutine that has stored it. *)
Definition published (ts : list task) : list string :=
  match last (filter (fun t => has_published t = true) ts) with
  | Some t => matched t
  | None => []
  end.

(** [l] is one [Append] per label of [m], the k-th with id [uint32 k] and
    the k-th label as [json.Marshal] writes it. *)
Definition numbered (m : list string) (l : list reply) : Prop :=
  length l = length m /\
  forall (k : nat) r, l !! k = Some r ->
    exists name d ic,
      m !! k = Some name /\
      r = Append (uint32 (Z.of_nat k)) (json.valid_utf8 name) d ic.

(** What a goroutine at [p] with slice [m] has written. *)
Definition shape (p : task_pc) (m : list string) (out : list reply) : Prop :=
  match p with
  | TClear => out = [] /\ m = []
  | TSearch _ | TPublish | TFinished =>
      exists apps, out = Clear :: apps /\ numbered m apps
  | TCloseDone | TExited =>
      exists apps, out = Clear :: apps ++ [Finished] /\ numbered m apps
  end.

(** The results a call of the callback can have passed to [appendResult]
    so far, whatever its context answers. *)
Inductive emits : behaviour -> list SearchResult -> Prop :=
| emits_nil b : emits b []
| emits_Emit sr k l : emits k l -> emits (Emit sr k) (sr :: l)
| emits_CtxErr k c l : emits (k c) l -> emits (CtxErr k) l
| emits_CtxDone k l : emits k l -> emits (CtxDone k) l.

(** The command a line is, by the tests the loop makes on it in their
    order. *)
Inductive command :=
| CmdExit
| CmdInterrupt
| CmdSearch (q : string)
| CmdActivate (id : N)
| CmdUnrecognized
| CmdMalformed.

Definition decode (Unmarshal : string -> option request) (line : string)
  : command :=
  let trimmed := strings.TrimSpace line in
  if String.eqb trimmed (quoted "Exit") then CmdExit
  else if String.eqb trimmed (quoted "Interrupt") then CmdInterrupt
  else
    match Unmarshal line with
    | None => CmdMalformed
    | Some req =>
        match Search req, Activate req with
        | Some q, _ => CmdSearch q
        | None, Some id => CmdActivate id
        | None, None => CmdUnrecognized
        end
    end.

(** The calls of the activation callback that [Activate id] makes when the
    loop reaches its [Activate] case in [s]: one, with the label at index
    [id] of [lastResults], or none. *)
Definition activation_of (id : N) (s : state) : list string :=
  option_list (lastResults s !! N.to_nat id).

(** The [Append] lines among [l]. *)
Definition appends (l : list reply) : list reply :=
  filter (fun r => r <> Clear /\ r <> Finished) l.

(** The number of lines [r] among [l]. *)
Definition count_reply (r : reply) (l : list reply) : nat :=
  length (filter (fun x => x = r) l).

(** *** The output as a sequence of tagged lines *)

Local Close Scope Z_scope.
Local Close Scope string_scope.

(** No line of a later search stands before a line of an earlier one. *)
Definition ordered (out : list (origin * reply)) : Prop :=
  forall (a b i j : nat) x y,
    out !! a = Some (OTask i, x) -> out !! b = Some (OTask j, y) ->
    a <= b -> i <= j.

(** Every line of a search is of one of the first [n] searches. *)
Definition ids_below (n : nat) (out : list (origin * reply)) : Prop :=
  forall (a i : nat) x, out !! a = Some (OTask i, x) -> (i < n)%nat.

(** *** The invariant of the engine *)

(** What holds of the variables of [Run] in every state: the two handles
    go together; a goroutine that has not exited is the one they name, which
    is the last one started; the loop waits only for a goroutine whose
    context it has cancelled; the output is in the order of the searches and
    each search's part has the form its goroutine's position tells;
    [lastResults] is what the last goroutine stored. *)
Record Inv (s : state) : Prop := {
  inv_handles : searchCancel s = searchDone s;
  inv_alive : forall i t,
    tasks s !! i = Some t -> pc t <> TExited -> searchDone s = Some i;
  inv_last : forall i, searchDone s = Some i -> length (tasks s) = S i;
  inv_join : forall k, main s = MJoin k ->
    exists i t, searchDone s = Some i /\ tasks s !! i = Some t /\
                ctx_cancelled t = true;
  inv_ids : ids_below (length (tasks s)) (stdout s);
  inv_order : ordered (stdout s);
  inv_shape : forall i t,
    tasks s !! i = Some t -> shape (pc t) (matched t) (task_out i s);
  inv_results : lastResults s = published (tasks s);
}.

(** *** Interrupt *)



(** *** A command from its line to the next *)

(** How far the loop is with a line [line] that it had before it, [rest]
    being the lines after it: it has not taken the line, it has taken it and
    waits in [cancelSearch], it is through with it and has not taken the
    next, or it is further on.  [P] holds until the loop is through with the
    line, [D] from then until it takes the next. *)
Inductive command_phase (P D : state -> Prop) (line : string)
    (rest : list string) (s : state) : Prop :=
| cp_pending :
    main s = MRecv -> requests s = line :: rest -> P s ->
    command_phase P D line rest s
| cp_waiting k :
    main s = MJoin k -> requests s = rest -> P s ->
    command_phase P D line rest s
| cp_handled :
    requests s = rest -> (forall k, main s <> MJoin k) -> D s ->
    command_phase P D line rest s
| cp_past :
    length (requests s) < length rest -> command_phase P D line rest s.

(** Every goroutine has exited. *)
Definition all_exited (s : state) : Prop :=
  forall j t, tasks s !! j = Some t -> pc t = TExited.

(** *** Runs *)

Section Runs.

Variable Unmarshal : string -> option request.
Variable OnSearch : nat -> string -> behaviour.
Variable OnActivate : nat -> string -> option string.

Local Abbreviation exec := (exec Unmarshal OnSearch OnActivate).

(** Goroutine [i] can run on its own until it has closed its channel, and
    this changes nothing of the loop. *)
Definition runs_out (i : nat) (s : state) : Prop :=
  exists n s' t',
    exec (repeat (SchedTask i) n) s = Some s' /\
    tasks s' !! i = Some t' /\ pc t' = TExited /\
    main s' = main s /\ requests s' = requests s /\
    searchCancel s' = searchCancel s /\ searchDone s' = searchDone s /\
    main_out s' = main_out s /\ activated s' = activated s.

(** The slice of every goroutine holds the names of results that its call
    of the callback can have passed to [appendResult]. *)
Definition traced (s : state) : Prop :=
  forall i t, tasks s !! i = Some t ->
    match pc t with
    | TClear => matched t = []
    | TSearch b =>
        exists pre, matched t = Name <$> pre /\
          forall l, emits b l -> emits (OnSearch i (query t)) (pre ++ l)
    | _ =>
        exists pre, matched t = Name <$> pre /\
          emits (OnSearch i (query t)) pre
    end.

End Runs.

Local Open Scope string_scope.
Local Open Scope Z_scope.

(** *** [Config], [LoadConfig] and [Run] *)

(** An [io.io_Reader], by the lines a scanner reads from it. *)
Inductive io_Reader :=
| OsStdin
| ReaderOf (lines : list string).

Inductive io_Writer :=
| OsStdout
| WriterNo (n : nat).

Inductive log_Logger :=
| Discard
| LoggerNo (n : nat).

(** [Config]; [None] is Go's [nil]. *)
Record Config := {
  Stdin : option io_Reader;
  Stdout : option io_Writer;
  Logger : option log_Logger;
  OnSearch : option (nat -> string -> behaviour);
  OnActivate : option (nat -> string -> option string);
}.

(** [(c *Config) LoadConfig()], with its four results. *)
Definition LoadConfig (c : option Config)
  : log_Logger * option io_Reader * option io_Writer * option string :=
  let l := Discard in
  match c with
  | None => (l, None, None, Some "config is nil")
  | Some c =>
      let l := match Logger c with Some l' => l' | None => l end in
      match OnSearch c with
      | None => (l, None, None, Some "config OnSearch callback is required")
      | Some _ =>
          match OnActivate c with
          | None =>
              (l, None, None, Some "config OnActivate callback is required")
          | Some _ =>
              let stdin := match Stdin c with Some r => r | None => OsStdin end in
              let stdout := match Stdout c with Some w => w | None => OsStdout end in
              (l, Some stdin, Some stdout, None)
          end
      end
  end.

(** What a scanner will read from [r], given what [os.Stdin] holds. *)
Definition lines_of (os_stdin : list string) (r : option io_Reader) : list string :=
  match r with
  | Some (ReaderOf lines) => lines
  | Some OsStdin | None => os_stdin
  end.

(** The callbacks the loop calls.  [LoadConfig] has refused a [Config]
    without them, so the loop never meets the [None] case (a call of a nil
    func in Go). *)
Definition search_callback (cfg : Config) : nat -> string -> behaviour :=
  match OnSearch cfg with
  | Some f => f
  | None => fun _ _ => Return None
  end.

Definition activate_callback (cfg : Config) : nat -> string -> option string :=
  match OnActivate cfg with
  | Some f => f
  | None => fun _ _ => None
  end.

(** A run of [Run]: the logger and the writer it uses and the state of its
    variables. *)
Record run := {
  run_logger : log_Logger;
  run_stdout : option io_Writer;
  run_state : state;
}.

(** [Run(cfg)] up to its loop: on an invalid [Config] it logs and returns,
    with the input where it was. *)
Definition Run (os_stdin : list string) (cfg : Config) : run :=
  match LoadConfig (Some cfg) with
  | (l, stdin, stdout, Some err) =>
      {| run_logger := l; run_stdout := stdout;
         run_state :=
           log (LogInvalidConfig err)
             (set_main MReturned (init (lines_of os_stdin (Stdin cfg)))) |}
  | (l, stdin, stdout, None) =>
      {| run_logger := l; run_stdout := stdout;
         run_state := init (lines_of os_stdin stdin) |}
  end.

(** The states [Run(cfg)] goes through. *)
Definition Run_reachable (Unmarshal : string -> option request)
    (os_stdin : list string) (cfg : Config) : state -> Prop :=
  reachable_from Unmarshal (search_callback cfg) (activate_callback cfg)
    (run_state (Run os_stdin cfg)).

End launcher.

(** ** The plugin: the callbacks [main.go] gives to [launcher.Run] *)

Module gopass.

Definition maxResults : nat := 19.

(** [strings.Split(s, sep)] for the one-byte separator [sep]. *)
Fixpoint Split (s : string) (sep : Ascii.ascii) : list string :=
  match s with
  | EmptyString => [EmptyString]
  | String a s' =>
      if Ascii.eqb a sep then EmptyString :: Split s' sep
      else match Split s' sep with
           | [] => [String a EmptyString]
           | w :: ws => String a w :: ws
           end
  end.

Definition newline : Ascii.ascii := Ascii.ascii_of_nat 10.

Definition password_result (name : string) : launcher.SearchResult :=
  {| launcher.Name := name;
     launcher.Description := "Copy password to clipboard";
     launcher.IconName := "dialog-password" |}.

(** What [ctx.Err()] prints as once the context is cancelled. *)
Definition Canceled : string := "context canceled".

Section Plugin.

(** [strings.ToLower], which follows Unicode's case tables. *)
Variable ToLower : string -> string.

(** [loadEntries], from what [gopass ls] printed ([None]: the command
    failed): the map from the lower-case form of a line to the line. *)
Definition loadEntries (out : option string) : gmap string string :=
  match out with
  | None => ∅
  | Some out =>
      foldl (fun entries line =>
               if String.eqb line EmptyString then entries
               else <[ToLower line := line]> entries)
            ∅ (Split (strings.TrimSpace out) newline)
  end.

(** The loop [for lower, original := range allEntries] of [OnSearch], over
    the pairs in the order the range yields them. *)
Fixpoint scan (lowerQuery : string) (es : list (string * string)) (count : nat)
  : launcher.behaviour :=
  match es with
  | [] => launcher.Return None
  | (lower, original) :: es' =>
      if String.eqb lower lowerQuery then scan lowerQuery es' count
      else
        launcher.CtxErr (fun cancelled =>
          if cancelled then
            launcher.CtxErr (fun cancelled' =>
              launcher.Return (if cancelled' then Some Canceled else None))
          else if String.eqb lowerQuery EmptyString
                  || strings.Contains lower lowerQuery then
            launcher.Emit (password_result original)
              (let count := S count in
               if maxResults <=? count then launcher.Return None
               else scan lowerQuery es' count)
          else scan lowerQuery es' count)
  end%nat.

(** [OnSearch]: [range_order] is the order in which this call's range over
    the map yields its pairs. *)
Definition OnSearch (allEntries : gmap string string)
    (range_order : list (string * string)) (query : string)
  : launcher.behaviour :=
  let query := strings.TrimPrefix query "gp " in
  let lowerQuery := ToLower query in
  let count := 0%nat in
  match allEntries !! lowerQuery with
  | Some exactMatch =>
      launcher.Emit (password_result exactMatch)
        (scan lowerQuery range_order count)
  | None => scan lowerQuery range_order count
  end.

(** [OnActivate]: [show] is the outcome of [gopass show] ([None]: it
    failed) and [started] whether the paste process could be started. *)
Definition OnActivate (show : string -> option string) (started : bool)
    (entry : string) : option string :=
  match show entry with
  | None => Some "gopass show -o failed"
  | Some _ => if started then None else Some "paste start failed"
  end.

End Plugin.

End gopass.

(** ** The earlier [main.go], with the search written in place

    Its loop is the loop of [launcher.Run] (it logs less); what it does
    between [Clear] and the store to [lastResults] is the [search] below, and
    its [Activate] case runs [gopass show -C]. *)

Module legacy.

Definition maxResults : nat := 19.

Record entry := {
  original : string;
  lower : string;
}.

Definition passwordIcon : string := "dialog-password".

Section Search.

Variable ToLower : string -> string.

(** [loadEntries]: the non-empty lines, each with its lower-case form. *)
Definition loadEntries (out : option string) : list entry :=
  match out with
  | None => []
  | Some out =>
      foldl (fun (entries : list entry) line =>
               if String.eqb line EmptyString then entries
               else (entries ++ [ {| original := line; lower := ToLower line |} ])%list)
            [] (gopass.Split (strings.TrimSpace out) gopass.newline)
  end.

(** The loop [for _, e := range allEntries] of the search goroutine;
    [matched] is the goroutine's slice. *)
Fixpoint search_loop (lowerQuery : string) (es : list entry)
    (matched : list string) : launcher.behaviour :=
  match es with
  | [] => launcher.Return None
  | e :: es' =>
      launcher.CtxErr (fun cancelled =>
        if cancelled then launcher.Return None
        else if String.eqb lowerQuery EmptyString
                || strings.Contains (lower e) lowerQuery then
          launcher.Emit
            {| launcher.Name := original e;
               launcher.Description := "Copy password to clipboard";
               launcher.IconName := passwordIcon |}
            (let matched := (matched ++ [original e])%list in
             if maxResults <=? length matched then launcher.Return None
             else search_loop lowerQuery es' matched)
        else search_loop lowerQuery es' matched)
  end%nat.

(** The search goroutine for [*req.Search]. *)
Definition search (allEntries : list entry) (query : string)
  : launcher.behaviour :=
  let query := strings.TrimPrefix query "gp " in
  let lowerQuery := ToLower query in
  search_loop lowerQuery allEntries [].

End Search.

End legacy.

(** ** Sample inputs: lines, a decoder for them, callbacks *)

Module demo.

Import launcher.

Local Open Scope string_scope.

(** The two object-shaped lines of the driver. *)
Definition search_line (q : string) : string :=
  "{" +:+ quoted "Search" +:+ ":" +:+ quoted q +:+ "}".

Definition activate_line (digits : string) : string :=
  "{" +:+ quoted "Activate" +:+ ":" +:+ digits +:+ "}".

Definition cut_suffix (p s : string) : option string :=
  String.rev <$> strings.cut_prefix (String.rev p) (String.rev s).

Fixpoint parse_digits (s : string) (acc : N) : option N :=
  match s with
  | EmptyString => Some acc
  | String a s' =>
      let n := Ascii.N_of_ascii a in
      if ((48 <=? n) && (n <=? 57))%N
      then parse_digits s' (acc * 10 + (n - 48))%N
      else None
  end.

Definition complete_line (digits : string) : string :=
  "{" +:+ quoted "Complete" +:+ ":" +:+ digits +:+ "}".

(** The number of a line [{"key":digits}]. *)
Definition number_field (key line : string) : option N :=
  match strings.cut_prefix ("{" +:+ quoted key +:+ ":") line with
  | Some rest =>
      match cut_suffix "}" rest with
      | Some (String a d) => parse_digits (String a d) 0
      | _ => None
      end
  | None => None
  end.

(** A decoder for the lines above (with a query free of quotes and
    backslashes), on which it answers as [json.Unmarshal] does; every other
    line is an error to it. *)
Definition Unmarshal (line : string) : option request :=
  match strings.cut_prefix
          ("{" +:+ quoted "Search" +:+ ":" +:+ String dquote EmptyString) line
  with
  | Some rest =>
      match cut_suffix (String dquote "}") rest with
      | Some q => Some {| Search := Some q; Activate := None;
                          Complete := None; Context := None |}
      | None => None
      end
  | None =>
      match number_field "Activate" line, number_field "Complete" line with
      | Some n, _ => Some {| Search := None; Activate := Some n;
                             Complete := None; Context := None |}
      | None, Some n => Some {| Search := None; Activate := None;
                                Complete := Some n; Context := None |}
      | None, None => None
      end
  end.

Definition result (name : string) : SearchResult :=
  {| Name := name; Description := name; IconName := "dialog-password" |}.

(** Callbacks: two results; two results without an icon; one result and
    then an error; nothing until the context is cancelled; [n] results. *)
Definition two_results (_ : nat) (q : string) : behaviour :=
  Emit (result ("a/" +:+ q)) (Emit (result ("b/" +:+ q)) (Return None)).

Definition emails (_ : nat) (_ : string) : behaviour :=
  Emit {| Name := "Email/personal"; Description := "personal email";
          IconName := EmptyString |}
    (Emit {| Name := "Email/work"; Description := "work email";
             IconName := EmptyString |}
       (Return None)).

Definition failing (_ : nat) (_ : string) : behaviour :=
  Emit (result "partial") (Return (Some "backend down")).

Definition blocking (_ : nat) (_ : string) : behaviour :=
  CtxDone (CtxErr (fun cancelled =>
    Return (if cancelled then Some gopass.Canceled else None))).


Definition OnActivate (_ : nat) (_ : string) : option string :=
  Some "device busy".

(** [strings.ToLower] on ASCII text. *)
Definition lower_ascii (a : Ascii.ascii) : Ascii.ascii :=
  let n := Ascii.N_of_ascii a in
  if ((65 <=? n) && (n <=? 90))%N then Ascii.ascii_of_N (n + 32) else a.

Fixpoint ToLower (s : string) : string :=
  match s with
  | EmptyString => EmptyString
  | String a s' => String (lower_ascii a) (ToLower s')
  end.

Definition run (OnSearch : nat -> string -> behaviour)
    (sched : list choice) (input : list string) : state :=
  match exec Unmarshal OnSearch OnActivate sched (init input) with
  | Some s => s
  | None => init input
  end.

End demo.

(** Two entries, and the query that is one of them in other case. *)
Definition sample_output : option string :=
  Some ("Email/Work" +:+ String gopass.newline "bank")%string.

(** ** The command loop read as a function of the commands

    What the loop of [Run] itself writes, the queries it starts searches
    with and whether it holds a search, computed from the commands alone:
    the reference the machine is compared with. *)

Module sequential.

Import launcher.

Local Close Scope string_scope.
Local Close Scope Z_scope.

Record loop_state := {
  l_out : list reply;        (* the lines of the loop *)
  l_queries : list string;   (* the queries of the searches started *)
  l_held : bool;             (* searchCancel != nil *)
  l_done : bool;             (* the loop has returned on "Exit" *)
}.

Definition loop_init : loop_state :=
  {| l_out := []; l_queries := []; l_held := false; l_done := false |}.

Definition loop_step (m : loop_state) (c : command) : loop_state :=
  if l_done m then m
  else
    match c with
    | CmdExit =>
        {| l_out := l_out m ++ [Finished]; l_queries := l_queries m;
           l_held := false; l_done := true |}
    | CmdInterrupt =>
        {| l_out := l_out m ++ (if l_held m then [] else [Finished]);
           l_queries := l_queries m; l_held := false; l_done := false |}
    | CmdSearch q =>
        {| l_out := l_out m; l_queries := l_queries m ++ [q];
           l_held := true; l_done := false |}
    | CmdActivate _ =>
        {| l_out := l_out m ++ [Close]; l_queries := l_queries m;
           l_held := false; l_done := false |}
    | CmdUnrecognized | CmdMalformed => m
    end.

Definition loop_run (cmds : list command) : loop_state :=
  foldl loop_step loop_init cmds.

(** The lines the loop is through with in [s], among the lines [consumed]
    it has taken: all, but for the last one while it waits in
    [cancelSearch]. *)
Definition completed (s : state) (consumed : list string) : list string :=
  match main s with
  | MJoin _ => removelast consumed
  | _ => consumed
  end.

(** The state [s] of the machine shows what [m] tells. *)
Definition agrees (s : state) (m : loop_state) : Prop :=
  main_out s = l_out m /\ query <$> tasks s = l_queries m.

(** What the command [c] goes on with after [cancelSearch], taken with or
    without a search held. *)
Definition cont_matches (k : cont) (c : command) (held : bool) : Prop :=
  match c with
  | CmdExit => k = KExit
  | CmdInterrupt => k = KInterrupt held
  | CmdSearch q => k = KSearch q
  | CmdActivate id => k = KActivate id
  | CmdUnrecognized | CmdMalformed => False
  end.

(** How the machine on [input] stands to the function of the commands: at
    its receive, waiting in [cancelSearch] for the sake of the last line
    taken, returned on ["Exit"], or returned at the end of the input. *)
Inductive loop_inv (dec : string -> command) (input : list string)
    (s : state) : Prop :=
| li_recv consumed :
    input = consumed ++ requests s -> main s = MRecv ->
    l_done (loop_run (dec <$> consumed)) = false ->
    agrees s (loop_run (dec <$> consumed)) ->
    l_held (loop_run (dec <$> consumed))
    = bool_decide (searchCancel s <> None) ->
    loop_inv dec input s
| li_join consumed line k :
    input = (consumed ++ [line]) ++ requests s -> main s = MJoin k ->
    cont_matches k (dec line) true ->
    l_done (loop_run (dec <$> consumed)) = false ->
    agrees s (loop_run (dec <$> consumed)) ->
    l_held (loop_run (dec <$> consumed)) = true ->
    searchCancel s <> None ->
    loop_inv dec input s
| li_exit consumed :
    input = consumed ++ requests s -> main s = MReturned ->
    l_done (loop_run (dec <$> consumed)) = true ->
    agrees s (loop_run (dec <$> consumed)) ->
    searchCancel s = None ->
    last (stdout s) = Some (OMain, Finished) ->
    loop_inv dec input s
| li_eof :
    requests s = [] -> main s = MReturned ->
    l_done (loop_run (dec <$> input)) = false ->
    agrees s (loop_run (dec <$> input)) ->
    loop_inv dec input s.

(** The lines among the log entries. *)
Definition log_replies (l : list log_entry) : list reply :=
  omap (fun e => match e with LogReply r => Some r | _ => None end) l.

(** The logger has every line of the output, in its order. *)
Definition logs_lines (s : state) : Prop :=
  log_replies (logged s) = wire s.


(** The context of the search the loop holds is cancelled only while the
    loop waits for it in [cancelSearch]. *)
Definition cancel_inv (s : state) : Prop :=
  forall i t, tasks s !! i = Some t -> ctx_cancelled t = true ->
    searchCancel s = Some i -> exists k, main s = MJoin k.

(** The [Append] line of [appendResult] for [sr] when the slice has [k]
    labels, and the lines for the results [l] one after the other. *)
Definition append_line (k : nat) (sr : SearchResult) : reply :=
  Marshal (uint32 (Z.of_nat k)) (Name sr) (Description sr)
    (if String.eqb (IconName sr) EmptyString then None
     else Some (IconName sr)).

Fixpoint append_lines (from : nat) (l : list SearchResult) : list reply :=
  match l with
  | [] => []
  | sr :: l' => append_line from sr :: append_lines (S from) l'
  end.

(** A call of the callback whose context answers [cancelled] throughout:
    the results it appends and what it returns ([None]: it waits for a
    cancellation that does not come). *)
Fixpoint outcome (cancelled : bool) (b : behaviour)
  : list SearchResult * option (option string) :=
  match b with
  | Return err => ([], Some err)
  | Emit sr k => let '(l, r) := outcome cancelled k in (sr :: l, r)
  | CtxErr k => outcome cancelled (k cancelled)
  | CtxDone k => if cancelled then outcome cancelled k else ([], None)
  end.

(** The steps the call takes under the engine. *)
Fixpoint outcome_steps (cancelled : bool) (b : behaviour) : nat :=
  match b with
  | Return _ => 1
  | Emit _ k => S (outcome_steps cancelled k)
  | CtxErr k => S (outcome_steps cancelled (k cancelled))
  | CtxDone k => if cancelled then S (outcome_steps cancelled k) else 0
  end.

End sequential.

(** ** The [Config] that [main] gives to [launcher.Run] *)

Module gopass_main.

Import launcher.


(** The entries the plugin's range loop and the earlier search loop match
    against [lowerQuery], as a test on the lower-case form. *)
Definition matches (lowerQuery lower : string) : bool :=
  String.eqb lowerQuery EmptyString || strings.Contains lower lowerQuery.

End gopass_main.

(** * Properties *)

Import launcher.

(** ** Go's [strings] functions on examples *)

Example TrimSpace_exit :
  strings.TrimSpace (" " +:+ quoted "Exit" +:+ strings.bytes [13; 10]%nat)
  = quoted "Exit".
Proof. vm_compute. reflexivity. Qed.

Example TrimPrefix_gp : strings.TrimPrefix "gp email" "gp " = "email".
Proof. reflexivity. Qed.

Example TrimPrefix_none : strings.TrimPrefix "email" "gp " = "email".
Proof. reflexivity. Qed.

Example Contains_mid : strings.Contains "email/work" "l/w" = true.
Proof. reflexivity. Qed.

Example Contains_not : strings.Contains "email/work" "lw" = false.
Proof. reflexivity. Qed.

Local Close Scope string_scope.
Local Close Scope Z_scope.

(** ** The output as a sequence of tagged lines *)


Lemma lookup_snoc_inv {A} (l : list A) (x y : A) (a : nat) :
  (l ++ [x]) !! a = Some y ->
  l !! a = Some y \/ (a = length l /\ y = x).
Proof.
  intros H. destruct (decide (a < length l)%nat) as [Hlt | Hge].
  - left. by rewrite lookup_app_l in H.
  - right. rewrite lookup_app_r in H by lia.
    destruct (a - length l)%nat as [| n] eqn:E; simpl in H.
    + split; [lia | congruence].
    + by rewrite lookup_nil in H.
Qed.

Lemma ordered_snoc_main out r : ordered out -> ordered (out ++ [(OMain, r)]).
Proof.
  intros Ho a b i j x y Ha Hb Hab.
  apply lookup_snoc_inv in Ha as [Ha | [_ Ha]]; [| discriminate].
  apply lookup_snoc_inv in Hb as [Hb | [_ Hb]]; [| discriminate].
  eauto.
Qed.

Lemma ordered_snoc_last out n i r :
  ids_below n out -> n = S i -> ordered out -> ordered (out ++ [(OTask i, r)]).
Proof.
  intros Hids -> Ho a b i' j x y Ha Hb Hab.
  apply lookup_snoc_inv in Ha as [Ha | [-> Ha]];
    apply lookup_snoc_inv in Hb as [Hb | [-> Hb]].
  - eauto.
  - simplify_eq. apply Hids in Ha. lia.
  - apply lookup_lt_Some in Hb. lia.
  - by simplify_eq.
Qed.

Lemma ids_below_snoc_main n out r :
  ids_below n out -> ids_below n (out ++ [(OMain, r)]).
Proof.
  intros Hids a i x Ha.
  apply lookup_snoc_inv in Ha as [Ha | [_ Ha]]; [eauto | discriminate].
Qed.

Lemma ids_below_snoc_task n out i r :
  ids_below n out -> (i < n)%nat -> ids_below n (out ++ [(OTask i, r)]).
Proof.
  intros Hids Hi a j x Ha.
  apply lookup_snoc_inv in Ha as [Ha | [_ Ha]]; [eauto | by simplify_eq].
Qed.

Lemma ids_below_mono n m out : ids_below n out -> (n <= m)%nat -> ids_below m out.
Proof. intros Hids Hnm a i x Ha. apply Hids in Ha. lia. Qed.

Lemma task_out_respond i o r s :
  task_out i (respond o r s)
  = task_out i s ++ (if decide (o = OTask i) then [r] else []).
Proof.
  unfold task_out. simpl. rewrite filter_app, fmap_app. f_equal.
  rewrite filter_cons, filter_nil. simpl. by case_decide.
Qed.

Lemma main_out_respond o r s :
  main_out (respond o r s)
  = main_out s ++ (if decide (o = OMain) then [r] else []).
Proof.
  unfold main_out. simpl. rewrite filter_app, fmap_app. f_equal.
  rewrite filter_cons, filter_nil. simpl. by case_decide.
Qed.

Lemma task_out_none i n out :
  ids_below n out -> (n <= i)%nat ->
  (filter (fun e : origin * reply => e.1 = OTask i) out).*2 = [].
Proof.
  intros Hids Hni. induction out as [| [o r] out IH]; [done |].
  rewrite filter_cons. simpl. case_decide as Ho.
  - subst o. specialize (Hids 0%nat i r eq_refl). lia.
  - apply IH. intros a j x Ha. apply (Hids (S a) j x). done.
Qed.

(** The lines of a thread depend on [stdout] alone. *)
Lemma task_out_set_main j m s : task_out j (set_main m s) = task_out j s.
Proof. reflexivity. Qed.

Lemma task_out_log j e s : task_out j (log e s) = task_out j s.
Proof. reflexivity. Qed.

Lemma task_out_set_requests j r s : task_out j (set_requests r s) = task_out j s.
Proof. reflexivity. Qed.

Lemma task_out_set_search j c d s : task_out j (set_search c d s) = task_out j s.
Proof. reflexivity. Qed.

Lemma task_out_set_tasks j ts s : task_out j (set_tasks ts s) = task_out j s.
Proof. reflexivity. Qed.

Lemma task_out_set_activated j a s :
  task_out j (set_activated a s) = task_out j s.
Proof. reflexivity. Qed.

Lemma task_out_set_lastResults j l s :
  task_out j (set_lastResults l s) = task_out j s.
Proof. reflexivity. Qed.

Lemma main_out_set_main m s : main_out (set_main m s) = main_out s.
Proof. reflexivity. Qed.

Lemma main_out_log e s : main_out (log e s) = main_out s.
Proof. reflexivity. Qed.

Lemma main_out_set_requests r s : main_out (set_requests r s) = main_out s.
Proof. reflexivity. Qed.

Lemma main_out_set_search c d s : main_out (set_search c d s) = main_out s.
Proof. reflexivity. Qed.

Lemma main_out_set_tasks ts s : main_out (set_tasks ts s) = main_out s.
Proof. reflexivity. Qed.

Lemma main_out_set_activated a s : main_out (set_activated a s) = main_out s.
Proof. reflexivity. Qed.

Lemma main_out_set_lastResults l s :
  main_out (set_lastResults l s) = main_out s.
Proof. reflexivity. Qed.

Create Rewrite HintDb out.

#[global] Hint Rewrite task_out_set_main task_out_log task_out_set_requests
  task_out_set_search task_out_set_tasks task_out_set_activated
  task_out_set_lastResults task_out_respond
  main_out_set_main main_out_log main_out_set_requests main_out_set_search
  main_out_set_tasks main_out_set_activated main_out_set_lastResults
  main_out_respond : out.

(** ** The labels and ids of the [Append] lines *)

Lemma numbered_nil : numbered [] [].
Proof. split; [done |]. intros k r H. by rewrite lookup_nil in H. Qed.

Lemma numbered_snoc m l name d ic :
  numbered m l ->
  numbered (m ++ [name])
    (l ++ [Marshal (uint32 (Z.of_nat (length m))) name d ic]).
Proof.
  intros [Hlen Hk]. split.
  - rewrite !length_app. simpl. lia.
  - intros k r Hr. apply lookup_snoc_inv in Hr as [Hr | [-> ->]].
    + destruct (Hk k r Hr) as (n' & d' & ic' & Hm & ->).
      exists n', d', ic'. split; [| done]. by apply lookup_app_l_Some.
    + eexists name, _, _. split; [| unfold Marshal; by rewrite Hlen].
      rewrite Hlen, lookup_app_r by lia. by rewrite Nat.sub_diag.
Qed.

(** ** The last goroutine that stored its results *)

Lemma published_snoc ts t :
  published (ts ++ [t]) = if has_published t then matched t else published ts.
Proof.
  unfold published. rewrite filter_app, filter_cons, filter_nil.
  destruct (has_published t) eqn:E; case_decide; try congruence.
  - by rewrite last_snoc.
  - by rewrite app_nil_r.
Qed.

Lemma insert_last {A} (l : list A) (i : nat) (x : A) :
  length l = S i -> <[i := x]> l = take i l ++ [x].
Proof.
  intros Hlen. rewrite <- (take_drop i l) at 1.
  rewrite insert_app_r_alt by (rewrite length_take; lia).
  rewrite length_take, Nat.min_l, Nat.sub_diag by lia.
  destruct (drop i l) as [| y [| z l']] eqn:E; simpl.
  - apply (f_equal length) in E. rewrite length_drop in E. simpl in E. lia.
  - done.
  - apply (f_equal length) in E. rewrite length_drop in E. simpl in E. lia.
Qed.

Lemma split_last {A} (l : list A) (i : nat) (x : A) :
  length l = S i -> l !! i = Some x -> l = take i l ++ [x].
Proof.
  intros Hlen Hx. rewrite <- (insert_last l i x Hlen).
  symmetry. by apply list_insert_id.
Qed.

(** ** The invariant of the engine *)


Lemma Inv_init input : Inv (init input).
Proof.
  split; simpl; done.
Qed.

(** A change of the fields the invariant does not read. *)
Lemma Inv_frame s s' :
  Inv s ->
  searchCancel s' = searchCancel s -> searchDone s' = searchDone s ->
  lastResults s' = lastResults s -> tasks s' = tasks s ->
  stdout s' = stdout s ->
  (forall k, main s' = MJoin k -> main s = MJoin k) ->
  Inv s'.
Proof.
  intros [] Hc Hd Hr Ht Ho Hm.
  split; unfold task_out in *; rewrite ?Hc, ?Hd, ?Hr, ?Ht, ?Ho; eauto.
Qed.

Lemma Inv_log e s : Inv s -> Inv (log e s).
Proof. intros H. by eapply Inv_frame. Qed.

Lemma Inv_set_requests r s : Inv s -> Inv (set_requests r s).
Proof. intros H. by eapply Inv_frame. Qed.

Lemma Inv_set_activated a s : Inv s -> Inv (set_activated a s).
Proof. intros H. by eapply Inv_frame. Qed.

Lemma Inv_set_main m s :
  Inv s -> (forall k, m <> MJoin k) -> Inv (set_main m s).
Proof.
  intros H Hm. eapply Inv_frame; eauto. simpl. intros k ->. by destruct (Hm k).
Qed.

Lemma Inv_respond_main r s : Inv s -> Inv (respond OMain r s).
Proof.
  intros [].
  split; simpl; eauto using ids_below_snoc_main, ordered_snoc_main.
  intros i t Ht. rewrite task_out_respond.
  case_decide; [done |]. rewrite app_nil_r. eauto.
Qed.

Lemma alter_as_insert {A} (f : A -> A) (l : list A) (i : nat) (x : A) :
  l !! i = Some x -> alter f i l = <[i := f x]> l.
Proof.
  revert i. induction l as [| y l IH]; intros [| i] H; simplify_eq/=; [done |].
  f_equal. by apply IH.
Qed.

Lemma filter_task_snoc (j i : nat) (out : list (origin * reply)) (r : reply) :
  (filter (fun e : origin * reply => e.1 = OTask j) (out ++ [(OTask i, r)])).*2
  = (filter (fun e : origin * reply => e.1 = OTask j) out).*2
    ++ (if decide (i = j) then [r] else []).
Proof.
  rewrite filter_app, fmap_app. f_equal.
  rewrite filter_cons, filter_nil. simpl.
  repeat case_decide; simplify_eq; done.
Qed.

(** A step of the last goroutine: it replaces its own record, writes at most
    one line of its own and may store [lastResults]. *)
Lemma Inv_task_update i t t' new s s' :
  Inv s ->
  tasks s !! i = Some t -> pc t <> TExited ->
  searchCancel s' = searchCancel s -> searchDone s' = searchDone s ->
  tasks s' = <[i := t']> (tasks s) ->
  stdout s' = stdout s ++ (pair (OTask i) <$> new) ->
  (new = [] \/ exists r, new = [r]) ->
  (forall k, main s' = MJoin k -> main s = MJoin k \/ ctx_cancelled t' = true) ->
  (ctx_cancelled t = true -> ctx_cancelled t' = true) ->
  shape (pc t') (matched t') (task_out i s ++ new) ->
  (has_published t' = true /\ lastResults s' = matched t' \/
   has_published t' = false /\ has_published t = false /\
   lastResults s' = lastResults s) ->
  Inv s'.
Proof.
  intros HI Ht Hpc Hc Hd Hts Hout Hnew Hmain Hcan Hshape Hres.
  pose proof (inv_alive s HI i t Ht Hpc) as Hdone.
  pose proof (inv_last s HI i Hdone) as Hlen.
  assert (Hlt : i < length (tasks s)) by lia.
  split.
  - rewrite Hc, Hd. apply HI.
  - intros j u Hu Hpu. rewrite Hd. rewrite Hts in Hu.
    destruct (decide (i = j)) as [-> | Hne]; [done |].
    rewrite list_lookup_insert_ne in Hu by done.
    eapply inv_alive; eauto.
  - intros j Hj. rewrite Hd in Hj. rewrite Hts, length_insert.
    by apply HI.
  - intros k Hk. rewrite Hd, Hts. exists i, t'. split; [done |].
    split; [by apply list_lookup_insert_eq |].
    destruct (Hmain k Hk) as [Hm | Hm]; [| done].
    destruct (inv_join s HI k Hm) as (i0 & t0 & Hi0 & Ht0 & Hc0).
    apply Hcan. congruence.
  - rewrite Hts, length_insert, Hout.
    destruct Hnew as [-> | [r ->]]; simpl.
    + rewrite app_nil_r. apply HI.
    + apply ids_below_snoc_task; [apply HI | done].
  - rewrite Hout. destruct Hnew as [-> | [r ->]]; simpl.
    + rewrite app_nil_r. apply HI.
    + eapply ordered_snoc_last; [apply HI | done | apply HI].
  - intros j u Hu. rewrite Hts in Hu.
    assert (Hj : task_out j s' =
                 task_out j s ++ (if decide (i = j) then new else [])).
    { unfold task_out. rewrite Hout.
      destruct Hnew as [-> | [r ->]]; simpl.
      - case_decide; by rewrite !app_nil_r.
      - apply filter_task_snoc. }
    rewrite Hj. destruct (decide (i = j)) as [-> | Hne].
    + rewrite list_lookup_insert_eq in Hu by done. by simplify_eq.
    + rewrite list_lookup_insert_ne in Hu by done.
      rewrite app_nil_r. by apply HI.
  - rewrite Hts, (insert_last _ _ _ Hlen), published_snoc.
    pose proof (inv_results s HI) as Hr.
    rewrite (split_last _ _ _ Hlen Ht), published_snoc in Hr.
    destruct Hres as [[-> ->] | (-> & Hp & ->)]; [done |].
    by rewrite Hp in Hr.
Qed.

Section EngineFacts.

Variable Unmarshal : string -> option request.
Variable OnSearch : nat -> string -> behaviour.
Variable OnActivate : nat -> string -> option string.

Local Abbreviation step := (step Unmarshal OnSearch OnActivate).
Local Abbreviation step_main := (step_main Unmarshal OnActivate).
Local Abbreviation step_task := (step_task OnSearch).
Local Abbreviation recv := (recv Unmarshal OnActivate).
Local Abbreviation join := (join OnActivate).
Local Abbreviation resume := (resume OnActivate).
Local Abbreviation cancelSearch := (cancelSearch OnActivate).
Local Abbreviation activate := (activate OnActivate).
Local Abbreviation exec := (exec Unmarshal OnSearch OnActivate).
Local Abbreviation reachable := (reachable Unmarshal OnSearch OnActivate).
Local Abbreviation reachable_from := (reachable_from Unmarshal OnSearch OnActivate).
Local Abbreviation runs_out := (runs_out Unmarshal OnSearch OnActivate).
Local Abbreviation traced := (traced OnSearch).

Lemma Inv_activate id s : Inv s -> Inv (activate id s).
Proof.
  intros H. unfold activate. case_match.
  - apply Inv_respond_main. case_match; [apply Inv_log |];
      by apply Inv_set_activated.
  - by apply Inv_respond_main, Inv_log.
Qed.

Lemma Inv_spawn q s :
  Inv s -> searchDone s = None -> (forall k, main s <> MJoin k) ->
  Inv (spawn q s).
Proof.
  intros HI Hd Hm. split; simpl.
  - done.
  - intros i t Ht Hpc. apply lookup_snoc_inv in Ht as [Ht | [-> _]]; [| done].
    pose proof (inv_alive s HI i t Ht Hpc). congruence.
  - intros i [= <-]. rewrite length_app. simpl. lia.
  - intros k Hk. by destruct (Hm k).
  - eapply ids_below_mono; [apply HI |]. rewrite length_app. lia.
  - apply HI.
  - intros i t Ht. apply lookup_snoc_inv in Ht as [Ht | [-> ->]].
    + by apply HI.
    + simpl. split; [| done].
      eapply task_out_none; [apply HI | done].
  - rewrite published_snoc. simpl. apply HI.
Qed.

Lemma resume_set_main k m s : resume k (set_main m s) = resume k s.
Proof.
  destruct k as [| [] | |]; try reflexivity.
  unfold launcher.resume, launcher.activate. simpl.
  repeat case_match; reflexivity.
Qed.

Lemma Inv_resume k s : Inv s -> searchDone s = None -> Inv (resume k s).
Proof.
  intros HI Hd. rewrite <- (resume_set_main k MRecv).
  assert (HI0 : Inv (set_main MRecv s)) by (by apply Inv_set_main).
  destruct k as [| was | q | id]; simpl.
  - apply Inv_set_main; [| done]. by apply Inv_respond_main.
  - apply Inv_set_main; [| done]. destruct was; [done |].
    by apply Inv_respond_main.
  - apply Inv_set_main; [| done]. by apply Inv_spawn.
  - apply Inv_set_main; [| done]. by apply Inv_activate.
Qed.

Lemma Inv_cancelSearch k s : Inv s -> main s = MRecv -> Inv (cancelSearch k s).
Proof.
  intros HI Hm. unfold cancelSearch.
  destruct (searchCancel s) as [c |] eqn:Hc.
  - pose proof (inv_handles s HI) as Hh. rewrite Hc in Hh.
    pose proof (inv_last s HI c (eq_sym Hh)) as Hlen.
    destruct (lookup_lt_is_Some_2 (tasks s) c) as [t Ht]; [lia |].
    assert (pc t = TExited \/ pc t <> TExited) as [Hex | Hpc]
      by (destruct (pc t); auto).
    + (* the goroutine is gone already *)
      rewrite (alter_as_insert _ _ _ _ Ht).
      destruct HI. split; simpl; rewrite ?length_insert; eauto.
      * intros i u Hu. destruct (decide (c = i)) as [-> | Hne].
        -- rewrite list_lookup_insert_eq in Hu by lia. simplify_eq. simpl.
           by rewrite Hex.
        -- rewrite list_lookup_insert_ne in Hu by done. eauto.
      * intros k' _. exists c, (set_cancelled t).
        split; [done |]. split; [| done].
        apply list_lookup_insert_eq. lia.
      * intros i u Hu. destruct (decide (c = i)) as [-> | Hne].
        -- rewrite list_lookup_insert_eq in Hu by lia. simplify_eq. simpl.
           by apply inv_shape0.
        -- rewrite list_lookup_insert_ne in Hu by done. by apply inv_shape0.
      * rewrite (insert_last _ _ _ Hlen), published_snoc.
        rewrite (split_last _ _ _ Hlen Ht), published_snoc in inv_results0.
        done.
    + eapply (Inv_task_update c t (set_cancelled t) []); eauto.
      * simpl. by apply alter_as_insert.
      * simpl. by rewrite app_nil_r.
      * rewrite app_nil_r. simpl. by apply HI.
      * unfold has_published. simpl.
        pose proof (inv_results s HI) as Hr.
        rewrite (split_last _ _ _ Hlen Ht), published_snoc in Hr.
        unfold has_published in Hr.
        destruct (pc t); auto.
  - apply Inv_resume; [done |]. by rewrite <- (inv_handles s HI).
Qed.

Lemma Inv_recv s : Inv s -> main s = MRecv -> Inv (recv s).
Proof.
  intros HI Hm. unfold launcher.recv.
  destruct (requests s) as [| line rest]; [by apply Inv_set_main |].
  repeat case_match;
    repeat first [ apply Inv_cancelSearch | apply Inv_log
                 | apply Inv_set_requests ]; simpl; done.
Qed.

Lemma Inv_join k s s' : Inv s -> join k s = Some s' -> Inv s'.
Proof.
  intros HI. unfold launcher.join.
  destruct (searchDone s) as [d |] eqn:Hd; [| done].
  destruct (tasks s !! d) as [t |] eqn:Ht; [| done].
  destruct (pc t) eqn:Hpc; try done. intros [= <-].
  rewrite <- (resume_set_main k MRecv).
  apply Inv_resume; [| done].
  destruct HI. split; simpl; eauto; try done.
  intros i u Hu Hpu. pose proof (inv_alive0 i u Hu Hpu). congruence.
Qed.

Lemma Inv_step_main s s' : Inv s -> step_main s = Some s' -> Inv s'.
Proof.
  intros HI. unfold launcher.step_main.
  destruct (main s) eqn:Hm; [| | done].
  - intros [= <-]. by apply Inv_recv.
  - by apply Inv_join.
Qed.

Lemma Inv_results_last s i t :
  Inv s -> tasks s !! i = Some t -> pc t <> TExited ->
  has_published t = true -> lastResults s = matched t.
Proof.
  intros HI Ht Hpc Hp.
  pose proof (inv_last s HI i (inv_alive s HI i t Ht Hpc)) as Hlen.
  rewrite (inv_results s HI), (split_last _ _ _ Hlen Ht), published_snoc.
  by rewrite Hp.
Qed.

(** The label an [Activate] resolves to after the last search has stored its
    results is a label of that search. *)
Lemma lastResults_of_last s i t :
  Inv s -> tasks s !! i = Some t -> length (tasks s) = S i ->
  has_published t = true -> lastResults s = matched t.
Proof.
  intros HI Ht Hlen Hp.
  rewrite (inv_results s HI), (split_last _ _ _ Hlen Ht), published_snoc.
  by rewrite Hp.
Qed.

Lemma Inv_step_task i s s' : Inv s -> step_task i s = Some s' -> Inv s'.
Proof.
  intros HI. unfold launcher.step_task.
  destruct (tasks s !! i) as [t |] eqn:Ht; [| done].
  pose proof (inv_shape s HI i t Ht) as Hsh.
  assert (Hlast : pc t <> TExited -> has_published t = true ->
                  lastResults s = matched t)
    by eauto using Inv_results_last.
  unfold has_published in Hlast.
  destruct (pc t) as [| [[err |] | sr k | k | k] | | | |] eqn:Hpc;
    simpl in Hsh; try done;
    [ | | | | | destruct (ctx_cancelled t) eqn:Hcan; [| done] | | | ];
    intros [= <-].
  - eapply (Inv_task_update i t _ [Clear]); eauto; simpl; try congruence.
    + destruct Hsh as [-> ->]. exists []. split; [done |]. apply numbered_nil.
    + right. unfold has_published. by rewrite Hpc.
  - eapply (Inv_task_update i t _ []); eauto; simpl; rewrite ?app_nil_r;
      try congruence; try done.
    right. unfold has_published. by rewrite Hpc.
  - eapply (Inv_task_update i t _ []); eauto; simpl; rewrite ?app_nil_r;
      try congruence; try done.
    right. unfold has_published. by rewrite Hpc.
  - destruct Hsh as (apps & Hout & Hnum).
    eapply (Inv_task_update i t _ [_]); eauto; simpl; try congruence.
    + rewrite Hout. eexists. split; [by rewrite app_comm_cons |].
      by apply numbered_snoc.
    + right. unfold has_published. by rewrite Hpc.
  - eapply (Inv_task_update i t _ []); eauto; simpl; rewrite ?app_nil_r;
      try congruence; try done.
    right. unfold has_published. by rewrite Hpc.
  - eapply (Inv_task_update i t _ []); eauto; simpl; rewrite ?app_nil_r;
      try congruence; try done.
    right. unfold has_published. by rewrite Hpc.
  - eapply (Inv_task_update i t _ []); eauto; simpl; rewrite ?app_nil_r;
      try congruence; done.
  - destruct Hsh as (apps & Hout & Hnum).
    eapply (Inv_task_update i t _ [Finished]); eauto; simpl; try congruence;
      try (left; split; [done |]; by apply Hlast).
    rewrite Hout. by exists apps.
  - eapply (Inv_task_update i t _ []); eauto; simpl; rewrite ?app_nil_r;
      try congruence; try done;
      try (left; split; [done |]; by apply Hlast).
Qed.

Lemma Inv_step c s s' : Inv s -> step c s = Some s' -> Inv s'.
Proof.
  destruct c; simpl; eauto using Inv_step_main, Inv_step_task.
Qed.

Lemma Inv_reachable_from s0 s : Inv s0 -> reachable_from s0 s -> Inv s.
Proof. induction 2; eauto using Inv_step. Qed.

Lemma Inv_reachable input s : reachable input s -> Inv s.
Proof. apply Inv_reachable_from, Inv_init. Qed.

Lemma exec_reachable_from s0 sched s s' :
  reachable_from s0 s -> exec sched s = Some s' -> reachable_from s0 s'.
Proof.
  revert s. induction sched as [| c sched IH]; simpl; intros s Hs.
  - by intros [= <-].
  - destruct (step c s) as [s1 |] eqn:E; [| done].
    apply IH. by eapply reach_step.
Qed.

Lemma reachable_from_exec s0 s :
  reachable_from s0 s -> exists sched, exec sched s0 = Some s.
Proof.
  induction 1 as [| c s s' _ [sched IH] Hstep].
  - by exists [].
  - exists (sched ++ [c]). revert IH. generalize s0.
    induction sched as [| c' sched IHs]; simpl; intros s1.
    + intros [= ->]. by rewrite Hstep.
    + destruct (launcher.step _ _ _ c' s1); [apply IHs | done].
Qed.

(** ** The command loop, command by command *)

Local Abbreviation decode := (decode Unmarshal).

Lemma recv_cons s line rest :
  requests s = line :: rest ->
  recv s =
    let s0 := log (LogReceived line) (set_requests rest s) in
    match decode line with
    | CmdExit => cancelSearch KExit (log LogExiting s0)
    | CmdInterrupt =>
        cancelSearch (KInterrupt (bool_decide (searchCancel s <> None)))
          (log LogInterrupted s0)
    | CmdSearch q => cancelSearch (KSearch q) s0
    | CmdActivate id => cancelSearch (KActivate id) s0
    | CmdUnrecognized => log (LogUnhandled line) s0
    | CmdMalformed => log (LogParseError line) s0
    end.
Proof.
  intros Hr. unfold launcher.recv, launcher.decode. rewrite Hr. simpl.
  repeat case_match; simplify_eq; reflexivity.
Qed.

(** C7. On the input that is the one line ["Exit"], the only step the
    engine can take is the command loop's: it writes [Finished] and returns.
    The whole output is that one line, no search goroutine was started (so
    the search callback was not called), the activation callback was not
    called, and nothing can move afterwards. *)
Theorem exit_alone :
  (forall i, step (SchedTask i) (init [quoted "Exit"]) = None) /\
  exists s,
    step SchedMain (init [quoted "Exit"]) = Some s /\
    stdout s = [(OMain, Finished)] /\
    wire s = [Finished] /\
    main s = MReturned /\
    requests s = [] /\
    tasks s = [] /\
    activated s = [] /\
    forall c, step c s = None.
Proof.
  split; [by intros [| i] |].
  eexists. split; [reflexivity |].
  repeat split. intros [| [| i]]; reflexivity.
Qed.

Lemma activate_effect id s :
  stdout (activate id s) = stdout s ++ [(OMain, Close)] /\
  activated (activate id s) = activated s ++ activation_of id s /\
  requests (activate id s) = requests s /\
  main (activate id s) = main s /\
  tasks (activate id s) = tasks s /\
  lastResults (activate id s) = lastResults s /\
  searchCancel (activate id s) = searchCancel s /\
  searchDone (activate id s) = searchDone s.
Proof.
  unfold launcher.activate, activation_of.
  destruct (Z.ltb_spec (Z.of_N id) (Z.of_nat (length (lastResults s))))
    as [Hlt | Hge].
  - destruct (lookup_lt_is_Some_2 (lastResults s) (N.to_nat id)) as [e He];
      [lia |].
    rewrite He. erewrite nth_lookup_Some by done.
    by destruct (OnActivate _ e).
  - rewrite lookup_ge_None_2 by lia. simpl. by rewrite app_nil_r.
Qed.

Lemma join_MJoin k s s' :
  join k s = Some s' -> s' = resume k (set_search None None s).
Proof.
  unfold launcher.join. repeat case_match; congruence.
Qed.

(** The steps of the loop on an [Activate id] line: taking the line, which
    with a search held only cancels that search, and the step after the wait
    in [cancelSearch]. *)
Lemma activate_steps s line rest id :
  main s = MRecv -> requests s = line :: rest ->
  decode line = CmdActivate id ->
  match searchCancel s with
  | None =>
      exists s', step SchedMain s = Some s' /\
        stdout s' = stdout s ++ [(OMain, Close)] /\
        activated s' = activated s ++ activation_of id s /\
        main s' = MRecv /\ requests s' = rest
  | Some c =>
      exists s1, step SchedMain s = Some s1 /\
        stdout s1 = stdout s /\ activated s1 = activated s /\
        main s1 = MJoin (KActivate id) /\ requests s1 = rest
  end /\
  forall s2 s3,
    main s2 = MJoin (KActivate id) -> step SchedMain s2 = Some s3 ->
    stdout s3 = stdout s2 ++ [(OMain, Close)] /\
    activated s3 = activated s2 ++ activation_of id s2 /\
    main s3 = MRecv /\ requests s3 = requests s2.
Proof.
  intros Hm Hr Hd. split.
  - simpl. unfold launcher.step_main. rewrite Hm, (recv_cons s line rest Hr), Hd.
    simpl. unfold launcher.cancelSearch. simpl.
    destruct (searchCancel s) as [c |] eqn:Hc.
    + eexists. split; [reflexivity |]. done.
    + eexists. split; [reflexivity |]. simpl.
      pose proof (activate_effect id
        (log (LogReceived line) (set_requests rest s))) as H.
      simpl in H. by destruct H as (-> & -> & -> & _).
  - intros s2 s3 Hm2. simpl. unfold launcher.step_main. rewrite Hm2.
    intros Hj. apply join_MJoin in Hj as ->. simpl.
    pose proof (activate_effect id (set_search None None s2)) as H.
    simpl in H. by destruct H as (-> & -> & -> & _).
Qed.

(** ** What a step leaves alone *)

Lemma filter_main_snoc_task (out : list (origin * reply)) i r :
  (filter (fun e : origin * reply => e.1 = OMain) (out ++ [(OTask i, r)])).*2
  = (filter (fun e : origin * reply => e.1 = OMain) out).*2.
Proof.
  rewrite filter_app, fmap_app, filter_cons, filter_nil. simpl.
  by rewrite app_nil_r.
Qed.

(** A step of goroutine [i] replaces its record, keeping its query and its
    context, and touches neither the loop's variables, nor the lines of the
    loop, nor those of another goroutine. *)
Lemma step_task_frame i s s' :
  step_task i s = Some s' ->
  main s' = main s /\ requests s' = requests s /\
  searchCancel s' = searchCancel s /\ searchDone s' = searchDone s /\
  activated s' = activated s /\ main_out s' = main_out s /\
  (forall j, j <> i -> task_out j s' = task_out j s) /\
  exists t t',
    tasks s !! i = Some t /\ pc t <> TExited /\
    tasks s' = <[i := t']> (tasks s) /\
    ctx_cancelled t' = ctx_cancelled t /\ query t' = query t.
Proof.
  unfold launcher.step_task.
  destruct (tasks s !! i) as [t |] eqn:Ht; [| done].
  destruct (pc t) as [| [[err |] | sr k | k | k] | | | |] eqn:Hpc; try done;
    [ | | | | | destruct (ctx_cancelled t) eqn:Hcan; [| done] | | | ];
    intros [= <-]; unfold main_out, task_out; simpl;
    rewrite ?filter_main_snoc_task;
    (do 6 (split; [done |]); split;
     [ intros j Hj; rewrite ?filter_task_snoc;
       repeat case_decide; simplify_eq; by rewrite ?app_nil_r
     | eexists t, _; repeat split; try done; congruence ]).
Qed.

Lemma step_task_length i s s' :
  step_task i s = Some s' -> length (tasks s') = length (tasks s).
Proof.
  intros H. apply step_task_frame in H as (_ & _ & _ & _ & _ & _ & _ & H).
  destruct H as (t & t' & _ & _ & -> & _). apply length_insert.
Qed.

Lemma step_task_other i j s s' :
  step_task i s = Some s' -> j <> i -> tasks s' !! j = tasks s !! j.
Proof.
  intros H Hj. apply step_task_frame in H as (_ & _ & _ & _ & _ & _ & _ & H).
  destruct H as (t & t' & _ & _ & -> & _). by apply list_lookup_insert_ne.
Qed.

Lemma resume_requests k s : requests (resume k s) = requests s.
Proof.
  destruct k as [| [] | |]; try reflexivity. simpl.
  apply (activate_effect id s).
Qed.

Lemma cancelSearch_requests k s : requests (cancelSearch k s) = requests s.
Proof.
  unfold launcher.cancelSearch. destruct (searchCancel s); [done |].
  apply resume_requests.
Qed.

Lemma recv_requests s : requests (recv s) = tail (requests s).
Proof.
  destruct (requests s) as [| line rest] eqn:Hr.
  - unfold launcher.recv. by rewrite Hr.
  - rewrite (recv_cons s line rest Hr). simpl.
    destruct (decode line); by rewrite ?cancelSearch_requests.
Qed.

Lemma step_requests c s s' :
  step c s = Some s' -> length (requests s') <= length (requests s).
Proof.
  destruct c as [| i]; simpl.
  - unfold launcher.step_main. destruct (main s); [| | done].
    + intros [= <-]. rewrite recv_requests. destruct (requests s); simpl; lia.
    + intros H. apply join_MJoin in H as ->. by rewrite resume_requests.
  - intros H. apply step_task_frame in H as (_ & -> & _). done.
Qed.

(** ** A cancelled search goroutine runs to its end *)


Lemma runs_out_now i s t :
  tasks s !! i = Some t -> pc t = TExited -> runs_out i s.
Proof. intros Ht Hpc. by exists 0, s, t. Qed.

Lemma runs_out_step i s s1 :
  step_task i s = Some s1 -> runs_out i s1 -> runs_out i s.
Proof.
  intros Hstep (n & s' & t' & Hex & Ht' & Hpc & Hm & Hr & Hc & Hd & Ho & Ha).
  pose proof (step_task_frame _ _ _ Hstep)
    as (Hm1 & Hr1 & Hc1 & Hd1 & Ha1 & Ho1 & _).
  exists (S n), s', t'. simpl. rewrite Hstep.
  repeat split; congruence.
Qed.

Lemma put_task_lookup i t t' s :
  tasks s !! i = Some t -> tasks (put_task i t' s) !! i = Some t'.
Proof.
  intros Ht. simpl. apply list_lookup_insert_eq. by eapply lookup_lt_Some.
Qed.

Ltac run_one_step Ht Hpc :=
  eapply runs_out_step;
  [ unfold launcher.step_task; rewrite Ht, Hpc; simpl; try reflexivity | ].

Lemma runs_out_close i s t :
  tasks s !! i = Some t -> pc t = TCloseDone -> runs_out i s.
Proof.
  intros Ht Hpc. run_one_step Ht Hpc.
  eapply runs_out_now; [by eapply put_task_lookup | done].
Qed.

Lemma runs_out_finished i s t :
  tasks s !! i = Some t -> pc t = TFinished -> runs_out i s.
Proof.
  intros Ht Hpc. run_one_step Ht Hpc.
  eapply runs_out_close; [by eapply (put_task_lookup i t) | done].
Qed.

Lemma runs_out_publish i s t :
  tasks s !! i = Some t -> pc t = TPublish -> runs_out i s.
Proof.
  intros Ht Hpc. run_one_step Ht Hpc.
  eapply runs_out_finished; [by eapply (put_task_lookup i t) | done].
Qed.

Lemma runs_out_search i b : forall s t,
  tasks s !! i = Some t -> pc t = TSearch b -> ctx_cancelled t = true ->
  runs_out i s.
Proof.
  induction b as [err | sr k IH | k IH | k IH]; intros s t Ht Hpc Hcan.
  - run_one_step Ht Hpc.
    eapply runs_out_publish;
      [destruct err; by eapply (put_task_lookup i t) | done].
  - run_one_step Ht Hpc.
    eapply IH; [by eapply (put_task_lookup i t) | done | done].
  - run_one_step Ht Hpc.
    eapply IH; [by eapply (put_task_lookup i t) | done | done].
  - run_one_step Ht Hpc; [by rewrite Hcan |].
    eapply IH; [by eapply (put_task_lookup i t) | done | done].
Qed.

(** A goroutine whose context is cancelled reaches its end. *)
Lemma cancelled_runs_out i s t :
  tasks s !! i = Some t -> ctx_cancelled t = true -> runs_out i s.
Proof.
  intros Ht Hcan. destruct (pc t) eqn:Hpc;
    eauto using runs_out_now, runs_out_close, runs_out_finished,
      runs_out_publish, runs_out_search.
  run_one_step Ht Hpc.
  eapply runs_out_search; [by eapply (put_task_lookup i t) | done | done].
Qed.

Lemma exec_app sched1 sched2 s :
  exec (sched1 ++ sched2) s =
  match exec sched1 s with
  | Some s1 => exec sched2 s1
  | None => None
  end.
Proof.
  revert s. induction sched1 as [| c sched1 IH]; simpl; intros s; [done |].
  destruct (launcher.step _ _ _ c s); [apply IH | done].
Qed.

Lemma Inv_exec sched s s' : Inv s -> exec sched s = Some s' -> Inv s'.
Proof.
  revert s. induction sched as [| c sched IH]; simpl; intros s HI.
  - by intros [= <-].
  - destruct (launcher.step _ _ _ c s) as [s1 |] eqn:E; [| done].
    apply IH. by eapply Inv_step.
Qed.

(** Only the goroutine the handles name can move. *)
Lemma step_task_held i s s' :
  Inv s -> step_task i s = Some s' -> searchCancel s = Some i.
Proof.
  intros HI H. apply step_task_frame in H as (_ & _ & _ & _ & _ & _ & _ & H).
  destruct H as (t & t' & Ht & Hpc & _).
  rewrite (inv_handles s HI). by eapply inv_alive.
Qed.


Lemma numbered_not_finished m apps :
  numbered m apps -> filter (fun x => x = Finished) apps = [].
Proof.
  intros [_ Hk].
  assert (Hall : Forall (fun r => r <> Finished) apps).
  { apply Forall_lookup_2. intros k r Hr.
    destruct (Hk k r Hr) as (? & ? & ? & _ & ->). done. }
  clear Hk. induction Hall as [| r l Hr _ IH]; [done |].
  rewrite filter_cons. by case_decide.
Qed.

(** A search that is over wrote exactly one [Finished]. *)
Lemma exited_one_finished s i t :
  Inv s -> tasks s !! i = Some t -> pc t = TExited ->
  count_reply Finished (task_out i s) = 1.
Proof.
  intros HI Ht Hpc. pose proof (inv_shape s HI i t Ht) as Hsh.
  rewrite Hpc in Hsh. destruct Hsh as (apps & -> & Hnum).
  unfold count_reply. rewrite filter_cons. case_decide; [done |].
  rewrite filter_app, (numbered_not_finished _ _ Hnum). done.
Qed.

(** ** Interrupt *)





(** ** One search at a time *)



(** Without a search held, no goroutine is left. *)
Lemma none_held_all_exited s i t :
  Inv s -> searchCancel s = None -> tasks s !! i = Some t -> pc t = TExited.
Proof.
  intros HI Hc Ht. destruct (pc t) eqn:Hpc; try done.
  all: assert (Hne : pc t <> TExited) by congruence.
  all: pose proof (inv_alive s HI i t Ht Hne) as Hd.
  all: rewrite <- (inv_handles s HI), Hc in Hd; done.
Qed.


(** ** A command from its line to the next *)

(** What a step of a goroutine writes: nothing, or one line, which is not
    [Close]. *)
Lemma step_task_stdout j s s' :
  step_task j s = Some s' ->
  stdout s' = stdout s \/
  exists r, stdout s' = stdout s ++ [(OTask j, r)] /\ r <> Close.
Proof.
  unfold launcher.step_task.
  destruct (tasks s !! j) as [t |] eqn:Ht; [| done].
  destruct (pc t) as [| [[err |] | sr k | k | k] | | | |] eqn:Hpc; try done;
    [ | | | | | destruct (ctx_cancelled t) eqn:Hcan; [| done] | | | ];
    intros [= <-]; simpl; auto; right; by eexists.
Qed.

Lemma count_reply_snoc r x l :
  count_reply r (l ++ [x])
  = count_reply r l + (if decide (x = r) then 1 else 0).
Proof.
  unfold count_reply. rewrite filter_app, length_app, filter_cons, filter_nil.
  by case_decide.
Qed.

Lemma step_task_no_close j s s' :
  step_task j s = Some s' ->
  count_reply Close (wire s') = count_reply Close (wire s).
Proof.
  intros H. unfold wire.
  destruct (step_task_stdout _ _ _ H) as [-> | (r & -> & Hr)]; [done |].
  rewrite fmap_app. simpl. rewrite count_reply_snoc.
  case_decide; [done | lia].
Qed.

Lemma all_exited_stuck j s : all_exited s -> step_task j s = None.
Proof.
  intros H. unfold launcher.step_task.
  destruct (tasks s !! j) as [t |] eqn:Ht; [| done].
  by rewrite (H j t Ht).
Qed.

Lemma none_held_stuck j s :
  Inv s -> searchCancel s = None -> step_task j s = None.
Proof.
  intros HI Hc. apply all_exited_stuck.
  intros i t Ht. by eapply none_held_all_exited.
Qed.

(** The goroutine that the loop waits for runs on its own until the receive
    from [searchDone] is enabled. *)
Lemma join_after_run s k :
  Inv s -> main s = MJoin k ->
  exists i n s1,
    searchDone s = Some i /\
    exec (repeat (SchedTask i) n) s = Some s1 /\
    join k s1 = Some (resume k (set_search None None s1)) /\
    main s1 = MJoin k /\ requests s1 = requests s.
Proof.
  intros HI Hm.
  destruct (inv_join s HI k Hm) as (i & t & Hd & Ht & Hcan).
  destruct (cancelled_runs_out i s t Ht Hcan)
    as (n & s1 & t1 & Hex & Ht1 & Hpc1 & Hm1 & Hr1 & Hc1 & Hd1 & _).
  exists i, n, s1. repeat split; try done; [| congruence].
  unfold launcher.join. by rewrite Hd1, Hd, Ht1, Hpc1.
Qed.

Section Phase.

Variables (P D : state -> Prop) (line : string) (rest : list string).

Hypothesis P_task : forall j s s',
  Inv s -> P s -> step_task j s = Some s' -> P s'.
Hypothesis P_recv : forall s,
  Inv s -> main s = MRecv -> requests s = line :: rest -> P s ->
  (exists k, main (recv s) = MJoin k) /\ P (recv s) \/
  (forall k, main (recv s) <> MJoin k) /\ D (recv s).
Hypothesis P_join : forall s k s',
  Inv s -> main s = MJoin k -> P s -> join k s = Some s' -> D s'.
Hypothesis D_quiet : forall j s, Inv s -> D s -> step_task j s = None.
Hypothesis D_eof : forall s, D s -> D (set_main MReturned s).

Lemma command_phase_step c s s' :
  Inv s -> command_phase P D line rest s -> step c s = Some s' ->
  command_phase P D line rest s'.
Proof.
  intros HI Hph Hstep. destruct c as [| j]; simpl in Hstep.
  - unfold launcher.step_main in Hstep.
    destruct Hph as [Hm Hr HP | k Hm Hr HP | Hr Hm HD | Hlt].
    + rewrite Hm in Hstep. injection Hstep as <-.
      assert (Hr' : requests (recv s) = rest) by by rewrite recv_requests, Hr.
      destruct (P_recv s HI Hm Hr HP) as [[[k Hk] HP'] | [Hk HD]].
      * by eapply cp_waiting.
      * by apply cp_handled.
    + rewrite Hm in Hstep. pose proof (P_join s k s' HI Hm HP Hstep) as HD.
      apply join_MJoin in Hstep as ->.
      apply cp_handled; [by rewrite resume_requests | | done].
      intros k'. by destruct k as [| [] | |].
    + destruct (main s) eqn:Hms; [| by destruct (Hm k) | done].
      injection Hstep as <-.
      destruct rest as [| l rest'].
      * unfold launcher.recv. rewrite Hr. apply cp_handled; simpl; auto.
      * apply cp_past. rewrite recv_requests, Hr. simpl. lia.
    + apply cp_past. destruct (main s); [| | done].
      * injection Hstep as <-. rewrite recv_requests.
        destruct (requests s); simpl in *; lia.
      * apply join_MJoin in Hstep as ->. by rewrite resume_requests.
  - pose proof (step_task_frame _ _ _ Hstep) as (Hm' & Hr' & _).
    destruct Hph as [Hm Hr HP | k Hm Hr HP | Hr Hm HD | Hlt].
    + apply cp_pending; try congruence. by eapply P_task.
    + apply (cp_waiting _ _ _ _ _ k); try congruence. by eapply P_task.
    + by rewrite (D_quiet j s HI HD) in Hstep.
    + apply cp_past. congruence.
Qed.

Lemma command_phase_exec sched : forall s s',
  Inv s -> command_phase P D line rest s -> exec sched s = Some s' ->
  command_phase P D line rest s'.
Proof.
  induction sched as [| c sched IH]; simpl; intros s s' HI Hph.
  - by intros [= <-].
  - destruct (launcher.step _ _ _ c s) as [s1 |] eqn:E; [| done].
    apply IH; [by eapply Inv_step |].
    by eapply command_phase_step.
Qed.

(** Once the loop is through with the line and has not taken the next,
    [D] holds. *)
Lemma command_done sched s s' :
  Inv s -> main s = MRecv -> requests s = line :: rest -> P s ->
  exec sched s = Some s' -> requests s' = rest ->
  (forall k, main s' <> MJoin k) -> D s'.
Proof.
  intros HI Hm Hr HP Hex Hr' Hm'.
  assert (Hph : command_phase P D line rest s) by by apply cp_pending.
  destruct (command_phase_exec sched s s' HI Hph Hex)
    as [_ Hr2 _ | k Hm2 _ _ | _ _ HD | Hlt].
  - rewrite Hr' in Hr2. apply (f_equal length) in Hr2. simpl in Hr2. lia.
  - by destruct (Hm' k).
  - done.
  - rewrite Hr' in Hlt. lia.
Qed.

End Phase.


(** C1, where the code departs from it.  The handle [searchCancel] is
    cleared by [cancelSearch] only, not when a search ends.  So after a
    search has ended by itself, [wasSearching] is still true at the next
    [Interrupt]: the loop cancels and joins a goroutine that has exited long
    ago and writes nothing.  The loop does get through the line, in two
    steps, and under every schedule the output is then what it was before
    the [Interrupt]: no [Finished] answers it. *)
Theorem interrupt_after_search_unanswered input s line rest i t :
  reachable input s ->
  main s = MRecv -> requests s = line :: rest ->
  decode line = CmdInterrupt ->
  searchCancel s = Some i -> tasks s !! i = Some t -> pc t = TExited ->
  (exists s',
     exec [SchedMain; SchedMain] s = Some s' /\
     requests s' = rest /\ main s' = MRecv /\ stdout s' = stdout s) /\
  forall sched s',
    exec sched s = Some s' -> requests s' = rest ->
    (forall k, main s' <> MJoin k) ->
    stdout s' = stdout s /\
    count_reply Finished (wire s') = count_reply Finished (wire s).
Proof.
  intros Hreach Hm Hr Hdec Hc Ht Hpc.
  pose proof (Inv_reachable _ _ Hreach) as HI.
  pose proof (inv_handles s HI) as Hh. rewrite Hc in Hh.
  assert (Hall : all_exited s).
  { intros j u Hu. destruct (pc u) eqn:Hpu; try done.
    all: assert (Hne : pc u <> TExited) by congruence.
    all: pose proof (inv_alive s HI j u Hu Hne) as Hd.
    all: assert (j = i) as -> by congruence; congruence. }
  set (s1 := set_main (MJoin (KInterrupt true))
               (set_tasks (alter set_cancelled i (tasks s))
                  (log LogInterrupted
                     (log (LogReceived line) (set_requests rest s))))).
  assert (Hs1 : recv s = s1).
  { rewrite (recv_cons s line rest Hr), Hdec. simpl.
    unfold launcher.cancelSearch. simpl. by rewrite Hc. }
  split.
  - exists (resume (KInterrupt true) (set_search None None s1)).
    split; [| done].
    simpl. unfold launcher.step_main at 1. rewrite Hm, Hs1.
    unfold launcher.step_main, launcher.join. simpl. rewrite <- Hh.
    by rewrite list_lookup_alter_eq, Ht; simpl; rewrite Hpc.
  - intros sched s' Hex Hr' Hm'.
    set (P := fun u : state =>
      stdout u = stdout s /\ all_exited u /\
      (forall k, main u = MJoin k -> k = KInterrupt true) /\
      (main u = MRecv -> searchCancel u <> None)).
    set (D := fun u : state => stdout u = stdout s /\ all_exited u).
    assert (HD : D s').
    { refine (command_done P D line rest _ _ _ _ _ sched s s' HI Hm Hr _
                Hex Hr' Hm').
      - intros j u u' _ (_ & Hex' & _) Hstep.
        by rewrite (all_exited_stuck j u Hex') in Hstep.
      - intros u HIu Hmu Hru (Ho & Hex' & Hk & Hheld). left.
        destruct (searchCancel u) as [c |] eqn:Hcu; [| by destruct Hheld].
        rewrite (recv_cons u line rest Hru), Hdec. simpl.
        unfold launcher.cancelSearch. simpl. rewrite Hcu. simpl.
        split; [by eexists |]. repeat split; try done.
        + intros j v Hv. simpl in Hv.
          destruct (decide (j = c)) as [-> | Hne].
          * rewrite list_lookup_alter_eq in Hv.
            destruct (tasks u !! c) as [v' |] eqn:Hv'; [| done].
            injection Hv as <-. simpl. by eapply Hex'.
          * rewrite list_lookup_alter_ne in Hv by done. by eapply Hex'.
        + by intros k [= <-].
      - intros u k u' HIu Hmu (Ho & Hex' & Hk & _) Hj.
        apply join_MJoin in Hj as ->. rewrite (Hk k Hmu). by split.
      - intros j u _ [_ Hex']. by apply all_exited_stuck.
      - by intros u [? ?].
      - repeat split; try done; [by rewrite Hm | by rewrite Hc]. }
    destruct HD as [Ho _]. split; [done |]. unfold wire. by rewrite Ho.
Qed.

(** C5. An [Activate id] line.  Taking the line with no search held, the
    loop calls the activation callback at once; with a search held it only
    cancels that search, and the call is made by the step after the wait in
    [cancelSearch].  The loop does get through the line, and once it has,
    under every schedule: it has called the callback exactly once with the
    label at index [id] of [lastResults] when there is one and not at all
    otherwise, and, whatever the callback returned, it has written the one
    line [Close] and nothing else, which is the only [Close] that the output
    has gained; every search goroutine has exited. *)
Theorem activate_closes_once input s line rest id :
  reachable input s ->
  main s = MRecv -> requests s = line :: rest ->
  decode line = CmdActivate id ->
  match searchCancel s with
  | None =>
      exists s', step SchedMain s = Some s' /\
        stdout s' = stdout s ++ [(OMain, Close)] /\
        activated s' = activated s ++ activation_of id s /\
        main s' = MRecv /\ requests s' = rest
  | Some c =>
      exists s1, step SchedMain s = Some s1 /\
        stdout s1 = stdout s /\ activated s1 = activated s /\
        main s1 = MJoin (KActivate id) /\ requests s1 = rest
  end /\
  (forall s2 s3,
     main s2 = MJoin (KActivate id) -> step SchedMain s2 = Some s3 ->
     stdout s3 = stdout s2 ++ [(OMain, Close)] /\
     activated s3 = activated s2 ++ activation_of id s2 /\
     main s3 = MRecv /\ requests s3 = requests s2) /\
  (exists sched s',
     exec sched s = Some s' /\ requests s' = rest /\ main s' = MRecv) /\
  forall sched s',
    exec sched s = Some s' -> requests s' = rest ->
    (forall k, main s' <> MJoin k) ->
    main_out s' = main_out s ++ [Close] /\
    count_reply Close (wire s') = S (count_reply Close (wire s)) /\
    activated s' = activated s ++ activation_of id s' /\
    all_exited s'.
Proof.
  intros Hreach Hm Hr Hdec.
  pose proof (Inv_reachable _ _ Hreach) as HI.
  destruct (activate_steps s line rest id Hm Hr Hdec) as [Hfirst Hjoin].
  split; [exact Hfirst |]. split; [exact Hjoin |].
  assert (Hrecv : recv s = cancelSearch (KActivate id)
                    (log (LogReceived line) (set_requests rest s))).
  { by rewrite (recv_cons s line rest Hr), Hdec. }
  assert (Hstep : step SchedMain s = Some (recv s)).
  { simpl. unfold launcher.step_main. by rewrite Hm. }
  split.
  - destruct (searchCancel s) as [c |] eqn:Hc.
    + destruct Hfirst as (s1 & Hs1 & _ & _ & Hm1 & Hr1).
      assert (HI1 : Inv s1) by by eapply Inv_step.
      destruct (join_after_run s1 _ HI1 Hm1)
        as (i & n & s2 & _ & Hex & Hj & Hm2 & Hr2).
      exists (SchedMain :: repeat (SchedTask i) n ++ [SchedMain]).
      exists (resume (KActivate id) (set_search None None s2)).
      split.
      * cbn [launcher.exec]. rewrite Hs1, exec_app, Hex. simpl.
        unfold launcher.step_main. by rewrite Hm2, Hj.
      * split; [| done]. rewrite resume_requests. simpl. congruence.
    + destruct Hfirst as (s1 & Hs1 & _ & _ & Hm1 & Hr1).
      exists [SchedMain], s1. simpl in *. by rewrite Hs1.
  - intros sched s' Hex Hr' Hm'.
    set (P := fun u : state =>
      main_out u = main_out s /\ activated u = activated s /\
      count_reply Close (wire u) = count_reply Close (wire s) /\
      (forall k, main u = MJoin k -> k = KActivate id)).
    set (D := fun u : state =>
      main_out u = main_out s ++ [Close] /\
      count_reply Close (wire u) = S (count_reply Close (wire s)) /\
      activated u = activated s ++ activation_of id u /\
      searchCancel u = None).
    assert (Hact : forall u : state,
      main_out u = main_out s -> activated u = activated s ->
      count_reply Close (wire u) = count_reply Close (wire s) ->
      searchCancel u = None ->
      D (resume (KActivate id) u)).
    { intros u Ho Ha Hw Hcu. unfold D. simpl.
      destruct (activate_effect id u)
        as (Eo & Ea & _ & _ & _ & El & Ec & _).
      unfold main_out, wire, activation_of in *. simpl.
      rewrite Eo, Ea, El, Ec, filter_app, !fmap_app. simpl.
      rewrite Ho, Ha, count_reply_snoc, Hw.
      repeat split; try done. case_decide; [lia | done]. }
    assert (HD : D s').
    { refine (command_done P D line rest _ _ _ _ _ sched s s' HI Hm Hr _
                Hex Hr' Hm').
      - intros j u u' _ (Ho & Ha & Hw & Hk) Hst.
        pose proof (step_task_frame _ _ _ Hst)
          as (Hm1 & _ & _ & _ & Ha1 & Ho1 & _).
        pose proof (step_task_no_close _ _ _ Hst) as Hw1.
        unfold P. rewrite Hm1, Ha1, Ho1, Hw1. by repeat split.
      - intros u HIu Hmu Hru (Ho & Ha & Hw & Hk).
        rewrite (recv_cons u line rest Hru), Hdec. simpl.
        unfold launcher.cancelSearch. simpl.
        destruct (searchCancel u) as [c |] eqn:Hcu.
        + left. split; [by eexists |]. unfold P. simpl.
          repeat split; try done. by intros k [= <-].
        + right. split; [intros k; simpl; done |].
          by apply Hact.
      - intros u k u' HIu Hmu (Ho & Ha & Hw & Hk) Hj.
        apply join_MJoin in Hj as ->. rewrite (Hk k Hmu).
        by apply Hact.
      - intros j u HIu (_ & _ & _ & Hcu). by apply none_held_stuck.
      - intros u (Ho & Hw & Ha & Hcu). unfold D. by repeat split.
      - unfold P. repeat split; try done. intros k Hk. congruence. }
    destruct HD as (Ho & Hw & Ha & Hcu).
    repeat split; try done.
    intros j t Ht. eapply none_held_all_exited; [| done | done].
    by eapply Inv_exec.
Qed.



(** ** The replies of one search *)

Lemma runs_out_return i s t err :
  tasks s !! i = Some t -> pc t = TSearch (Return err) -> runs_out i s.
Proof.
  intros Ht Hpc. run_one_step Ht Hpc.
  eapply runs_out_publish;
    [destruct err; by eapply (put_task_lookup i t) | done].
Qed.

(** C3. The lines of one search, whatever becomes of it: nothing before
    its [Clear]; then [Clear] followed by [Append] lines only; and from its
    [Finished] on, [Clear], the [Append] lines and that one [Finished], which
    is its last line.  A search whose context is cancelled, and a search
    whose callback returns (with an error or without), does reach that
    end. *)
Theorem search_reply_order input s i t :
  reachable input s -> tasks s !! i = Some t ->
  (exists apps,
     numbered (matched t) apps /\
     match pc t with
     | TClear => task_out i s = []
     | TSearch _ | TPublish | TFinished => task_out i s = Clear :: apps
     | TCloseDone | TExited => task_out i s = Clear :: apps ++ [Finished]
     end) /\
  (ctx_cancelled t = true -> runs_out i s) /\
  (forall err, pc t = TSearch (Return err) -> runs_out i s) /\
  (pc t = TExited ->
   head (task_out i s) = Some Clear /\
   last (task_out i s) = Some Finished /\
   count_reply Finished (task_out i s) = 1 /\
   count_reply Clear (task_out i s) = 1).
Proof.
  intros Hreach Ht. pose proof (Inv_reachable _ _ Hreach) as HI.
  pose proof (inv_shape s HI i t Ht) as Hsh.
  split; [| split; [| split]].
  - destruct (pc t); simpl in Hsh.
    + destruct Hsh as [-> ->]. exists []. split; [apply numbered_nil | done].
    + destruct Hsh as (apps & ? & ?). by exists apps.
    + destruct Hsh as (apps & ? & ?). by exists apps.
    + destruct Hsh as (apps & ? & ?). by exists apps.
    + destruct Hsh as (apps & ? & ?). by exists apps.
    + destruct Hsh as (apps & ? & ?). by exists apps.
  - intros Hcan. by eapply cancelled_runs_out.
  - intros err Hpc. by eapply runs_out_return.
  - intros Hpc. rewrite Hpc in Hsh. destruct Hsh as (apps & Hout & Hnum).
    split; [by rewrite Hout |]. split.
    { by rewrite Hout, app_comm_cons, last_snoc. }
    split; [by eapply exited_one_finished |].
    rewrite Hout. unfold count_reply.
    rewrite filter_cons. case_decide; [| done]. simpl. f_equal.
    rewrite filter_app, filter_cons, filter_nil.
    case_decide; [done |]. rewrite app_nil_r.
    destruct Hnum as [_ Hk].
    assert (Hall : Forall (fun r => r <> Clear) apps).
    { apply Forall_lookup_2. intros k r Hr.
      destruct (Hk k r Hr) as (? & ? & ? & _ & ->). done. }
    clear Hk Hout. induction Hall as [| r l Hr _ IH]; [done |].
    rewrite filter_cons. by case_decide.
Qed.


(** ** What the command loop does to the goroutines *)

Lemma resume_tasks k s :
  tasks (resume k s) = tasks s \/
  exists q, tasks (resume k s)
            = tasks s ++ [ {| query := q; ctx_cancelled := false;
                              matched := []; pc := TClear |} ].
Proof.
  destruct k as [| [] | q | id]; simpl; auto.
  - right. by exists q.
  - left. apply (activate_effect id s).
Qed.

(** A step of the loop leaves the goroutines alone, or cancels the context
    of one, or starts one. *)
Lemma step_main_tasks s s' :
  step_main s = Some s' ->
  tasks s' = tasks s \/
  (exists c, tasks s' = alter set_cancelled c (tasks s)) \/
  exists q, tasks s' = tasks s ++ [ {| query := q; ctx_cancelled := false;
                                      matched := []; pc := TClear |} ].
Proof.
  unfold launcher.step_main. destruct (main s) as [| k |]; [| | done].
  - intros [= <-]. destruct (requests s) as [| line rest] eqn:Hr.
    { unfold launcher.recv. rewrite Hr. by left. }
    rewrite (recv_cons s line rest Hr). simpl.
    assert (Hcs : forall k s0, tasks s0 = tasks s ->
      tasks (cancelSearch k s0) = tasks s \/
      (exists c, tasks (cancelSearch k s0) = alter set_cancelled c (tasks s)) \/
      exists q, tasks (cancelSearch k s0)
                = tasks s ++ [ {| query := q; ctx_cancelled := false;
                                  matched := []; pc := TClear |} ]).
    { intros k s0 Hs0. unfold launcher.cancelSearch.
      destruct (searchCancel s0) as [c |].
      - right. left. exists c. simpl. by rewrite Hs0.
      - rewrite <- Hs0. destruct (resume_tasks k s0); auto. }
    destruct (decode line); try (by apply Hcs); by left.
  - intros H. apply join_MJoin in H as ->.
    destruct (resume_tasks k (set_search None None s)); auto.
Qed.

(** A goroutine that has exited stays as it is, but for its context. *)
Lemma exited_stays c s s' i t :
  step c s = Some s' -> tasks s !! i = Some t -> pc t = TExited ->
  exists t', tasks s' !! i = Some t' /\ pc t' = TExited /\
             matched t' = matched t.
Proof.
  intros Hstep Ht Hpc. destruct c as [| j]; simpl in Hstep.
  - destruct (step_main_tasks _ _ Hstep) as [-> | [[c ->] | [q ->]]].
    + by exists t.
    + destruct (decide (c = i)) as [-> | Hne].
      * exists (set_cancelled t). by rewrite list_lookup_alter_eq, Ht.
      * exists t. by rewrite list_lookup_alter_ne.
    + exists t. split; [| done]. by apply lookup_app_l_Some.
  - pose proof (step_task_frame _ _ _ Hstep) as (_ & _ & _ & _ & _ & _ & _ & H).
    destruct H as (u & u' & Hu & Hpu & _).
    exists t. split; [| done].
    rewrite (step_task_other _ i _ _ Hstep); [done | congruence].
Qed.

Lemma exited_stays_exec sched : forall s s' i t,
  exec sched s = Some s' -> tasks s !! i = Some t -> pc t = TExited ->
  exists t', tasks s' !! i = Some t' /\ pc t' = TExited /\
             matched t' = matched t.
Proof.
  induction sched as [| c sched IH]; simpl; intros s s' i t.
  - intros [= <-] Ht Hpc. by exists t.
  - destruct (launcher.step _ _ _ c s) as [s1 |] eqn:E; [| done].
    intros Hex Ht Hpc.
    destruct (exited_stays _ _ _ _ _ E Ht Hpc) as (t1 & Ht1 & Hpc1 & Hm1).
    destruct (IH _ _ _ _ Hex Ht1 Hpc1) as (t' & ? & ? & ?).
    exists t'. repeat split; congruence.
Qed.

Lemma step_task_return i s t err :
  tasks s !! i = Some t -> pc t = TSearch (Return err) ->
  step_task i s =
    Some (put_task i (set_pc TPublish t)
            match err with
            | Some e => log (LogSearchFailed e) s
            | None => s
            end).
Proof. intros Ht Hpc. unfold launcher.step_task. by rewrite Ht, Hpc. Qed.

Lemma step_task_publish i s t :
  tasks s !! i = Some t -> pc t = TPublish ->
  step_task i s =
    Some (put_task i (set_pc TFinished t) (set_lastResults (matched t) s)).
Proof. intros Ht Hpc. unfold launcher.step_task. by rewrite Ht, Hpc. Qed.

Lemma step_task_finished i s t :
  tasks s !! i = Some t -> pc t = TFinished ->
  step_task i s =
    Some (put_task i (set_pc TCloseDone t) (respond (OTask i) Finished s)).
Proof. intros Ht Hpc. unfold launcher.step_task. by rewrite Ht, Hpc. Qed.

Lemma step_task_close i s t :
  tasks s !! i = Some t -> pc t = TCloseDone ->
  step_task i s = Some (put_task i (set_pc TExited t) s).
Proof. intros Ht Hpc. unfold launcher.step_task. by rewrite Ht, Hpc. Qed.

(** From the return of the callback to the end of the goroutine. *)
Lemma exec_after_return i s t err :
  tasks s !! i = Some t -> pc t = TSearch (Return err) ->
  exists s',
    exec (repeat (SchedTask i) 4) s = Some s' /\
    stdout s' = stdout s ++ [(OTask i, Finished)] /\
    logged s' = (logged s
                 ++ (match err with
                     | Some e => [LogSearchFailed e]
                     | None => []
                     end) ++ [LogReply Finished]) /\
    lastResults s' = matched t /\
    tasks s' = <[i := set_pc TExited t]> (tasks s).
Proof.
  intros Ht Hpc.
  assert (Hlt : i < length (tasks s)) by by eapply lookup_lt_Some.
  destruct err as [e |]; (eexists; split;
    [ cbn [launcher.exec launcher.step repeat];
      rewrite (step_task_return i s t _ Ht Hpc);
      erewrite (step_task_publish i _ (set_pc TPublish t));
        [| by eapply (put_task_lookup i t) | done];
      erewrite (step_task_finished i _ (set_pc TFinished (set_pc TPublish t)));
        [| simpl; apply list_lookup_insert_eq; by rewrite length_insert
         | done];
      erewrite (step_task_close i _
                  (set_pc TCloseDone (set_pc TFinished (set_pc TPublish t))));
        [ reflexivity
        | simpl; apply list_lookup_insert_eq; by rewrite !length_insert
        | done ]
    | simpl; rewrite ?list_insert_insert_eq, <- ?app_assoc; done ]).
Qed.

(** Once the callback returns, the slice of the goroutine is final. *)
Lemma returned_stays c s s' i t :
  step c s = Some s' -> tasks s !! i = Some t -> returned t = true ->
  exists t', tasks s' !! i = Some t' /\ returned t' = true /\
             matched t' = matched t.
Proof.
  intros Hstep Ht Hret. destruct c as [| j]; simpl in Hstep.
  - destruct (step_main_tasks _ _ Hstep) as [-> | [[c ->] | [q ->]]].
    + by exists t.
    + destruct (decide (c = i)) as [-> | Hne].
      * exists (set_cancelled t). by rewrite list_lookup_alter_eq, Ht.
      * exists t. by rewrite list_lookup_alter_ne.
    + exists t. split; [| done]. by apply lookup_app_l_Some.
  - destruct (decide (i = j)) as [-> | Hne];
      [| exists t; by rewrite (step_task_other _ _ _ _ Hstep Hne)].
    revert Hstep. unfold launcher.step_task. rewrite Ht.
    assert (Hlt : j < length (tasks s)) by by eapply lookup_lt_Some.
    unfold returned in Hret.
    destruct (pc t) as [| [[err |] | sr k | k | k] | | | |] eqn:Hpc;
      try done; intros [= <-]; simpl;
      (eexists; split; [by apply list_lookup_insert_eq | done]).
Qed.

Lemma returned_stays_exec sched : forall s s' i t,
  exec sched s = Some s' -> tasks s !! i = Some t -> returned t = true ->
  exists t', tasks s' !! i = Some t' /\ returned t' = true /\
             matched t' = matched t.
Proof.
  induction sched as [| c sched IH]; simpl; intros s s' i t.
  - intros [= <-] Ht Hret. by exists t.
  - destruct (launcher.step _ _ _ c s) as [s1 |] eqn:E; [| done].
    intros Hex Ht Hret.
    destruct (returned_stays _ _ _ _ _ E Ht Hret) as (t1 & Ht1 & Hret1 & Hm1).
    destruct (IH _ _ _ _ Hex Ht1 Hret1) as (t' & ? & ? & ?).
    exists t'. repeat split; congruence.
Qed.

(** C6. A search whose callback returns an error ends as any other: the
    error is logged, the goroutine stores its slice (the labels of the
    [Append] lines it wrote) in [lastResults], writes its [Finished] and
    exits.  As long as no other search is started, [lastResults] stays that
    slice, so an [Activate] resolves its index in it.  The same holds
    under every schedule: in whatever state the goroutine has stored its
    results, they are that slice, and once it has exited its lines are
    [Clear], the [Append] lines of the slice and [Finished]. *)
Theorem provider_failure_publishes input s i t err :
  reachable input s -> tasks s !! i = Some t ->
  pc t = TSearch (Return (Some err)) ->
  exists s',
    exec (repeat (SchedTask i) 4) s = Some s' /\
    stdout s' = stdout s ++ [(OTask i, Finished)] /\
    logged s' = logged s ++ [LogSearchFailed err; LogReply Finished] /\
    lastResults s' = matched t /\
    (exists t', tasks s' !! i = Some t' /\ pc t' = TExited /\
                matched t' = matched t) /\
    (exists apps, task_out i s' = Clear :: apps ++ [Finished] /\
                  numbered (matched t) apps) /\
    (forall sched s'' id,
       exec sched s' = Some s'' -> length (tasks s'') = length (tasks s') ->
       lastResults s'' = matched t /\
       activation_of id s'' = option_list (matched t !! N.to_nat id)) /\
    forall sched s'' t'' id,
      exec sched s = Some s'' -> length (tasks s'') = length (tasks s) ->
      tasks s'' !! i = Some t'' -> has_published t'' = true ->
      matched t'' = matched t /\
      lastResults s'' = matched t /\
      activation_of id s'' = option_list (matched t !! N.to_nat id) /\
      (pc t'' = TExited ->
       exists apps, task_out i s'' = Clear :: apps ++ [Finished] /\
                    numbered (matched t) apps).
Proof.
  intros Hreach Ht Hpc. pose proof (Inv_reachable _ _ Hreach) as HI.
  assert (Hne : pc t <> TExited) by congruence.
  pose proof (inv_last s HI i (inv_alive s HI i t Ht Hne)) as Hlen.
  assert (Hlt : i < length (tasks s)) by lia.
  pose proof (inv_shape s HI i t Ht) as Hsh. rewrite Hpc in Hsh.
  destruct Hsh as (apps & Hout & Hnum).
  destruct (exec_after_return i s t (Some err) Ht Hpc)
    as (s' & Hex' & Hso & Hlo & Hres' & Hts).
  exists s'.
  assert (Ht' : tasks s' !! i = Some (set_pc TExited t)).
  { rewrite Hts. by apply list_lookup_insert_eq. }
  assert (Hlen' : length (tasks s') = S i).
  { by rewrite Hts, length_insert. }
  split; [done |]. split; [done |]. split; [done |].
  split; [done |]. split; [by eexists |]. split.
  { exists apps. split; [| done]. unfold task_out at 1.
    rewrite Hso, filter_task_snoc.
    fold (task_out i s). rewrite Hout. by case_decide. }
  split.
  { intros sched s'' id Hex Hlen''.
    pose proof (Inv_exec _ _ _ HI Hex') as HI'.
    pose proof (Inv_exec _ _ _ HI' Hex) as HI''.
    destruct (exited_stays_exec _ _ _ _ _ Hex Ht' eq_refl)
      as (t'' & Ht'' & Hpc'' & Hm'').
    assert (Hres : lastResults s'' = matched t).
    { rewrite (lastResults_of_last s'' i t'' HI'' Ht''); [done | lia |].
      unfold has_published. by rewrite Hpc''. }
    split; [done |]. unfold activation_of. by rewrite Hres. }
  intros sched s'' t'' id Hex Hlen'' Ht'' Hpub.
  pose proof (Inv_exec _ _ _ HI Hex) as HI''.
  assert (Hret : returned t = true) by (unfold returned; by rewrite Hpc).
  destruct (returned_stays_exec _ _ _ _ _ Hex Ht Hret)
    as (u & Hu & _ & Hmu).
  assert (u = t'') as -> by congruence.
  assert (Hres : lastResults s'' = matched t).
  { rewrite (lastResults_of_last s'' i t'' HI'' Ht''); [done | lia | done]. }
  split; [done |]. split; [done |].
  split; [unfold activation_of; by rewrite Hres |].
  intros Hpc''. pose proof (inv_shape s'' HI'' i t'' Ht'') as Hsh''.
  rewrite Hpc'', Hmu in Hsh''. exact Hsh''.
Qed.

(** ** The labels of a search come from its call of the callback *)


Lemma traced_step_main s s' : traced s -> step_main s = Some s' -> traced s'.
Proof.
  intros Htr Hstep i t Ht.
  destruct (step_main_tasks _ _ Hstep) as [E | [[c E] | [q E]]];
    rewrite E in Ht.
  - by apply Htr.
  - destruct (decide (c = i)) as [-> | Hne].
    + rewrite list_lookup_alter_eq in Ht.
      destruct (tasks s !! i) as [u |] eqn:Hu; [| done].
      simpl in Ht. injection Ht as <-. simpl. by apply (Htr i u).
    + rewrite list_lookup_alter_ne in Ht by done. by apply Htr.
  - apply lookup_snoc_inv in Ht as [Ht | [_ ->]]; [by apply Htr | done].
Qed.

Lemma traced_step_task j s s' : traced s -> step_task j s = Some s' -> traced s'.
Proof.
  intros Htr Hstep i t' Ht'.
  destruct (decide (i = j)) as [-> | Hne];
    [| rewrite (step_task_other _ _ _ _ Hstep Hne) in Ht'; by apply Htr].
  revert Hstep. unfold launcher.step_task.
  destruct (tasks s !! j) as [t |] eqn:Ht; [| done].
  assert (Hlt : j < length (tasks s)) by by eapply lookup_lt_Some.
  pose proof (Htr j t Ht) as Hj.
  destruct (pc t) as [| [[err |] | sr k | k | k] | | | |] eqn:Hpc; try done;
    [ | | | | | destruct (ctx_cancelled t) eqn:Hcan; [| done] | | | ];
    intros [= <-]; simpl in Ht';
    rewrite list_lookup_insert_eq in Ht' by done;
    injection Ht' as <-; simpl.
  - exists []. rewrite Hj. split; [done |]. by intros l Hl.
  - destruct Hj as (pre & Hm & Hl). exists pre. split; [done |].
    rewrite <- (app_nil_r pre). apply Hl. constructor.
  - destruct Hj as (pre & Hm & Hl). exists pre. split; [done |].
    rewrite <- (app_nil_r pre). apply Hl. constructor.
  - destruct Hj as (pre & Hm & Hl). exists (pre ++ [sr]). split.
    + by rewrite fmap_app, Hm.
    + intros l Hk. rewrite <- app_assoc. apply Hl. by constructor.
  - destruct Hj as (pre & Hm & Hl). exists pre. split; [done |].
    intros l Hk. apply Hl. by econstructor.
  - destruct Hj as (pre & Hm & Hl). exists pre. split; [done |].
    intros l Hk. apply Hl. by constructor.
  - done.
  - done.
  - done.
Qed.

Lemma traced_reachable input s : reachable input s -> traced s.
Proof.
  induction 1 as [| c s s' _ IH Hstep].
  - intros i t Ht. done.
  - destruct c; simpl in Hstep;
      eauto using traced_step_main, traced_step_task.
Qed.

(** The slice of a goroutine is the names of results its call of the
    callback can have emitted. *)
Lemma matched_emitted input s i t :
  reachable input s -> tasks s !! i = Some t ->
  exists pre, matched t = Name <$> pre /\ emits (OnSearch i (query t)) pre.
Proof.
  intros Hreach Ht. pose proof (traced_reachable _ _ Hreach i t Ht) as H.
  destruct (pc t).
  - exists []. split; [done | constructor].
  - destruct H as (pre & Hm & Hl). exists pre. split; [done |].
    rewrite <- (app_nil_r pre). apply Hl. constructor.
  - done.
  - done.
  - done.
  - done.
Qed.

(** The [Append] lines of a search are numbered along its slice. *)
Lemma appends_numbered input s i t :
  reachable input s -> tasks s !! i = Some t ->
  numbered (matched t) (appends (task_out i s)).
Proof.
  intros Hreach Ht. pose proof (Inv_reachable _ _ Hreach) as HI.
  pose proof (inv_shape s HI i t Ht) as Hsh.
  assert (Hf : forall apps, numbered (matched t) apps -> appends apps = apps).
  { intros apps [_ Hk].
    assert (Hall : Forall (fun r => r <> Clear /\ r <> Finished) apps).
    { apply Forall_lookup_2. intros k r Hr.
      destruct (Hk k r Hr) as (? & ? & ? & _ & ->). done. }
    clear Hk. unfold appends.
    induction Hall as [| r l Hr _ IH]; [done |].
    rewrite filter_cons. case_decide; [by f_equal | done]. }
  assert (Hrun : forall apps, numbered (matched t) apps ->
            appends (Clear :: apps) = apps).
  { intros apps Hnum. rewrite <- (Hf apps Hnum) at 2. unfold appends.
    rewrite filter_cons. case_decide as Hc; [by destruct Hc | done]. }
  assert (Hend : forall apps, numbered (matched t) apps ->
            appends (Clear :: apps ++ [Finished]) = apps).
  { intros apps Hnum. rewrite <- (Hf apps Hnum) at 2. unfold appends.
    rewrite filter_cons. case_decide as Hc; [by destruct Hc |].
    rewrite filter_app, filter_cons, filter_nil.
    case_decide as Hc'; [by destruct Hc' |]. by rewrite app_nil_r. }
  destruct (pc t); simpl in Hsh.
  - destruct Hsh as [-> ->]. apply numbered_nil.
  - destruct Hsh as (apps & -> & Hnum). by rewrite Hrun.
  - destruct Hsh as (apps & -> & Hnum). by rewrite Hrun.
  - destruct Hsh as (apps & -> & Hnum). by rewrite Hrun.
  - destruct Hsh as (apps & -> & Hnum). by rewrite Hend.
  - destruct Hsh as (apps & -> & Hnum). by rewrite Hend.
Qed.

(** [lastResults] is empty or the slice of a goroutine. *)
Lemma lastResults_of_some input s :
  reachable input s ->
  lastResults s = [] \/
  exists i t, tasks s !! i = Some t /\ lastResults s = matched t.
Proof.
  intros Hreach. pose proof (Inv_reachable _ _ Hreach) as HI.
  rewrite (inv_results s HI). unfold published.
  destruct (last _) as [t |] eqn:El; [| by left].
  right. apply last_Some_elem_of, list_elem_of_filter in El as [_ El].
  apply list_elem_of_lookup in El as [i Hi]. by exists i, t.
Qed.

End EngineFacts.

(** ** What a callback can emit *)

Lemma emits_Return_inv err l : emits (Return err) l -> l = [].
Proof. by inversion 1. Qed.

Lemma emits_Emit_inv sr k l :
  emits (Emit sr k) l -> l = [] \/ exists l', l = sr :: l' /\ emits k l'.
Proof. inversion 1; subst; eauto. Qed.

Lemma emits_CtxErr_inv k l :
  emits (CtxErr k) l -> l = [] \/ exists c, emits (k c) l.
Proof. inversion 1; subst; eauto. Qed.

Lemma emits_CtxDone_inv k l : emits (CtxDone k) l -> l = [] \/ emits k l.
Proof. inversion 1; subst; eauto. Qed.

(** ** The plugin's search callback *)

Section PluginFacts.

Variable ToLower : string -> string.

Local Abbreviation scan := (gopass.scan).
Local Abbreviation result_of :=
  (fun e : string * string => gopass.password_result e.2).

Lemma scan_cons lowerQuery lower original es count :
  scan lowerQuery ((lower, original) :: es) count =
  if String.eqb lower lowerQuery then scan lowerQuery es count
  else
    CtxErr (fun cancelled =>
      if cancelled then
        CtxErr (fun cancelled' =>
          Return (if cancelled' then Some gopass.Canceled else None))
      else if String.eqb lowerQuery EmptyString
              || strings.Contains lower lowerQuery then
        Emit (gopass.password_result original)
          (if gopass.maxResults <=? S count then Return None
           else scan lowerQuery es (S count))
      else scan lowerQuery es count).
Proof. reflexivity. Qed.

(** What the range loop can emit: the results of pairs it ranges over, in
    their order, none with the key of the exact match, each matching the
    query, and at most [maxResults] counting from [count]. *)
Lemma scan_emits lowerQuery es : forall count l,
  emits (scan lowerQuery es count) l ->
  exists es',
    sublist es' es /\ l = result_of <$> es' /\
    Forall (fun e => e.1 <> lowerQuery /\
                     (lowerQuery = EmptyString \/
                      strings.Contains e.1 lowerQuery = true)) es' /\
    (count < gopass.maxResults ->
     length es' + count <= gopass.maxResults).
Proof.
  assert (Hnil : forall (es0 : list (string * string)) count,
    exists es',
      sublist es' es0 /\ [] = result_of <$> es' /\
      Forall (fun e => e.1 <> lowerQuery /\
                       (lowerQuery = EmptyString \/
                        strings.Contains e.1 lowerQuery = true)) es' /\
      (count < gopass.maxResults ->
       length es' + count <= gopass.maxResults)).
  { intros es0 count. exists []. split; [apply sublist_nil_l |].
    split; [done |]. split; [done |]. simpl. lia. }
  induction es as [| [lower original] es IH]; intros count l H.
  - apply emits_Return_inv in H as ->. apply Hnil.
  - rewrite scan_cons in H.
    destruct (String.eqb_spec lower lowerQuery) as [Heq | Hne].
    { destruct (IH _ _ H) as (es' & Hsub & -> & Hall & Hlen).
      exists es'. split; [by apply sublist_cons | done]. }
    apply emits_CtxErr_inv in H as [-> | [[] H]]; [apply Hnil | |].
    { apply emits_CtxErr_inv in H as [-> | [c H]]; [apply Hnil |].
      apply emits_Return_inv in H as ->. apply Hnil. }
    destruct (_ || _) eqn:Hmatch.
    + apply emits_Emit_inv in H as [-> | (l' & -> & H)]; [apply Hnil |].
      assert (Hthis : lower <> lowerQuery /\
                (lowerQuery = EmptyString \/
                 strings.Contains lower lowerQuery = true)).
      { split; [done |]. apply orb_true_iff in Hmatch as [Hm | Hm]; [| auto].
        left. by apply String.eqb_eq. }
      destruct (Nat.leb_spec gopass.maxResults (S count)) as [Hfull | Hroom].
      * apply emits_Return_inv in H as ->.
        exists [(lower, original)]. split.
        { apply sublist_skip, sublist_nil_l. }
        split; [done |]. split; [by constructor |]. simpl. lia.
      * destruct (IH _ _ H) as (es' & Hsub & -> & Hall & Hlen).
        exists ((lower, original) :: es'). split; [by apply sublist_skip |].
        split; [done |]. split; [by constructor |]. simpl. lia.
    + destruct (IH _ _ H) as (es' & Hsub & -> & Hall & Hlen).
      exists es'. split; [by apply sublist_cons | done].
Qed.

Variable allEntries : gmap string string.

Local Abbreviation OnSearch := (gopass.OnSearch ToLower allEntries).

(** What a call of [OnSearch] can emit, when its range goes over the pairs
    of the map: the results of pairs of the map, no key twice, the exact
    match (if there is one) first and nowhere else, and at most
    [maxResults] after it. *)
Lemma OnSearch_emits range_order q l :
  range_order ≡ₚ map_to_list allEntries ->
  emits (OnSearch range_order q) l ->
  let lowerQuery := ToLower (strings.TrimPrefix q "gp ") in
  exists es,
    l = result_of <$> es /\
    NoDup es.*1 /\
    (forall e, e ∈ es -> allEntries !! e.1 = Some e.2) /\
    (forall e, e ∈ es -> e.1 <> lowerQuery ->
       lowerQuery = EmptyString \/
       strings.Contains e.1 lowerQuery = true) /\
    length es <= S gopass.maxResults /\
    match allEntries !! lowerQuery with
    | Some exactMatch =>
        es = [] \/
        exists es', es = (lowerQuery, exactMatch) :: es' /\
                    forall e, e ∈ es' -> e.1 <> lowerQuery
    | None => forall e, e ∈ es -> e.1 <> lowerQuery
    end.
Proof.
  intros Hperm H lq. unfold gopass.OnSearch in H. fold lq in H.
  assert (Hnd : NoDup range_order.*1).
  { rewrite Hperm. apply NoDup_fst_map_to_list. }
  assert (Hin : forall e, e ∈ range_order -> allEntries !! e.1 = Some e.2).
  { intros [k v] He. rewrite Hperm in He. by apply elem_of_map_to_list. }
  assert (Hscan : forall l0, emits (scan lq range_order 0) l0 ->
    exists es', l0 = result_of <$> es' /\ NoDup es'.*1 /\
      (forall e, e ∈ es' -> allEntries !! e.1 = Some e.2) /\
      length es' <= gopass.maxResults /\
      forall e, e ∈ es' ->
        e.1 <> lq /\
        (lq = EmptyString \/ strings.Contains e.1 lq = true)).
  { intros l0 H0.
    destruct (scan_emits _ _ _ _ H0) as (es' & Hsub & -> & Hall & Hlen).
    exists es'. split; [done |]. split.
    { eapply sublist_NoDup; [exact Hnd | by apply fmap_sublist]. }
    split.
    { intros e He. apply Hin. eapply elem_of_sublist; eauto. }
    split; [unfold gopass.maxResults in *; lia |].
    intros e He. rewrite Forall_forall in Hall. by apply Hall. }
  destruct (allEntries !! lq) as [exactMatch |] eqn:Hex.
  - apply emits_Emit_inv in H as [-> | (l' & -> & H)].
    + exists []. split; [done |]. split; [constructor |].
      split; [by intros e He%elem_of_nil |].
      split; [by intros e He%elem_of_nil |].
      split; [simpl; lia | by left].
    + destruct (Hscan _ H) as (es' & -> & Hnd' & Hin' & Hlen & Hne).
      exists ((lq, exactMatch) :: es'). split; [done |]. split.
      { simpl. apply NoDup_cons. split; [| done].
        intros Hk. apply list_elem_of_fmap in Hk as (e & He1 & He).
        by apply (Hne e He). }
      split.
      { intros e He. apply elem_of_cons in He as [-> | He]; [done |].
        by apply Hin'. }
      split.
      { intros e He Hk. apply elem_of_cons in He as [-> | He]; [done |].
        by apply Hne. }
      split; [simpl; lia |]. right. exists es'. split; [done |].
      intros e He. by apply Hne.
  - destruct (Hscan _ H) as (es' & -> & Hnd' & Hin' & Hlen & Hne).
    exists es'. split; [done |]. split; [done |]. split; [done |].
    split; [intros e He _; by apply Hne |].
    split; [lia |]. intros e He. by apply Hne.
Qed.

End PluginFacts.

(** ** The plugin under the engine *)

(** A bound on what every call of the callback can emit bounds the
    [Append] lines of every search and [lastResults]. *)
Lemma results_bounded Unmarshal OnSearch OnActivate (bound : nat) input s :
  (forall n q l, emits (OnSearch n q) l -> length l <= bound) ->
  reachable Unmarshal OnSearch OnActivate input s ->
  (forall i t, tasks s !! i = Some t ->
     length (appends (task_out i s)) <= bound /\
     length (matched t) <= bound) /\
  length (lastResults s) <= bound.
Proof.
  intros Hb Hreach.
  assert (Hm : forall i t, tasks s !! i = Some t -> length (matched t) <= bound).
  { intros i t Ht.
    destruct (matched_emitted _ _ _ _ _ _ _ Hreach Ht) as (pre & -> & Hpre).
    rewrite length_fmap. eauto. }
  split.
  - intros i t Ht. split; [| eauto].
    destruct (appends_numbered _ _ _ _ _ _ _ Hreach Ht) as [-> _]. eauto.
  - destruct (lastResults_of_some _ _ _ _ _ Hreach) as [-> | (i & t & Ht & ->)].
    + simpl. lia.
    + eauto.
Qed.

Section PluginEngine.

Variable Unmarshal : string -> option request.
Variable OnActivate : nat -> string -> option string.
Variable ToLower : string -> string.

Lemma search_loop_cons lowerQuery e es matched :
  legacy.search_loop lowerQuery (e :: es) matched =
  CtxErr (fun cancelled =>
    if cancelled then Return None
    else if String.eqb lowerQuery EmptyString
            || strings.Contains (legacy.lower e) lowerQuery then
      Emit {| Name := legacy.original e;
              Description := "Copy password to clipboard";
              IconName := legacy.passwordIcon |}
        (if legacy.maxResults <=? length (matched ++ [legacy.original e])
         then Return None
         else legacy.search_loop lowerQuery es (matched ++ [legacy.original e]))
    else legacy.search_loop lowerQuery es matched).
Proof. reflexivity. Qed.

Lemma legacy_loop_emits lowerQuery es : forall matched l,
  emits (legacy.search_loop lowerQuery es matched) l ->
  length matched < legacy.maxResults ->
  length l + length matched <= legacy.maxResults.
Proof.
  induction es as [| e es IH]; intros matched l H Hlt.
  - apply emits_Return_inv in H as ->. simpl. lia.
  - rewrite search_loop_cons in H.
    apply emits_CtxErr_inv in H as [-> | [[] H]]; [simpl; lia | |].
    { apply emits_Return_inv in H as ->. simpl. lia. }
    destruct (_ || _).
    + apply emits_Emit_inv in H as [-> | (l' & -> & H)]; [simpl; lia |].
      destruct (Nat.leb_spec legacy.maxResults
                  (length (matched ++ [legacy.original e]))) as [Hfull | Hroom].
      * apply emits_Return_inv in H as ->. simpl. lia.
      * apply IH in H; [| done]. rewrite length_app in *. simpl in *. lia.
    + by apply IH.
Qed.

Lemma OnSearch_bound allEntries range_order q l :
  emits (gopass.OnSearch ToLower allEntries range_order q) l ->
  length l <= S gopass.maxResults.
Proof.
  unfold gopass.OnSearch. intros H.
  assert (Hscan : forall lq l0,
            emits (gopass.scan lq range_order 0) l0 ->
            length l0 <= gopass.maxResults).
  { intros lq l0 H0.
    destruct (scan_emits _ _ _ _ H0) as (es' & _ & -> & _ & Hlen).
    rewrite length_fmap. unfold gopass.maxResults in *. lia. }
  destruct (allEntries !! _).
  - apply emits_Emit_inv in H as [-> | (l' & -> & H)]; [simpl; lia |].
    apply Hscan in H. simpl. lia.
  - apply Hscan in H. lia.
Qed.

(** C8. The plugin's range loop appends at most [maxResults] = 19 entries,
    after at most one exact match: under the engine, a search of the plugin
    writes at most 20 [Append] lines and [lastResults] never holds more
    than 20 labels.  The search written in place in the earlier [main.go]
    stops at 19 in all. *)
Theorem at_most_twenty_results
    (allEntries : gmap string string)
    (range_order : nat -> list (string * string))
    (legacyEntries : list legacy.entry) input s input' s' :
  reachable Unmarshal
    (fun n q => gopass.OnSearch ToLower allEntries (range_order n) q)
    OnActivate input s ->
  reachable Unmarshal (fun _ q => legacy.search ToLower legacyEntries q)
    OnActivate input' s' ->
  gopass.maxResults = 19 /\
  (forall lq es l, emits (gopass.scan lq es 0) l -> length l <= 19) /\
  (forall i t, tasks s !! i = Some t ->
     length (appends (task_out i s)) <= 20 /\ length (matched t) <= 20) /\
  length (lastResults s) <= 20 /\
  (forall i t, tasks s' !! i = Some t ->
     length (appends (task_out i s')) <= 19 /\ length (matched t) <= 19) /\
  length (lastResults s') <= 19.
Proof.
  intros Hreach Hreach'. split; [done |]. split.
  { intros lq es l H.
    destruct (scan_emits _ _ _ _ H) as (es' & _ & -> & _ & Hlen).
    rewrite length_fmap. unfold gopass.maxResults in *. lia. }
  assert (H20 : forall n q l,
    emits (gopass.OnSearch ToLower allEntries (range_order n) q) l ->
    length l <= 20).
  { intros n q l H. by apply OnSearch_bound in H. }
  assert (H19 : forall (n : nat) q l,
    emits (legacy.search ToLower legacyEntries q) l -> length l <= 19).
  { intros n q l H. unfold legacy.search in H.
    apply legacy_loop_emits in H; simpl in *;
      unfold legacy.maxResults in *; lia. }
  destruct (results_bounded _ _ _ 20 _ _ H20 Hreach) as [Ha Hb].
  destruct (results_bounded _ _ _ 19 _ _ H19 Hreach') as [Ha' Hb'].
  done.
Qed.

(** [loadEntries] files every line under its lower-case form. *)
Lemma loadEntries_lower out k v :
  gopass.loadEntries ToLower out !! k = Some v -> ToLower v = k.
Proof.
  unfold gopass.loadEntries. destruct out as [out |]; [| done].
  generalize (gopass.Split (strings.TrimSpace out) gopass.newline).
  intros lines.
  assert (Hgen : forall (m : gmap string string),
    (forall k v, m !! k = Some v -> ToLower v = k) ->
    forall k v,
      foldl (fun entries line =>
               if String.eqb line EmptyString then entries
               else <[ToLower line := line]> entries) m lines !! k = Some v ->
      ToLower v = k).
  { induction lines as [| line lines IH]; intros m Hm k' v'; simpl; [eauto |].
    apply IH. destruct (String.eqb line EmptyString); [done |].
    intros k0 v0 H0. apply lookup_insert_Some in H0 as [[<- <-] | [_ H0]];
      eauto. }
  by apply Hgen.
Qed.

(** C9. The plugin's callback matches against the query without a leading
    ["gp "] and in lower case.  The labels of a search are the values of
    pairs of the map, no pair twice, and each but an exact match has a key
    that contains the query.  When the map has the lower-case query as a
    key, the callback's first act is to append the value under it, which so
    is the first label (the [Append] with id 0, whose name is that value as
    [json.Marshal] writes it), and no later label comes from that key.  On a map as [loadEntries] builds it, no label occurs
    twice. *)
Theorem exact_match_first_no_repeat
    (allEntries : gmap string string)
    (range_order : nat -> list (string * string)) input s i t :
  (forall n, range_order n ≡ₚ map_to_list allEntries) ->
  reachable Unmarshal
    (fun n q => gopass.OnSearch ToLower allEntries (range_order n) q)
    OnActivate input s ->
  tasks s !! i = Some t ->
  let lowerQuery := ToLower (strings.TrimPrefix (query t) "gp ") in
  exists es : list (string * string),
    matched t = es.*2 /\
    NoDup es.*1 /\
    (forall e, e ∈ es -> allEntries !! e.1 = Some e.2) /\
    match allEntries !! lowerQuery with
    | Some exactMatch =>
        (exists k,
           gopass.OnSearch ToLower allEntries (range_order i) (query t)
           = Emit (gopass.password_result exactMatch) k) /\
        (es = [] \/
         (exists es', es = (lowerQuery, exactMatch) :: es' /\
                      forall e, e ∈ es' -> e.1 <> lowerQuery) /\
         exists d ic,
           appends (task_out i s) !! 0
           = Some (Append 0 (json.valid_utf8 exactMatch) d ic))
    | None => forall e, e ∈ es -> e.1 <> lowerQuery
    end /\
    (forall e, e ∈ es -> e.1 <> lowerQuery ->
       lowerQuery = EmptyString \/
       strings.Contains e.1 lowerQuery = true) /\
    ((forall k v, allEntries !! k = Some v -> ToLower v = k) ->
     NoDup (matched t)).
Proof.
  intros Hperm Hreach Ht lq.
  destruct (matched_emitted _ _ _ _ _ _ _ Hreach Ht) as (pre & Hm & Hpre).
  simpl in Hpre.
  destruct (OnSearch_emits _ _ _ _ _ (Hperm i) Hpre)
    as (es & -> & Hnd & Hin & Hmatch & _ & Hex).
  fold lq in Hex.
  assert (Hm2 : matched t = es.*2).
  { rewrite Hm, <- list_fmap_compose. done. }
  exists es. split; [done |]. split; [done |]. split; [done |]. split.
  { destruct (allEntries !! lq) as [exactMatch |] eqn:Hlq; [| done].
    split.
    { unfold gopass.OnSearch. fold lq. rewrite Hlq. by eexists. }
    destruct Hex as [-> | (es' & -> & Hne)]; [by left |].
    right. split; [by exists es' |].
    destruct (appends_numbered _ _ _ _ _ _ _ Hreach Ht) as [Hlen Hk].
    rewrite Hm2 in Hlen. simpl in Hlen.
    destruct (lookup_lt_is_Some_2 (appends (task_out i s)) 0) as [r Hr];
      [lia |].
    destruct (Hk 0 r Hr) as (name & d & ic & Hname & ->).
    rewrite Hm2 in Hname. simpl in Hname. injection Hname as <-.
    by exists d, ic. }
  split; [done |].
  intros Hwf. rewrite Hm2. apply NoDup_fmap_2_strong.
  - intros [k1 v1] [k2 v2] H1 H2. simpl. intros <-.
    apply Hin in H1, H2. simpl in *. apply Hwf in H1, H2. congruence.
  - by eapply NoDup_fmap_1.
Qed.

End PluginEngine.

(** ** [Run] on an invalid [Config] *)

Lemma halted_stuck Unmarshal OnSearch OnActivate s c :
  main s = MReturned -> tasks s = [] ->
  step Unmarshal OnSearch OnActivate c s = None.
Proof.
  intros Hm Hts. destruct c as [| i]; simpl.
  - unfold step_main. by rewrite Hm.
  - unfold step_task. by rewrite Hts.
Qed.

(** C10. [LoadConfig] on a nil [Config] returns an error.  [Run] on a
    [Config] without [OnSearch] or without [OnActivate]: [LoadConfig]
    returns an error, [Run] logs it (to the logger of the [Config], if it
    has one) and returns; it has written nothing, every line of the input is
    still unread, and nothing moves afterwards. *)
Theorem invalid_config_returns Unmarshal os_stdin cfg :
  OnSearch cfg = None \/ OnActivate cfg = None ->
  (exists l, LoadConfig None = (l, None, None, Some "config is nil"%string)) /\
  exists err,
    (LoadConfig (Some cfg)).2 = Some err /\
    stdout (run_state (Run os_stdin cfg)) = [] /\
    requests (run_state (Run os_stdin cfg)) = lines_of os_stdin (Stdin cfg) /\
    main (run_state (Run os_stdin cfg)) = MReturned /\
    tasks (run_state (Run os_stdin cfg)) = [] /\
    activated (run_state (Run os_stdin cfg)) = [] /\
    logged (run_state (Run os_stdin cfg)) = [LogInvalidConfig err] /\
    run_logger (Run os_stdin cfg) = default Discard (Logger cfg) /\
    forall s, Run_reachable Unmarshal os_stdin cfg s ->
              s = run_state (Run os_stdin cfg).
Proof.
  intros Hnil. split; [by eexists |].
  assert (Hrun : exists err,
    LoadConfig (Some cfg)
    = (default Discard (Logger cfg), None, None, Some err)).
  { unfold LoadConfig. destruct (Logger cfg), (OnSearch cfg) eqn:Hs; simpl;
      try (by eexists); destruct (OnActivate cfg) eqn:Ha;
      try (by eexists); by destruct Hnil. }
  destruct Hrun as [err Hrun]. exists err.
  unfold Run_reachable, Run. rewrite Hrun. simpl.
  repeat (split; [done |]).
  induction 1 as [| c s s' _ IH Hstep]; [done |].
  subst s. by rewrite halted_stuck in Hstep.
Qed.


(** ** The theorems on sample runs *)

Lemma run_reachable OnSearch sched input :
  reachable demo.Unmarshal OnSearch demo.OnActivate input
    (demo.run OnSearch sched input).
Proof.
  unfold demo.run.
  destruct (exec _ _ _ sched (init input)) as [s |] eqn:E.
  - eapply exec_reachable_from; [apply reach_init | exact E].
  - apply reach_init.
Qed.

(** *** The traces of the package's tests, each under one schedule *)

Example trace_activate_second_result :
  let s := demo.run demo.emails
             ([SchedMain] ++ repeat (SchedTask 0) 7
              ++ [SchedMain; SchedMain; SchedMain])
             [demo.search_line "gp email"; demo.activate_line "1";
              quoted "Exit"] in
  wire s = [Clear; Append 0 "Email/personal" "personal email" None;
            Append 1 "Email/work" "work email" None; Finished; Close;
            Finished] /\
  activated s = ["Email/work"%string] /\ main s = MReturned.
Proof. by vm_compute. Qed.

Example trace_consecutive_searches :
  let s := demo.run demo.two_results
             ([SchedMain] ++ repeat (SchedTask 0) 7 ++ [SchedMain; SchedMain]
              ++ repeat (SchedTask 1) 7 ++ [SchedMain; SchedMain])
             [demo.search_line "first"; demo.search_line "second";
              quoted "Exit"] in
  wire s = [Clear;
            Append 0 "a/first" "a/first" (Some "dialog-password"%string);
            Append 1 "b/first" "b/first" (Some "dialog-password"%string);
            Finished; Clear;
            Append 0 "a/second" "a/second" (Some "dialog-password"%string);
            Append 1 "b/second" "b/second" (Some "dialog-password"%string);
            Finished; Finished] /\
  main s = MReturned.
Proof. by vm_compute. Qed.

Example trace_interrupt_without_search :
  let s := demo.run demo.two_results [SchedMain; SchedMain]
             [quoted "Interrupt"; quoted "Exit"] in
  wire s = [Finished; Finished] /\ tasks s = [] /\ activated s = [] /\
  main s = MReturned.
Proof. by vm_compute. Qed.

Example trace_activate_out_of_range :
  let s := demo.run demo.two_results
             ([SchedMain] ++ repeat (SchedTask 0) 7
              ++ [SchedMain; SchedMain; SchedMain])
             [demo.search_line "q"; demo.activate_line "99";
              quoted "Exit"] in
  wire s = [Clear; Append 0 "a/q" "a/q" (Some "dialog-password"%string);
            Append 1 "b/q" "b/q" (Some "dialog-password"%string);
            Finished; Close; Finished] /\
  activated s = [] /\ LogOutOfRange 99 2 ∈ logged s /\ main s = MReturned.
Proof. vm_compute. repeat split. set_solver. Qed.

Example trace_unhandled_and_malformed :
  let s := demo.run demo.two_results [SchedMain; SchedMain; SchedMain]
             [demo.complete_line "0"; "not valid json at all"%string;
              quoted "Exit"] in
  wire s = [Finished] /\ tasks s = [] /\ activated s = [] /\
  logged s = [LogReceived (demo.complete_line "0");
              LogUnhandled (demo.complete_line "0");
              LogReceived "not valid json at all";
              LogParseError "not valid json at all";
              LogReceived (quoted "Exit"); LogExiting; LogReply Finished] /\
  main s = MReturned.
Proof. by vm_compute. Qed.

(** The search that waits for its cancellation, interrupted once it has
    started, and interrupted before its goroutine has taken a step. *)
Example trace_interrupt_cancels :
  let input := [demo.search_line "slow-query"; quoted "Interrupt";
                quoted "Exit"] in
  let s1 := demo.run demo.blocking
              ([SchedMain; SchedTask 0; SchedMain] ++ repeat (SchedTask 0) 6
               ++ [SchedMain; SchedMain]) input in
  let s2 := demo.run demo.blocking
              ([SchedMain; SchedMain] ++ repeat (SchedTask 0) 7
               ++ [SchedMain; SchedMain]) input in
  wire s1 = [Clear; Finished; Finished] /\ main s1 = MReturned /\
  wire s2 = [Clear; Finished; Finished] /\ main s2 = MReturned /\
  LogSearchFailed gopass.Canceled ∈ logged s1.
Proof. vm_compute. repeat split. set_solver. Qed.

(** An [Interrupt] after the search has ended by itself, its goroutine not
    yet joined: the loop joins and writes nothing. *)
Example trace_interrupt_after_end :
  let s := demo.run demo.two_results
             ([SchedMain] ++ repeat (SchedTask 0) 7
              ++ [SchedMain; SchedMain; SchedMain])
             [demo.search_line "q"; quoted "Interrupt"; quoted "Exit"] in
  wire s = [Clear; Append 0 "a/q" "a/q" (Some "dialog-password"%string);
            Append 1 "b/q" "b/q" (Some "dialog-password"%string);
            Finished; Finished] /\
  main s = MReturned.
Proof. by vm_compute. Qed.

(** An [Interrupt] that arrives after the search has ended by itself: the
    one [Finished] of the output is the search's own, written before the
    [Interrupt] was read, and nothing is written in answer. *)
Lemma interrupt_after_search_unanswered_witness :
  let input := [demo.search_line "q"; quoted "Interrupt"; quoted "Exit"] in
  let line := quoted "Interrupt" in
  let rest := [quoted "Exit"] in
  let s := demo.run demo.two_results
             ([SchedMain] ++ repeat (SchedTask 0) 7) input in
  let i := 0 in
  let t := {| query := "q"; ctx_cancelled := false;
              matched := ["a/q"; "b/q"]%string; pc := TExited |} in
  (reachable demo.Unmarshal demo.two_results demo.OnActivate input s /\
   main s = MRecv /\ requests s = line :: rest /\
   decode demo.Unmarshal line = CmdInterrupt /\
   searchCancel s = Some i /\ tasks s !! i = Some t /\ pc t = TExited /\
   wire s = [Clear; Append 0 "a/q" "a/q" (Some "dialog-password"%string);
             Append 1 "b/q" "b/q" (Some "dialog-password"%string);
             Finished]) /\
  (exists s',
     exec demo.Unmarshal demo.two_results demo.OnActivate
       [SchedMain; SchedMain] s = Some s' /\
     requests s' = rest /\ main s' = MRecv /\ stdout s' = stdout s) /\
  forall sched s',
    exec demo.Unmarshal demo.two_results demo.OnActivate sched s = Some s' ->
    requests s' = rest ->
    (forall k, main s' <> MJoin k) ->
    stdout s' = stdout s /\
    count_reply Finished (wire s') = count_reply Finished (wire s).
Proof.
  intros input line rest s i t.
  split; [split; [apply run_reachable | by vm_compute] |].
  apply (interrupt_after_search_unanswered demo.Unmarshal demo.two_results
           demo.OnActivate input s line rest i t);
    [apply run_reachable | reflexivity..].
Defined.



(** The first of two searches, after both. *)
Lemma search_reply_order_witness :
  let input := [demo.search_line "first"; demo.search_line "second";
                quoted "Exit"] in
  let s := demo.run demo.two_results
             ([SchedMain] ++ repeat (SchedTask 0) 7
              ++ [SchedMain; SchedMain] ++ repeat (SchedTask 1) 7) input in
  let i := 0 in
  let t := {| query := "first"; ctx_cancelled := true;
              matched := ["a/first"; "b/first"]%string; pc := TExited |} in
  (reachable demo.Unmarshal demo.two_results demo.OnActivate input s /\
   tasks s !! i = Some t) /\
  (exists apps,
     numbered (matched t) apps /\
     task_out i s = Clear :: apps ++ [Finished]) /\
  (ctx_cancelled t = true ->
   runs_out demo.Unmarshal demo.two_results demo.OnActivate i s) /\
  (forall err, pc t = TSearch (Return err) ->
   runs_out demo.Unmarshal demo.two_results demo.OnActivate i s) /\
  (pc t = TExited ->
   head (task_out i s) = Some Clear /\
   last (task_out i s) = Some Finished /\
   count_reply Finished (task_out i s) = 1 /\
   count_reply Clear (task_out i s) = 1).
Proof.
  intros input s i t.
  split; [split; [apply run_reachable | reflexivity] |].
  apply (search_reply_order demo.Unmarshal demo.two_results demo.OnActivate
           input s i t).
  - apply run_reachable.
  - reflexivity.
Defined.


(** An [Activate] of the second of two results that arrives while the
    search is running, one result written: the table it is looked up in is
    the one that the cancelled search leaves. *)
Lemma activate_closes_once_witness :
  let input := [demo.search_line "q"; demo.activate_line "1";
                quoted "Exit"] in
  let s := demo.run demo.two_results
             ([SchedMain] ++ repeat (SchedTask 0) 2) input in
  let line := demo.activate_line "1" in
  let rest := [quoted "Exit"] in
  let id := 1%N in
  (reachable demo.Unmarshal demo.two_results demo.OnActivate input s /\
   main s = MRecv /\ requests s = line :: rest /\
   decode demo.Unmarshal line = CmdActivate id /\
   searchCancel s = Some 0 /\
   (exists t, tasks s !! 0 = Some t /\ alive t = true /\
              matched t = ["a/q"]%string) /\
   lastResults s = []) /\
  (exists s1,
     step demo.Unmarshal demo.two_results demo.OnActivate SchedMain s
     = Some s1 /\
     stdout s1 = stdout s /\ activated s1 = activated s /\
     main s1 = MJoin (KActivate id) /\ requests s1 = rest) /\
  (forall s2 s3,
     main s2 = MJoin (KActivate id) ->
     step demo.Unmarshal demo.two_results demo.OnActivate SchedMain s2
     = Some s3 ->
     stdout s3 = stdout s2 ++ [(OMain, Close)] /\
     activated s3 = activated s2 ++ activation_of id s2 /\
     main s3 = MRecv /\ requests s3 = requests s2) /\
  (exists sched s',
     exec demo.Unmarshal demo.two_results demo.OnActivate sched s = Some s' /\
     requests s' = rest /\ main s' = MRecv) /\
  forall sched s',
    exec demo.Unmarshal demo.two_results demo.OnActivate sched s = Some s' ->
    requests s' = rest ->
    (forall k, main s' <> MJoin k) ->
    main_out s' = main_out s ++ [Close] /\
    count_reply Close (wire s') = S (count_reply Close (wire s)) /\
    activated s' = activated s ++ activation_of id s' /\
    all_exited s'.
Proof.
  intros input s line rest id.
  split.
  { split; [apply run_reachable |]. do 4 (split; [by vm_compute |]).
    split; [| by vm_compute]. eexists. by vm_compute. }
  apply (activate_closes_once demo.Unmarshal demo.two_results demo.OnActivate
           input s line rest id);
    [apply run_reachable | reflexivity | reflexivity | reflexivity].
Defined.

(** What the run above comes to: the callback is called with the second
    label of the cancelled search. *)
Example trace_activate_during_search :
  let s := demo.run demo.two_results
             ([SchedMain] ++ repeat (SchedTask 0) 2 ++ [SchedMain]
              ++ repeat (SchedTask 0) 5 ++ [SchedMain])
             [demo.search_line "q"; demo.activate_line "1"; quoted "Exit"] in
  wire s = [Clear; Append 0 "a/q" "a/q" (Some "dialog-password"%string);
            Append 1 "b/q" "b/q" (Some "dialog-password"%string);
            Finished; Close] /\
  activated s = ["b/q"]%string /\ requests s = [quoted "Exit"].
Proof. by vm_compute. Qed.

(** A callback that fails after one result. *)
Lemma provider_failure_publishes_witness :
  let input := [demo.search_line "q"; demo.activate_line "0"] in
  let s := demo.run demo.failing [SchedMain; SchedTask 0; SchedTask 0] input in
  let i := 0 in
  let err := "backend down"%string in
  let t := {| query := "q"; ctx_cancelled := false;
              matched := ["partial"]%string;
              pc := TSearch (Return (Some err)) |} in
  (reachable demo.Unmarshal demo.failing demo.OnActivate input s /\
   tasks s !! i = Some t /\ pc t = TSearch (Return (Some err))) /\
  exists s',
    exec demo.Unmarshal demo.failing demo.OnActivate
      (repeat (SchedTask i) 4) s = Some s' /\
    stdout s' = stdout s ++ [(OTask i, Finished)] /\
    logged s' = logged s ++ [LogSearchFailed err; LogReply Finished] /\
    lastResults s' = matched t /\
    (exists t', tasks s' !! i = Some t' /\ pc t' = TExited /\
                matched t' = matched t) /\
    (exists apps, task_out i s' = Clear :: apps ++ [Finished] /\
                  numbered (matched t) apps) /\
    (forall sched s'' id,
       exec demo.Unmarshal demo.failing demo.OnActivate sched s' = Some s'' ->
       length (tasks s'') = length (tasks s') ->
       lastResults s'' = matched t /\
       activation_of id s'' = option_list (matched t !! N.to_nat id)) /\
    forall sched s'' t'' id,
      exec demo.Unmarshal demo.failing demo.OnActivate sched s = Some s'' ->
      length (tasks s'') = length (tasks s) ->
      tasks s'' !! i = Some t'' -> has_published t'' = true ->
      matched t'' = matched t /\
      lastResults s'' = matched t /\
      activation_of id s'' = option_list (matched t !! N.to_nat id) /\
      (pc t'' = TExited ->
       exists apps, task_out i s'' = Clear :: apps ++ [Finished] /\
                    numbered (matched t) apps).
Proof.
  intros input s i err t.
  split; [split; [apply run_reachable | by vm_compute] |].
  apply (provider_failure_publishes demo.Unmarshal demo.failing
           demo.OnActivate input s i t err).
  - apply run_reachable.
  - reflexivity.
  - reflexivity.
Defined.


Lemma at_most_twenty_results_witness :
  let allEntries := gopass.loadEntries demo.ToLower sample_output in
  let range_order := fun _ : nat => map_to_list allEntries in
  let legacyEntries := legacy.loadEntries demo.ToLower sample_output in
  let input := [demo.search_line "gp Bank"] in
  let input' := [demo.search_line "gp a"] in
  let sched := [SchedMain] ++ repeat (SchedTask 0) 7 in
  let s := demo.run
             (fun n q => gopass.OnSearch demo.ToLower allEntries
                           (range_order n) q) sched input in
  let s' := demo.run (fun _ q => legacy.search demo.ToLower legacyEntries q)
              (sched ++ [SchedTask 0; SchedTask 0]) input' in
  (reachable demo.Unmarshal
     (fun n q => gopass.OnSearch demo.ToLower allEntries (range_order n) q)
     demo.OnActivate input s /\
   reachable demo.Unmarshal
     (fun _ q => legacy.search demo.ToLower legacyEntries q)
     demo.OnActivate input' s' /\
   lastResults s = ["bank"]%string /\
   lastResults s' = ["Email/Work"; "bank"]%string) /\
  gopass.maxResults = 19 /\
  (forall lq es l, emits (gopass.scan lq es 0) l -> length l <= 19) /\
  (forall i t, tasks s !! i = Some t ->
     length (appends (task_out i s)) <= 20 /\ length (matched t) <= 20) /\
  length (lastResults s) <= 20 /\
  (forall i t, tasks s' !! i = Some t ->
     length (appends (task_out i s')) <= 19 /\ length (matched t) <= 19) /\
  length (lastResults s') <= 19.
Proof.
  intros allEntries range_order legacyEntries input input' sched s s'.
  split.
  { split; [apply run_reachable |]. split; [apply run_reachable |].
    by vm_compute. }
  apply (at_most_twenty_results demo.Unmarshal demo.OnActivate demo.ToLower
           allEntries range_order legacyEntries input s input' s');
    apply run_reachable.
Defined.

Lemma exact_match_first_no_repeat_witness :
  let allEntries := gopass.loadEntries demo.ToLower sample_output in
  let range_order := fun _ : nat => map_to_list allEntries in
  let input := [demo.search_line "gp Bank"] in
  let s := demo.run
             (fun n q => gopass.OnSearch demo.ToLower allEntries
                           (range_order n) q)
             ([SchedMain] ++ repeat (SchedTask 0) 7) input in
  let i := 0 in
  let t := {| query := "gp Bank"; ctx_cancelled := false;
              matched := ["bank"]%string; pc := TExited |} in
  let lowerQuery := demo.ToLower (strings.TrimPrefix (query t) "gp ") in
  ((forall n, range_order n ≡ₚ map_to_list allEntries) /\
   reachable demo.Unmarshal
     (fun n q => gopass.OnSearch demo.ToLower allEntries (range_order n) q)
     demo.OnActivate input s /\
   tasks s !! i = Some t /\
   allEntries !! lowerQuery = Some "bank"%string) /\
  exists es : list (string * string),
    matched t = es.*2 /\
    NoDup es.*1 /\
    (forall e, e ∈ es -> allEntries !! e.1 = Some e.2) /\
    match allEntries !! lowerQuery with
    | Some exactMatch =>
        (exists k,
           gopass.OnSearch demo.ToLower allEntries (range_order i) (query t)
           = Emit (gopass.password_result exactMatch) k) /\
        (es = [] \/
         (exists es', es = (lowerQuery, exactMatch) :: es' /\
                      forall e, e ∈ es' -> e.1 <> lowerQuery) /\
         exists d ic,
           appends (task_out i s) !! 0
           = Some (Append 0 (json.valid_utf8 exactMatch) d ic))
    | None => forall e, e ∈ es -> e.1 <> lowerQuery
    end /\
    (forall e, e ∈ es -> e.1 <> lowerQuery ->
       lowerQuery = EmptyString \/
       strings.Contains e.1 lowerQuery = true) /\
    ((forall k v, allEntries !! k = Some v -> demo.ToLower v = k) ->
     NoDup (matched t)).
Proof.
  intros allEntries range_order input s i t lowerQuery.
  split.
  { split; [by intros n |]. split; [apply run_reachable |]. by vm_compute. }
  apply (exact_match_first_no_repeat demo.Unmarshal demo.OnActivate
           demo.ToLower allEntries range_order input s i t).
  - by intros n.
  - apply run_reachable.
  - reflexivity.
Defined.

(** A [Config] with a reader and a logger and no callbacks. *)
Lemma invalid_config_returns_witness :
  let cfg := {| Stdin := Some (ReaderOf [quoted "Exit"]); Stdout := None;
                Logger := Some (LoggerNo 0);
                OnSearch := None; OnActivate := None |} in
  let os_stdin := [quoted "Interrupt"] in
  (OnSearch cfg = None \/ OnActivate cfg = None) /\
  (exists l, LoadConfig None = (l, None, None, Some "config is nil"%string)) /\
  exists err,
    (LoadConfig (Some cfg)).2 = Some err /\
    stdout (run_state (Run os_stdin cfg)) = [] /\
    requests (run_state (Run os_stdin cfg)) = lines_of os_stdin (Stdin cfg) /\
    main (run_state (Run os_stdin cfg)) = MReturned /\
    tasks (run_state (Run os_stdin cfg)) = [] /\
    activated (run_state (Run os_stdin cfg)) = [] /\
    logged (run_state (Run os_stdin cfg)) = [LogInvalidConfig err] /\
    run_logger (Run os_stdin cfg) = default Discard (Logger cfg) /\
    forall s, Run_reachable demo.Unmarshal os_stdin cfg s ->
              s = run_state (Run os_stdin cfg).
Proof.
  intros cfg os_stdin.
  split; [by left |].
  apply (invalid_config_returns demo.Unmarshal os_stdin cfg). by left.
Defined.

(** ** A search with more than [2^32] results *)





(** * Further properties of the code *)

Import sequential.

(** ** The command loop against the function of the commands *)

Lemma loop_run_snoc cmds c :
  loop_run (cmds ++ [c]) = loop_step (loop_run cmds) c.
Proof. unfold loop_run. by rewrite foldl_app. Qed.

Lemma loop_run_fmap_snoc (dec : string -> command) consumed line :
  loop_run (dec <$> consumed ++ [line])
  = loop_step (loop_run (dec <$> consumed)) (dec line).
Proof. rewrite fmap_app. apply loop_run_snoc. Qed.

Lemma loop_step_done m c : l_done m = true -> loop_step m c = m.
Proof. intros H. unfold loop_step. by rewrite H. Qed.

Lemma loop_done_exit cmds :
  l_done (loop_run cmds) = true <-> CmdExit ∈ cmds.
Proof.
  induction cmds as [| c cmds IH] using rev_ind.
  - split; [done | by intros ?%elem_of_nil].
  - rewrite loop_run_snoc, elem_of_app, list_elem_of_singleton.
    destruct (l_done (loop_run cmds)) eqn:Hd.
    + rewrite loop_step_done by done. rewrite Hd.
      split; [intros _; left; by apply IH | done].
    + unfold loop_step. rewrite Hd. split.
      * destruct c; simpl; try done; try (by right); congruence.
      * intros [Hin | <-]; [| done]. apply IH in Hin. done.
Qed.

Lemma fmap_query_alter c (ts : list task) :
  query <$> alter set_cancelled c ts = query <$> ts.
Proof.
  revert c. induction ts as [| t ts IH]; intros [| c]; simpl; [done.. |].
  f_equal. apply IH.
Qed.

Lemma fmap_query_insert (ts : list task) i t t' :
  ts !! i = Some t -> query t' = query t ->
  query <$> <[i := t']> ts = query <$> ts.
Proof.
  intros Ht Hq. rewrite list_fmap_insert, Hq.
  apply list_insert_id. by rewrite list_lookup_fmap, Ht.
Qed.

Lemma main_out_stdout s s' :
  stdout s' = stdout s -> main_out s' = main_out s.
Proof. unfold main_out. by intros ->. Qed.

Lemma main_out_snoc s s' r :
  stdout s' = stdout s ++ [(OMain, r)] -> main_out s' = main_out s ++ [r].
Proof.
  unfold main_out. intros ->.
  by rewrite filter_app, fmap_app, filter_cons, filter_nil.
Qed.

Section LoopFacts.

Variable Unmarshal : string -> option request.
Variable OnSearch : nat -> string -> behaviour.
Variable OnActivate : nat -> string -> option string.

Local Abbreviation step := (step Unmarshal OnSearch OnActivate).
Local Abbreviation exec := (exec Unmarshal OnSearch OnActivate).
Local Abbreviation reachable := (reachable Unmarshal OnSearch OnActivate).
Local Abbreviation resume := (resume OnActivate).
Local Abbreviation decode := (decode Unmarshal).
Local Abbreviation loop_inv := (loop_inv (launcher.decode Unmarshal)).

(** What the rest of a command does, against the step of the function. *)
Lemma resume_loop k c s m :
  cont_matches k c (l_held m) -> l_done m = false -> agrees s m ->
  searchCancel s = None ->
  agrees (resume k s) (loop_step m c) /\
  requests (resume k s) = requests s /\
  l_held (loop_step m c)
  = bool_decide (searchCancel (resume k s) <> None) /\
  match c with
  | CmdExit =>
      main (resume k s) = MReturned /\ l_done (loop_step m c) = true /\
      searchCancel (resume k s) = None /\
      last (stdout (resume k s)) = Some (OMain, Finished)
  | _ => main (resume k s) = MRecv /\ l_done (loop_step m c) = false
  end.
Proof.
  intros Hk Hd [Ho Hq] Hc. unfold loop_step. rewrite Hd.
  destruct c as [| | q | id | |]; simpl in Hk; try done; subst k.
  - cbn [launcher.resume]. split.
    { split; [| done].
      erewrite (main_out_snoc s); [by rewrite Ho | done]. }
    split; [done |]. split; [simpl; by rewrite Hc |].
    split; [done |]. split; [done |]. split; [done |].
    simpl. by rewrite last_snoc.
  - cbn [launcher.resume]. destruct (l_held m).
    + split; [split; simpl; [by rewrite app_nil_r | done] |].
      split; [done |]. split; [simpl; by rewrite Hc | done].
    + split.
      { split; [| done].
        erewrite (main_out_snoc s); [by rewrite Ho | done]. }
      split; [done |]. split; [simpl; by rewrite Hc | done].
  - cbn [launcher.resume]. split.
    { split; [done |]. simpl. by rewrite fmap_app, Hq. }
    done.
  - cbn [launcher.resume].
    destruct (activate_effect OnActivate id s)
      as (Hso & _ & Hr & _ & Hts & _ & Hsc & _).
    split.
    { split; simpl.
      - erewrite (main_out_snoc s); [by rewrite Ho | done].
      - by rewrite Hts. }
    split; [done |]. split; [simpl; by rewrite Hsc, Hc | done].
Qed.

Lemma agrees_frame s s' m :
  stdout s' = stdout s -> tasks s' = tasks s -> agrees s m -> agrees s' m.
Proof.
  intros Ho Hts [H1 H2]. split.
  - by rewrite (main_out_stdout _ _ Ho).
  - by rewrite Hts.
Qed.

Lemma loop_inv_step input c s s' :
  Inv s -> loop_inv input s -> step c s = Some s' -> loop_inv input s'.
Proof.
  intros HI Hli Hstep. destruct c as [| j]; simpl in Hstep.
  - (* the loop *)
    unfold step_main in Hstep.
    destruct Hli as [consumed Hin Hm Hd Hag Hh
                    | consumed line k Hin Hm Hk Hd Hag Hh Hsc
                    | consumed Hin Hm Hd Hag Hsc Hl
                    | Hr Hm Hd Hag]; rewrite Hm in Hstep; try done.
    + injection Hstep as <-.
      destruct (requests s) as [| line rest] eqn:Hr.
      { unfold recv. rewrite Hr. rewrite app_nil_r in Hin. subst consumed.
        by apply li_eof. }
      rewrite (recv_cons _ _ s line rest Hr). simpl.
      set (s0 := log (LogReceived line) (set_requests rest s)).
      set (m := loop_run (launcher.decode Unmarshal <$> consumed)) in *.
      assert (Hin' : input = (consumed ++ [line]) ++ rest)
        by by rewrite <- app_assoc.
      assert (Hrun : loop_run (launcher.decode Unmarshal <$> consumed ++ [line])
                     = loop_step m (decode line)).
      { apply loop_run_fmap_snoc. }
      assert (Hcs : forall k s1,
        stdout s1 = stdout s -> tasks s1 = tasks s ->
        searchCancel s1 = searchCancel s -> requests s1 = rest ->
        cont_matches k (decode line) (bool_decide (searchCancel s <> None)) ->
        loop_inv input (cancelSearch OnActivate k s1)).
      { intros k s1 Ho Hts Hc1 Hr1 Hk. unfold cancelSearch. rewrite Hc1.
        destruct (searchCancel s) as [c |] eqn:Hc.
        - eapply (li_join _ _ _ consumed line k); simpl; try done.
          + by rewrite Hr1.
          + destruct Hag as [H1 H2]. split.
            * transitivity (main_out s); [by apply main_out_stdout | exact H1].
            * simpl. rewrite fmap_query_alter, Hts. exact H2.
          + by rewrite Hc1.
        - assert (Hag1 : agrees s1 m) by by eapply agrees_frame.
          rewrite <- Hh in Hk.
          destruct (resume_loop k (decode line) s1 m Hk Hd Hag1)
            as (Hag' & Hr' & Hh' & Hrest); [congruence |].
          destruct (decode line) eqn:Hdl; try done.
          + destruct Hrest as (Hm' & Hd' & Hc' & Hl').
            eapply (li_exit _ _ _ (consumed ++ [line]));
              rewrite ?Hrun, ?Hr', ?Hr1; done.
          + destruct Hrest as (Hm' & Hd').
            eapply (li_recv _ _ _ (consumed ++ [line]));
              rewrite ?Hrun, ?Hr', ?Hr1; done.
          + destruct Hrest as (Hm' & Hd').
            eapply (li_recv _ _ _ (consumed ++ [line]));
              rewrite ?Hrun, ?Hr', ?Hr1; done.
          + destruct Hrest as (Hm' & Hd').
            eapply (li_recv _ _ _ (consumed ++ [line]));
              rewrite ?Hrun, ?Hr', ?Hr1; done. }
      destruct (decode line) eqn:Hdl; try (by apply Hcs).
      * eapply (li_recv _ _ _ (consumed ++ [line])); rewrite ?Hrun, ?Hdl;
          unfold loop_step; fold m; rewrite ?Hd; done.
      * eapply (li_recv _ _ _ (consumed ++ [line])); rewrite ?Hrun, ?Hdl;
          unfold loop_step; fold m; rewrite ?Hd; done.
    + pose proof (join_MJoin _ _ _ _ Hstep) as ->.
      set (m := loop_run (launcher.decode Unmarshal <$> consumed)) in *.
      assert (Hrun : loop_run (launcher.decode Unmarshal <$> consumed ++ [line])
                     = loop_step m (decode line)).
      { apply loop_run_fmap_snoc. }
      assert (Hag1 : agrees (set_search None None s) m)
        by by eapply agrees_frame.
      rewrite <- Hh in Hk.
      destruct (resume_loop k (decode line) (set_search None None s) m
                  Hk Hd Hag1 eq_refl) as (Hag' & Hr' & Hh' & Hrest).
      simpl in Hr'.
      destruct (decode line) eqn:Hdl; try done.
      * destruct Hrest as (Hm' & Hd' & Hc' & Hl').
        eapply (li_exit _ _ _ (consumed ++ [line]));
          rewrite ?Hrun, ?Hr'; done.
      * destruct Hrest as (Hm' & Hd').
        eapply (li_recv _ _ _ (consumed ++ [line]));
          rewrite ?Hrun, ?Hr'; done.
      * destruct Hrest as (Hm' & Hd').
        eapply (li_recv _ _ _ (consumed ++ [line]));
          rewrite ?Hrun, ?Hr'; done.
      * destruct Hrest as (Hm' & Hd').
        eapply (li_recv _ _ _ (consumed ++ [line]));
          rewrite ?Hrun, ?Hr'; done.
  - (* a goroutine *)
    pose proof (step_task_held _ _ _ _ HI Hstep) as Hheld.
    pose proof (step_task_frame _ _ _ _ Hstep)
      as (Hm' & Hr' & Hc' & Hd' & Ha' & Ho' & _ & t & t' & Ht & _ & Hts & _ & Hq).
    assert (Hag' : forall m, agrees s m -> agrees s' m).
    { intros m [H1 H2]. split; [by rewrite Ho' |].
      rewrite Hts. by erewrite fmap_query_insert. }
    destruct Hli as [consumed Hin Hm Hd Hag Hh
                    | consumed line k Hin Hm Hk Hd Hag Hh Hsc
                    | consumed Hin Hm Hd Hag Hsc Hl
                    | Hr Hm Hd Hag].
    + eapply (li_recv _ _ _ consumed); rewrite ?Hr', ?Hm', ?Hc'; auto.
    + eapply (li_join _ _ _ consumed line k);
        rewrite ?Hr', ?Hm', ?Hc'; auto.
    + congruence.
    + apply li_eof; rewrite ?Hr', ?Hm'; auto.
Qed.

Lemma loop_inv_reachable input s : reachable input s -> loop_inv input s.
Proof.
  induction 1 as [| c s s' Hreach IH Hstep].
  - by eapply (li_recv _ _ _ []).
  - eapply loop_inv_step; [| exact IH | exact Hstep].
    by eapply Inv_reachable.
Qed.

(** X1. The lines the command loop itself writes, and the queries the
    searches were started with, are those the function of the commands
    gives on the lines the loop is through with: they do not depend on the
    schedule.  When one of these lines was ["Exit"] the loop has returned,
    and it has returned only then or at the end of the input. *)
Theorem loop_replies_by_commands input s :
  reachable input s ->
  exists consumed,
    input = consumed ++ requests s /\
    main_out s = l_out (loop_run (decode <$> completed s consumed)) /\
    query <$> tasks s
    = l_queries (loop_run (decode <$> completed s consumed)) /\
    (l_done (loop_run (decode <$> completed s consumed)) = true ->
     main s = MReturned) /\
    (main s = MReturned ->
     l_done (loop_run (decode <$> completed s consumed)) = true \/
     requests s = []).
Proof.
  intros Hreach.
  destruct (loop_inv_reachable _ _ Hreach)
    as [consumed Hin Hm Hd [Ho Hq] Hh
       | consumed line k Hin Hm Hk Hd [Ho Hq] Hh Hsc
       | consumed Hin Hm Hd [Ho Hq] Hsc Hl
       | Hr Hm Hd [Ho Hq]].
  - exists consumed. unfold completed. rewrite Hm, Hd. by repeat split.
  - exists (consumed ++ [line]). unfold completed.
    rewrite Hm, removelast_last, Hd. by repeat split.
  - exists consumed. unfold completed. rewrite Hm. repeat split; auto.
  - exists input. unfold completed. rewrite Hm, Hr, app_nil_r.
    repeat split; auto.
Qed.

(** X2. Once the loop has taken an ["Exit"] line it reads no further line:
    it waits for the search it held, or it has returned.  When it has
    returned, its [Finished] is the last line of the output, every search
    goroutine has exited, and nothing can move any more. *)
Theorem exit_is_final input s consumed :
  reachable input s ->
  input = consumed ++ requests s ->
  CmdExit ∈ decode <$> consumed ->
  main s = MJoin KExit \/
  (main s = MReturned /\
   last (stdout s) = Some (OMain, Finished) /\
   (forall i t, tasks s !! i = Some t -> pc t = TExited) /\
   forall c, step c s = None).
Proof.
  intros Hreach Hin Hex. pose proof (Inv_reachable _ _ _ _ _ Hreach) as HI.
  destruct (loop_inv_reachable _ _ Hreach)
    as [consumed' Hin' Hm Hd Hag Hh
       | consumed' line k Hin' Hm Hk Hd Hag Hh Hsc
       | consumed' Hin' Hm Hd Hag Hsc Hl
       | Hr Hm Hd Hag].
  - rewrite Hin in Hin'. apply app_inv_tail in Hin' as <-.
    apply loop_done_exit in Hex. congruence.
  - rewrite Hin in Hin'. apply app_inv_tail in Hin' as ->.
    rewrite fmap_app, elem_of_app in Hex. destruct Hex as [Hex | Hex].
    + apply loop_done_exit in Hex. congruence.
    + apply list_elem_of_singleton in Hex. rewrite <- Hex in Hk.
      simpl in Hk. left. congruence.
  - right. split; [done |]. split; [done |].
    assert (Hall : forall i t, tasks s !! i = Some t -> pc t = TExited)
      by eauto using none_held_all_exited.
    split; [done |]. intros [| i]; simpl.
    + unfold step_main. by rewrite Hm.
    + unfold step_task. destruct (tasks s !! i) as [t |] eqn:Ht; [| done].
      by rewrite (Hall i t Ht).
  - rewrite Hr, app_nil_r in Hin. subst consumed.
    apply loop_done_exit in Hex. congruence.
Qed.

End LoopFacts.

(** ** What the steps write, keep and call *)

Lemma log_replies_app l1 l2 :
  log_replies (l1 ++ l2) = log_replies l1 ++ log_replies l2.
Proof. apply omap_app. Qed.

Section EngineMore.

Variable Unmarshal : string -> option request.
Variable OnSearch : nat -> string -> behaviour.
Variable OnActivate : nat -> string -> option string.

Local Abbreviation step := (step Unmarshal OnSearch OnActivate).
Local Abbreviation exec := (exec Unmarshal OnSearch OnActivate).
Local Abbreviation reachable := (reachable Unmarshal OnSearch OnActivate).
Local Abbreviation resume := (resume OnActivate).
Local Abbreviation cancelSearch := (cancelSearch OnActivate).
Local Abbreviation activate := (activate OnActivate).
Local Abbreviation recv := (recv Unmarshal OnActivate).
Local Abbreviation decode := (decode Unmarshal).

Lemma logs_lines_log e s :
  (forall r, e <> LogReply r) -> logs_lines s -> logs_lines (log e s).
Proof.
  unfold logs_lines, wire. simpl. intros He H.
  rewrite log_replies_app, H. destruct e; simpl; try by rewrite app_nil_r.
  by destruct (He r).
Qed.

Lemma logs_lines_respond o r s : logs_lines s -> logs_lines (respond o r s).
Proof.
  unfold logs_lines, wire. simpl. intros H.
  by rewrite log_replies_app, fmap_app, H.
Qed.

Lemma logs_lines_frame s s' :
  logged s' = logged s -> stdout s' = stdout s ->
  logs_lines s -> logs_lines s'.
Proof. unfold logs_lines, wire. by intros -> ->. Qed.

Lemma logs_lines_activate id s : logs_lines s -> logs_lines (activate id s).
Proof.
  intros H. unfold launcher.activate. case_match.
  - apply logs_lines_respond. case_match.
    + apply logs_lines_log; [done |]. by eapply logs_lines_frame.
    + by eapply logs_lines_frame.
  - apply logs_lines_respond. by apply logs_lines_log.
Qed.

Lemma logs_lines_resume k s : logs_lines s -> logs_lines (resume k s).
Proof.
  intros H. destruct k as [| [] | q | id]; simpl.
  - eapply logs_lines_frame; [| | by apply (logs_lines_respond OMain Finished)];
      done.
  - by eapply logs_lines_frame.
  - eapply logs_lines_frame; [| | by apply (logs_lines_respond OMain Finished)];
      done.
  - by eapply logs_lines_frame.
  - eapply logs_lines_frame; [| | by apply (logs_lines_activate id)]; done.
Qed.

Lemma logs_lines_cancelSearch k s :
  logs_lines s -> logs_lines (cancelSearch k s).
Proof.
  intros H. unfold launcher.cancelSearch. destruct (searchCancel s).
  - by eapply logs_lines_frame.
  - by apply logs_lines_resume.
Qed.

Lemma logs_lines_step c s s' :
  logs_lines s -> step c s = Some s' -> logs_lines s'.
Proof.
  intros H. destruct c as [| i]; simpl.
  - unfold step_main. destruct (main s); [| | done].
    + intros [= <-]. destruct (requests s) as [| line rest] eqn:Hr.
      { unfold launcher.recv. rewrite Hr. by eapply logs_lines_frame. }
      rewrite (recv_cons _ _ s line rest Hr). simpl.
      assert (H0 : logs_lines (log (LogReceived line) (set_requests rest s))).
      { apply logs_lines_log; [done |]. by eapply logs_lines_frame. }
      destruct (launcher.decode Unmarshal line);
        repeat first [ apply logs_lines_cancelSearch
                     | apply logs_lines_log; [done |] ]; done.
    + intros Hj. apply join_MJoin in Hj as ->.
      apply logs_lines_resume. by eapply logs_lines_frame.
  - unfold step_task. destruct (tasks s !! i) as [t |]; [| done].
    destruct (pc t) as [| [[err |] | sr k | k | k] | | | |]; try done;
      [ | | | | | destruct (ctx_cancelled t); [| done] | | | ];
      intros [= <-];
      first [ by eapply logs_lines_frame
            | eapply logs_lines_frame;
                [| | by apply (logs_lines_respond (OTask i))]; done
            | eapply logs_lines_frame;
                [| | by apply (logs_lines_log (LogSearchFailed err))];
                done ].
Qed.

(** X3. The logger is given every line that is written to the output, in
    the order of the output: the lines among the log entries are the
    wire. *)
Theorem log_has_the_wire input s :
  reachable input s -> log_replies (logged s) = wire s.
Proof.
  induction 1 as [| c s s' _ IH Hstep]; [done |].
  by eapply logs_lines_step.
Qed.

Lemma lastResults_resume k s : lastResults (resume k s) = lastResults s.
Proof.
  destruct k as [| [] | q | id]; try done. apply (activate_effect _ id s).
Qed.

Lemma activated_resume k s :
  activated (resume k s) = activated s \/
  exists id, k = KActivate id /\
             activated (resume k s) = activated s ++ activation_of id s.
Proof.
  destruct k as [| [] | q | id]; auto. right. exists id. split; [done |].
  apply (activate_effect _ id s).
Qed.

Lemma lastResults_step_main s s' :
  step_main Unmarshal OnActivate s = Some s' ->
  lastResults s' = lastResults s /\
  (activated s' = activated s \/
   exists id, activated s' = activated s ++ activation_of id s).
Proof.
  unfold step_main. destruct (main s) as [| k |]; [| | done].
  - intros [= <-]. destruct (requests s) as [| line rest] eqn:Hr.
    { unfold launcher.recv. rewrite Hr. auto. }
    rewrite (recv_cons _ _ s line rest Hr). simpl.
    assert (Hcs : forall k s0,
      lastResults s0 = lastResults s -> activated s0 = activated s ->
      lastResults (cancelSearch k s0) = lastResults s /\
      (activated (cancelSearch k s0) = activated s \/
       exists id, activated (cancelSearch k s0)
                  = activated s ++ activation_of id s)).
    { intros k s0 Hl Ha. unfold launcher.cancelSearch.
      destruct (searchCancel s0); [auto |].
      rewrite lastResults_resume. split; [done |].
      destruct (activated_resume k s0) as [-> | (id & _ & ->)]; [auto |].
      right. exists id. unfold activation_of. by rewrite Ha, Hl. }
    destruct (launcher.decode Unmarshal line); try (by apply Hcs); auto.
  - intros Hj. apply join_MJoin in Hj as ->.
    rewrite lastResults_resume. split; [done |].
    destruct (activated_resume k (set_search None None s))
      as [-> | (id & _ & ->)]; [auto |].
    right. by exists id.
Qed.

(** What a step of a goroutine does to its record. *)
Lemma step_task_record i s s' t :
  step_task OnSearch i s = Some s' -> tasks s !! i = Some t ->
  exists t',
    tasks s' !! i = Some t' /\
    (matched t' = matched t \/ exists name, matched t' = matched t ++ [name]) /\
    (lastResults s' = lastResults s \/
     pc t = TPublish /\ lastResults s' = matched t).
Proof.
  intros Hstep Ht. revert Hstep. unfold step_task. rewrite Ht.
  assert (Hlt : i < length (tasks s)) by by eapply lookup_lt_Some.
  destruct (pc t) as [| [[err |] | sr k | k | k] | | | |] eqn:Hpc; try done;
    [ | | | | | destruct (ctx_cancelled t); [| done] | | | ];
    intros [= <-]; simpl;
    (eexists; split; [by apply list_lookup_insert_eq |]); simpl; eauto.
Qed.

(** X4. [lastResults] is written by nothing but the store of a search
    goroutine at the end of its search, which puts its slice there: the
    command loop, [Activate] included, leaves it as it is. *)
Theorem lastResults_written_by_publish c s s' :
  step c s = Some s' ->
  lastResults s' = lastResults s \/
  exists i t, c = SchedTask i /\ tasks s !! i = Some t /\
              pc t = TPublish /\ lastResults s' = matched t.
Proof.
  destruct c as [| i]; simpl; intros Hstep.
  - left. by apply lastResults_step_main in Hstep as [? _].
  - pose proof (step_task_frame _ _ _ _ Hstep)
      as (_ & _ & _ & _ & _ & _ & _ & t & _ & Ht & _).
    destruct (step_task_record _ _ _ _ Hstep Ht) as (t' & _ & _ & [? | [? ?]]);
      [by left |].
    right. by exists i, t.
Qed.




Lemma main_resume k s k' : main (resume k s) <> MJoin k'.
Proof. by destruct k as [| [] | q | id]. Qed.

(** The goroutine the loop waits for can run until the receive from
    [searchDone] is enabled. *)
Lemma join_runs_out input s k :
  reachable input s -> main s = MJoin k ->
  exists i n s1,
    searchDone s = Some i /\
    exec (repeat (SchedTask i) n) s = Some s1 /\
    join OnActivate k s1 = Some (resume k (set_search None None s1)) /\
    main s1 = MJoin k /\ requests s1 = requests s.
Proof.
  intros Hreach Hm. pose proof (Inv_reachable _ _ _ _ _ Hreach) as HI.
  destruct (inv_join s HI k Hm) as (i & t & Hd & Ht & Hcan).
  destruct (cancelled_runs_out Unmarshal OnSearch OnActivate i s t Ht Hcan)
    as (n & s1 & t1 & Hex & Ht1 & Hpc1 & Hm1 & Hr1 & Hc1 & Hd1 & _).
  exists i, n, s1. repeat split; try done; [| congruence].
  unfold join. by rewrite Hd1, Hd, Ht1, Hpc1.
Qed.

Lemma join_passed input s k :
  reachable input s -> main s = MJoin k ->
  exists sched s2,
    exec sched s = Some s2 /\ (forall k', main s2 <> MJoin k') /\
    requests s2 = requests s.
Proof.
  intros Hreach Hm.
  destruct (join_runs_out input s k Hreach Hm)
    as (i & n & s1 & _ & Hex & Hj & Hm1 & Hr1).
  exists (repeat (SchedTask i) n ++ [SchedMain]),
    (resume k (set_search None None s1)).
  split.
  { rewrite exec_app, Hex. simpl. unfold step_main. by rewrite Hm1, Hj. }
  split; [apply main_resume |].
  by rewrite resume_requests.
Qed.


End EngineMore.

(** ** Runs to the end *)

Section EngineRuns.

Variable Unmarshal : string -> option request.
Variable OnSearch : nat -> string -> behaviour.
Variable OnActivate : nat -> string -> option string.

Local Abbreviation step := (step Unmarshal OnSearch OnActivate).
Local Abbreviation exec := (exec Unmarshal OnSearch OnActivate).
Local Abbreviation reachable := (reachable Unmarshal OnSearch OnActivate).
Local Abbreviation recv := (recv Unmarshal OnActivate).

Lemma can_return_from_loop input n : forall s,
  reachable input s -> length (requests s) <= n ->
  (forall k, main s <> MJoin k) ->
  exists sched s', exec sched s = Some s' /\ main s' = MReturned.
Proof.
  induction n as [| n IH]; intros s Hreach Hlen Hm.
  - destruct (main s) eqn:Em; [| by destruct (Hm k) | by exists [], s].
    exists [SchedMain], (recv s). simpl. unfold step_main. rewrite Em.
    split; [done |]. unfold launcher.recv.
    destruct (requests s); [done | simpl in Hlen; lia].
  - destruct (main s) eqn:Em; [| by destruct (Hm k) | by exists [], s].
    assert (Hstep : step SchedMain s = Some (recv s)).
    { simpl. unfold step_main. by rewrite Em. }
    assert (Hr1 : reachable input (recv s)) by by eapply reach_step.
    assert (Hlen1 : length (requests (recv s)) <= n).
    { rewrite recv_requests. destruct (requests s); simpl in *; lia. }
    assert (Hnext : exists sched1 s1,
      exec sched1 (recv s) = Some s1 /\ reachable input s1 /\
      length (requests s1) <= n /\ forall k, main s1 <> MJoin k).
    { destruct (main (recv s)) eqn:Em1.
      - exists [], (recv s). repeat split; try done. by rewrite Em1.
      - destruct (join_passed Unmarshal OnSearch OnActivate input (recv s) k
                    Hr1 Em1) as (sched1 & s2 & Hex2 & Hm2 & Hr2).
        exists sched1, s2. repeat split; try done.
        + by eapply exec_reachable_from.
        + by rewrite Hr2.
      - exists [], (recv s). repeat split; try done. by rewrite Em1. }
    destruct Hnext as (sched1 & s1 & Hex1 & Hreach1 & Hl1 & Hm1).
    destruct (IH s1 Hreach1 Hl1 Hm1) as (sched2 & s' & Hex2 & Hret).
    exists (SchedMain :: sched1 ++ sched2), s'. split; [| done].
    change (SchedMain :: sched1 ++ sched2)
      with ([SchedMain] ++ (sched1 ++ sched2)).
    rewrite exec_app. simpl in *. rewrite Hstep.
    by rewrite exec_app, Hex1.
Qed.

Lemma search_runs i b : forall s t l err,
  tasks s !! i = Some t -> pc t = TSearch b ->
  outcome (ctx_cancelled t) b = (l, Some err) ->
  exists s',
    exec (repeat (SchedTask i) (outcome_steps (ctx_cancelled t) b)) s
    = Some s' /\
    tasks s'
    = <[i := {| query := query t; ctx_cancelled := ctx_cancelled t;
                matched := matched t ++ (Name <$> l); pc := TPublish |}]>
        (tasks s) /\
    stdout s'
    = stdout s
      ++ ((fun r => (OTask i, r)) <$> append_lines (length (matched t)) l) /\
    logged s'
    = logged s ++ (LogReply <$> append_lines (length (matched t)) l)
      ++ option_list (LogSearchFailed <$> err) /\
    main s' = main s /\ requests s' = requests s /\
    searchCancel s' = searchCancel s /\ searchDone s' = searchDone s /\
    lastResults s' = lastResults s /\ activated s' = activated s.
Proof.
  induction b as [e | sr k IH | k IH | k IH]; intros s t l err Ht Hpc Hout;
    simpl in Hout |- *.
  - injection Hout as <- <-. unfold step_task. rewrite Ht, Hpc.
    eexists. split; [done |]. rewrite !app_nil_r.
    destruct e; simpl; rewrite ?app_nil_r; by repeat split.
  - destruct (outcome (ctx_cancelled t) k) as [l' r] eqn:Eo.
    injection Hout as <- ->.
    unfold step_task. rewrite Ht, Hpc. simpl.
    set (t1 := set_pc (TSearch k) (set_matched (matched t ++ [Name sr]) t)).
    set (s1 := put_task i t1 _).
    assert (Hlt : i < length (tasks s)) by by eapply lookup_lt_Some.
    assert (Ht1 : tasks s1 !! i = Some t1)
      by by apply list_lookup_insert_eq.
    destruct (IH s1 t1 l' err Ht1 eq_refl Eo)
      as (s' & Hex & Hts & Hso & Hlo & Hm & Hr & Hc & Hd & Hl & Ha).
    exists s'. split; [exact Hex |].
    rewrite Hts, Hso, Hlo. simpl.
    rewrite list_insert_insert_eq, length_app, Nat.add_1_r, <- !app_assoc.
    repeat split; try done.
  - destruct (IH (ctx_cancelled t) (put_task i
        (set_pc (TSearch (k (ctx_cancelled t))) t) s)
        (set_pc (TSearch (k (ctx_cancelled t))) t) l err)
      as (s' & Hex & Hts & Hso & Hlo & Hm & Hr & Hc & Hd & Hl & Ha);
      try done.
    { apply list_lookup_insert_eq. by eapply lookup_lt_Some. }
    unfold step_task. rewrite Ht, Hpc.
    exists s'. split; [exact Hex |].
    rewrite Hts, Hso, Hlo. simpl. rewrite list_insert_insert_eq.
    by repeat split.
  - destruct (ctx_cancelled t) eqn:Ec; [| done].
    destruct (IH (put_task i (set_pc (TSearch k) t) s)
        (set_pc (TSearch k) t) l err)
      as (s' & Hex & Hts & Hso & Hlo & Hm & Hr & Hc & Hd & Hl & Ha);
      try done.
    { apply list_lookup_insert_eq. by eapply lookup_lt_Some. }
    { simpl. by rewrite Ec. }
    simpl in Hex, Hts. rewrite Ec in Hex, Hts.
    simpl. unfold step_task. rewrite Ht, Hpc, Ec.
    exists s'. split; [exact Hex |].
    rewrite Hts, Hso, Hlo. simpl. rewrite list_insert_insert_eq.
    by repeat split.
Qed.

(** X7. [Run] is never stuck for good: from every state of a run there is
    a schedule on which the loop returns (the callbacks being such that a
    call returns once its context is cancelled). *)
Theorem run_can_return input s :
  reachable input s ->
  exists sched s', exec sched s = Some s' /\ main s' = MReturned.
Proof.
  intros Hreach. destruct (main s) eqn:Em.
  - eapply can_return_from_loop; [done | done |]. by rewrite Em.
  - destruct (join_passed Unmarshal OnSearch OnActivate input s k Hreach Em)
      as (sched1 & s2 & Hex2 & Hm2 & Hr2).
    destruct (can_return_from_loop input (length (requests s2)) s2)
      as (sched & s' & Hex' & Hret); [by eapply exec_reachable_from | done
                                     | done |].
    exists (sched1 ++ sched), s'.
    split; [| done]. by rewrite exec_app, Hex2.
  - by exists [], s.
Qed.

(** A search from its start to its end, the goroutine running alone. *)
Lemma search_alone_runs i s t l err :
  tasks s !! i = Some t -> pc t = TClear ->
  outcome (ctx_cancelled t) (OnSearch i (query t)) = (l, Some err) ->
  exists s',
    exec (repeat (SchedTask i)
            (outcome_steps (ctx_cancelled t) (OnSearch i (query t)) + 4)) s
    = Some s' /\
    stdout s'
    = stdout s
      ++ ((fun r => (OTask i, r))
          <$> Clear :: append_lines (length (matched t)) l ++ [Finished]) /\
    logged s'
    = logged s
      ++ (LogReply <$> Clear :: append_lines (length (matched t)) l)
      ++ option_list (LogSearchFailed <$> err) ++ [LogReply Finished] /\
    lastResults s' = matched t ++ (Name <$> l) /\
    tasks s'
    = <[i := {| query := query t; ctx_cancelled := ctx_cancelled t;
                matched := matched t ++ (Name <$> l); pc := TExited |}]>
        (tasks s) /\
    main s' = main s /\ requests s' = requests s /\
    searchCancel s' = searchCancel s /\ searchDone s' = searchDone s /\
    activated s' = activated s.
Proof.
  intros Ht Hpc Hout.
  assert (Hlt : i < length (tasks s)) by by eapply lookup_lt_Some.
  set (n := outcome_steps _ _).
  replace (n + 4) with (1 + (n + 3)) by lia.
  rewrite (repeat_app _ 1), exec_app.
  set (t1 := set_pc (TSearch (OnSearch i (query t))) t).
  set (s1 := put_task i t1 (respond (OTask i) Clear s)).
  assert (H1 : exec (repeat (SchedTask i) 1) s = Some s1).
  { simpl. unfold step_task. by rewrite Ht, Hpc. }
  rewrite H1.
  assert (Ht1 : tasks s1 !! i = Some t1) by by apply list_lookup_insert_eq.
  destruct (search_runs i _ s1 t1 l err Ht1 eq_refl Hout)
    as (s2 & Hex & Hts & Hso & Hlo & Hm & Hr & Hc & Hd & Hl & Ha).
  change (exec (repeat (SchedTask i) n) s1 = Some s2) in Hex.
  rewrite repeat_app, exec_app, Hex.
  assert (Hlt2 : i < length (tasks s1)) by by eapply lookup_lt_Some.
  set (tp := {| query := query t1; ctx_cancelled := ctx_cancelled t1;
                matched := matched t1 ++ (Name <$> l); pc := TPublish |}) in *.
  assert (Htp : tasks s2 !! i = Some tp).
  { rewrite Hts. by apply list_lookup_insert_eq. }
  assert (Hlt3 : i < length (tasks s2)) by by eapply lookup_lt_Some.
  set (s3 := put_task i (set_pc TFinished tp)
               (set_lastResults (matched tp) s2)).
  set (s4 := put_task i (set_pc TCloseDone tp)
               (respond (OTask i) Finished s3)).
  set (s5 := put_task i (set_pc TExited tp) s4).
  assert (E3 : step_task OnSearch i s2 = Some s3).
  { unfold step_task. by rewrite Htp. }
  assert (Ht3 : tasks s3 !! i = Some (set_pc TFinished tp))
    by by apply list_lookup_insert_eq.
  assert (E4 : step_task OnSearch i s3 = Some s4).
  { unfold step_task. by rewrite Ht3. }
  assert (Ht4 : tasks s4 !! i = Some (set_pc TCloseDone tp)).
  { apply list_lookup_insert_eq. simpl. by rewrite length_insert. }
  assert (E5 : step_task OnSearch i s4 = Some s5).
  { unfold step_task. by rewrite Ht4. }
  exists s5. split.
  { simpl. by rewrite E3, E4, E5. }
  split.
  { simpl. rewrite Hso. simpl. by rewrite fmap_app, <- !app_assoc. }
  split.
  { simpl. rewrite Hlo. simpl. by rewrite <- !app_assoc. }
  split; [done |]. split.
  { simpl. rewrite Hts. simpl. by rewrite !list_insert_insert_eq. }
  simpl. by rewrite Hm, Hr, Hc, Hd, Ha.
Qed.

(** X8. A search that is left alone does what its callback does: when the
    call of the callback, with the context as it is, appends the results
    [l] and returns, the goroutine run on its own writes [Clear], one
    [Append] line for each result of [l] in their order and [Finished],
    logs these lines and the error the callback returned, and stores the
    labels of [l] as [lastResults]; it touches nothing of the loop. *)
Theorem search_left_alone i s t l err :
  tasks s !! i = Some t -> pc t = TClear ->
  outcome (ctx_cancelled t) (OnSearch i (query t)) = (l, Some err) ->
  exists s' t',
    exec (repeat (SchedTask i)
            (outcome_steps (ctx_cancelled t) (OnSearch i (query t)) + 4)) s
    = Some s' /\
    stdout s'
    = stdout s
      ++ ((fun r => (OTask i, r))
          <$> Clear :: append_lines (length (matched t)) l ++ [Finished]) /\
    logged s'
    = logged s
      ++ (LogReply <$> Clear :: append_lines (length (matched t)) l)
      ++ option_list (LogSearchFailed <$> err) ++ [LogReply Finished] /\
    lastResults s' = matched t ++ (Name <$> l) /\
    tasks s' !! i = Some t' /\ pc t' = TExited /\
    main s' = main s /\ requests s' = requests s /\
    searchCancel s' = searchCancel s /\ searchDone s' = searchDone s /\
    activated s' = activated s.
Proof.
  intros Ht Hpc Hout.
  destruct (search_alone_runs i s t l err Ht Hpc Hout)
    as (s' & Hex & Hso & Hlo & Hl & Hts & Hrest).
  eexists s', _. split; [exact Hex |]. split; [exact Hso |].
  split; [exact Hlo |]. split; [exact Hl |]. split.
  { rewrite Hts. apply list_lookup_insert_eq. by eapply lookup_lt_Some. }
  split; [done | exact Hrest].
Qed.

End EngineRuns.


(** ** Who cancels a search *)

Section CancelFacts.

Variable Unmarshal : string -> option request.
Variable OnSearch : nat -> string -> behaviour.
Variable OnActivate : nat -> string -> option string.

Local Abbreviation step := (step Unmarshal OnSearch OnActivate).
Local Abbreviation reachable := (reachable Unmarshal OnSearch OnActivate).
Local Abbreviation resume := (resume OnActivate).
Local Abbreviation cancelSearch := (cancelSearch OnActivate).

Lemma resume_not_cancelled k s i t :
  searchCancel s = None ->
  tasks (resume k s) !! i = Some t -> searchCancel (resume k s) = Some i ->
  ctx_cancelled t = false.
Proof.
  intros Hnone. destruct k as [| [] | q | id]; simpl; try congruence.
  - intros Ht [= <-]. rewrite list_lookup_middle in Ht by done.
    by injection Ht as <-.
  - destruct (activate_effect OnActivate id s)
      as (_ & _ & _ & _ & _ & _ & -> & _). congruence.
Qed.

Lemma cancel_inv_resume k s :
  searchCancel s = None -> cancel_inv (resume k s).
Proof.
  intros Hnone i t Ht Hcan Hheld.
  by rewrite (resume_not_cancelled k s i t Hnone Ht Hheld) in Hcan.
Qed.

Lemma cancel_inv_cancelSearch k s : cancel_inv (cancelSearch k s).
Proof.
  unfold launcher.cancelSearch. destruct (searchCancel s) eqn:Hc.
  - intros i t _ _ _. by eexists.
  - by apply cancel_inv_resume.
Qed.

Lemma cancel_inv_step c s s' :
  cancel_inv s -> step c s = Some s' -> cancel_inv s'.
Proof.
  intros HP. destruct c as [| j]; simpl.
  - unfold step_main. destruct (main s) as [| k |] eqn:Em; [| | done].
    + intros [= <-]. destruct (requests s) as [| line rest] eqn:Hr.
      { unfold launcher.recv. rewrite Hr. intros i t Ht Hcan Hheld.
        destruct (HP i t Ht Hcan Hheld) as [k Hk]. congruence. }
      rewrite (recv_cons _ _ s line rest Hr). simpl.
      destruct (launcher.decode Unmarshal line);
        try apply cancel_inv_cancelSearch;
        intros i t Ht Hcan Hheld;
        destruct (HP i t Ht Hcan Hheld) as [k Hk]; congruence.
    + intros Hj. apply join_MJoin in Hj as ->. by apply cancel_inv_resume.
  - intros Hstep i t Ht Hcan Hheld.
    destruct (step_task_frame _ _ _ _ Hstep)
      as (Hm & _ & Hc & _ & _ & _ & _ & t0 & t' & Ht0 & _ & Hts & Hctx & _).
    rewrite Hm. rewrite Hc in Hheld. rewrite Hts in Ht.
    destruct (decide (i = j)) as [-> | Hne].
    + rewrite list_lookup_insert_eq in Ht by by eapply lookup_lt_Some.
      injection Ht as <-. apply (HP j t0); congruence.
    + rewrite list_lookup_insert_ne in Ht by done. by apply (HP i t).
Qed.

(** X16. Nothing but [cancelSearch] cancels a search: the context of the
    search the loop holds is not cancelled unless the loop is waiting for
    it there.  So when the input ends while a search is held, [Run] returns
    without cancelling that search and without waiting for it. *)
Theorem held_search_not_cancelled input s i t :
  reachable input s ->
  searchCancel s = Some i -> tasks s !! i = Some t ->
  (forall k, main s <> MJoin k) ->
  ctx_cancelled t = false.
Proof.
  intros Hreach Hheld Ht Hm.
  assert (HP : cancel_inv s).
  { clear Hheld Ht Hm. induction Hreach as [| c s s' _ IH Hstep].
    - intros j u Hu. by destruct j.
    - by eapply cancel_inv_step. }
  destruct (ctx_cancelled t) eqn:Hcan; [| done].
  destruct (HP i t Ht Hcan Hheld) as [k Hk]. by destruct (Hm k).
Qed.

End CancelFacts.

(** ** What the callbacks of the two programs find *)

Section CallbackFacts.

Variable ToLower : string -> string.

Local Abbreviation lines_of_output out :=
  (gopass.Split (strings.TrimSpace out) gopass.newline).

(** X9. The map of [loadEntries] keeps, for each key, the last line of the
    output of [gopass ls] with that lower-case form: of two entries that
    differ in case only, the later one is the one that can be found.  Empty
    lines are skipped, and a failed [gopass ls] gives the empty map. *)
Theorem loadEntries_last_wins out k :
  gopass.loadEntries ToLower (Some out) !! k
  = last (filter (fun line => line <> EmptyString /\ ToLower line = k)
            (lines_of_output out)) /\
  gopass.loadEntries ToLower None = ∅.
Proof.
  split; [| done]. unfold gopass.loadEntries.
  induction (lines_of_output out) as [| line lines IH] using rev_ind; [done |].
  rewrite foldl_app, filter_app. simpl.
  destruct (String.eqb_spec line EmptyString) as [-> | Hne].
  - rewrite filter_cons_False by (by intros [? _]).
    by rewrite filter_nil, app_nil_r.
  - destruct (decide (ToLower line = k)) as [<- | Hk].
    + rewrite filter_cons_True by done.
      by rewrite lookup_insert_eq, filter_nil, last_snoc.
    + rewrite filter_cons_False by (by intros [_ ?]).
      by rewrite lookup_insert_ne, filter_nil, app_nil_r.
Qed.

Lemma scan_outcome lq es : forall count,
  count < gopass.maxResults ->
  outcome false (gopass.scan lq es count)
  = (gopass.password_result
     <$> take (gopass.maxResults - count)
           (snd <$> filter (fun p => p.1 <> lq /\
                                     gopass_main.matches lq p.1 = true) es),
     Some None).
Proof.
  induction es as [| [lower original] es IH]; intros count Hlt.
  { simpl. by rewrite take_nil. }
  rewrite scan_cons.
  destruct (String.eqb_spec lower lq) as [-> | Hne].
  { rewrite filter_cons_False by (by intros [? _]). by apply IH. }
  cbn [outcome]. unfold gopass_main.matches at 1.
  destruct (String.eqb lq EmptyString || strings.Contains lower lq) eqn:Em.
  - rewrite filter_cons_True by done.
    replace (gopass.maxResults - count)
      with (S (gopass.maxResults - S count)) by lia.
    cbn [outcome]. rewrite fmap_cons. cbn [take snd fmap list_fmap].
    destruct (Nat.leb_spec gopass.maxResults (S count)) as [Hge | Hlt'].
    + by replace (gopass.maxResults - S count) with 0 by lia.
    + by rewrite (IH (S count) Hlt').
  - rewrite filter_cons_False; [by apply IH |].
    intros [_ H]. unfold gopass_main.matches in H. simpl in H. congruence.
Qed.

Lemma scan_cancelled lq es : forall count,
  outcome true (gopass.scan lq es count)
  = ([], Some (if forallb (fun p => String.eqb p.1 lq) es then None
               else Some gopass.Canceled)).
Proof.
  induction es as [| [lower original] es IH]; intros count; [done |].
  rewrite scan_cons. cbn [forallb fst].
  destruct (String.eqb lower lq); [apply IH | done].
Qed.

(** X10. What the plugin's [OnSearch] finds when it is not cancelled: the
    entry whose lower-case form is the query (without a leading ["gp "], in
    lower case), if there is one, and then, of the pairs in the order of the
    range with another key that contains the query, the first nineteen;
    and it returns no error. *)
Theorem OnSearch_finds allEntries range_order query :
  let lowerQuery := ToLower (strings.TrimPrefix query "gp ") in
  outcome false (gopass.OnSearch ToLower allEntries range_order query)
  = (gopass.password_result
     <$> option_list (allEntries !! lowerQuery)
         ++ take 19
              (snd <$> filter (fun p => p.1 <> lowerQuery /\
                                        gopass_main.matches lowerQuery p.1
                                        = true) range_order),
     Some None).
Proof.
  intros lowerQuery. unfold gopass.OnSearch. fold lowerQuery.
  assert (H0 : 0 < gopass.maxResults) by (unfold gopass.maxResults; lia).
  pose proof (scan_outcome lowerQuery range_order 0 H0) as Hs.
  rewrite Nat.sub_0_r in Hs. change gopass.maxResults with 19 in Hs at 1.
  destruct (allEntries !! lowerQuery) as [exact |]; cbn [outcome];
    by rewrite Hs.
Qed.

(** X11. What the plugin's [OnSearch] does when its context is cancelled
    from the start: it appends the exact match, if there is one, and nothing
    else, and it returns the context's error as soon as the range yields a
    pair with another key (without one it returns no error). *)
Theorem OnSearch_cancelled allEntries range_order query :
  let lowerQuery := ToLower (strings.TrimPrefix query "gp ") in
  outcome true (gopass.OnSearch ToLower allEntries range_order query)
  = (gopass.password_result <$> option_list (allEntries !! lowerQuery),
     Some (if forallb (fun p => String.eqb p.1 lowerQuery) range_order
           then None else Some gopass.Canceled)).
Proof.
  intros lowerQuery. unfold gopass.OnSearch. fold lowerQuery.
  destruct (allEntries !! lowerQuery) as [exact |]; cbn [outcome];
    by rewrite scan_cancelled.
Qed.

Local Abbreviation legacy_result :=
  (fun e : legacy.entry =>
     {| Name := legacy.original e;
        Description := "Copy password to clipboard";
        IconName := legacy.passwordIcon |}).

Lemma legacy_loop_outcome lq es : forall matched,
  length matched < legacy.maxResults ->
  outcome false (legacy.search_loop lq es matched)
  = (legacy_result
     <$> take (legacy.maxResults - length matched)
           (filter (fun e => gopass_main.matches lq (legacy.lower e) = true)
                   es),
     Some None).
Proof.
  induction es as [| e es IH]; intros matched Hlt.
  { simpl. by destruct (legacy.maxResults - length matched). }
  rewrite search_loop_cons. cbn [outcome]. unfold gopass_main.matches at 1.
  destruct (String.eqb lq EmptyString
            || strings.Contains (legacy.lower e) lq) eqn:Em.
  - rewrite filter_cons_True by done.
    replace (legacy.maxResults - length matched)
      with (S (legacy.maxResults - S (length matched))) by lia.
    cbn [outcome]. rewrite length_app, Nat.add_1_r.
    cbn [take fmap list_fmap].
    destruct (Nat.leb_spec legacy.maxResults (S (length matched)))
      as [Hge | Hlt'].
    + by replace (legacy.maxResults - S (length matched)) with 0 by lia.
    + rewrite IH by (rewrite length_app, Nat.add_1_r; exact Hlt').
      by rewrite length_app, Nat.add_1_r.
  - rewrite filter_cons_False; [by apply IH |].
    unfold gopass_main.matches. by rewrite Em.
Qed.

(** X12. What the search of the earlier [main.go] finds when it is not
    cancelled: of the entries in the order of the list whose lower-case
    form contains the query, the first nineteen; with its context cancelled
    from the start it finds nothing.  It never fails. *)
Theorem legacy_search_finds allEntries query :
  let lowerQuery := ToLower (strings.TrimPrefix query "gp ") in
  outcome false (legacy.search ToLower allEntries query)
  = (legacy_result
     <$> take 19
           (filter (fun e => gopass_main.matches lowerQuery (legacy.lower e)
                             = true) allEntries),
     Some None) /\
  outcome true (legacy.search ToLower allEntries query) = ([], Some None).
Proof.
  intros lowerQuery. unfold legacy.search. fold lowerQuery. split.
  - assert (H0 : @length string [] < legacy.maxResults)
      by (unfold legacy.maxResults; simpl; lia).
    pose proof (legacy_loop_outcome lowerQuery allEntries [] H0) as Hs.
    simpl length in Hs. rewrite Nat.sub_0_r in Hs. exact Hs.
  - by destruct allEntries.
Qed.

(** X13. The list of the earlier [loadEntries] is the non-empty lines of
    the output of [gopass ls], in their order and with repetitions, each
    with its lower-case form; a failed [gopass ls] gives the empty list. *)
Theorem legacy_loadEntries_lines out :
  legacy.loadEntries ToLower (Some out)
  = (fun line => {| legacy.original := line; legacy.lower := ToLower line |})
    <$> filter (fun line => line <> EmptyString) (lines_of_output out) /\
  legacy.loadEntries ToLower None = [].
Proof.
  split; [| done]. unfold legacy.loadEntries.
  induction (lines_of_output out) as [| line lines IH] using rev_ind; [done |].
  rewrite foldl_app, filter_app, fmap_app, IH. simpl.
  destruct (String.eqb_spec line EmptyString) as [-> | Hne].
  - rewrite filter_cons_False by (intros H; by apply H).
    by rewrite filter_nil, fmap_nil, !app_nil_r.
  - by rewrite filter_cons_True.
Qed.

End CallbackFacts.

(** X14. The plugin under the engine: a search of the plugin that is not
    cancelled and is left alone writes [Clear], an [Append] line for the
    exact match, if there is one, and for the first nineteen other matching
    entries in the order of the range, numbered from 0, and [Finished];
    [lastResults] is then the names of these entries, so that the id of a
    line is the index [Activate] looks up. *)
Theorem plugin_search_on_the_wire Unmarshal OnActivate ToLower allEntries
    (range_order : nat -> list (string * string)) i s t :
  let OnSearch := fun n q =>
    gopass.OnSearch ToLower allEntries (range_order n) q in
  let lowerQuery := ToLower (strings.TrimPrefix (query t) "gp ") in
  let found :=
    option_list (allEntries !! lowerQuery)
    ++ take 19 (snd <$> filter (fun p => p.1 <> lowerQuery /\
                                         gopass_main.matches lowerQuery p.1
                                         = true) (range_order i)) in
  tasks s !! i = Some t -> pc t = TClear -> matched t = [] ->
  ctx_cancelled t = false ->
  exists n s',
    exec Unmarshal OnSearch OnActivate (repeat (SchedTask i) n) s = Some s' /\
    stdout s'
    = stdout s
      ++ ((fun r => (OTask i, r))
          <$> Clear :: append_lines 0 (gopass.password_result <$> found)
              ++ [Finished]) /\
    lastResults s' = found /\
    (forall (id : nat) name,
       found !! id = Some name ->
       append_lines 0 (gopass.password_result <$> found) !! id
       = Some (Append (uint32 (Z.of_nat id)) (json.valid_utf8 name)
                 "Copy password to clipboard" (Some "dialog-password"))) /\
    main s' = main s /\ requests s' = requests s /\
    activated s' = activated s.
Proof.
  intros OnSearch lowerQuery found Ht Hpc Hm Hcan.
  assert (Hout : outcome false (OnSearch i (query t))
                 = (gopass.password_result <$> found, Some None)).
  { assert (H0 : 0 < gopass.maxResults) by (unfold gopass.maxResults; lia).
    pose proof (scan_outcome lowerQuery (range_order i) 0 H0) as Hs.
    rewrite Nat.sub_0_r in Hs. change gopass.maxResults with 19 in Hs at 1.
    unfold OnSearch, gopass.OnSearch, found. fold lowerQuery.
    destruct (allEntries !! lowerQuery) as [exact |]; cbn [outcome];
      by rewrite Hs. }
  destruct (search_alone_runs Unmarshal OnSearch OnActivate i s t
              (gopass.password_result <$> found) None Ht Hpc)
    as (s' & Hex & Hso & _ & Hl & _ & Hmain & Hr & _ & _ & Ha).
  { by rewrite Hcan. }
  rewrite Hm in Hso, Hl. simpl in Hso, Hl.
  eexists _, s'. split; [exact Hex |]. split; [exact Hso |].
  split.
  { rewrite Hl, <- list_fmap_compose. apply list_fmap_id. }
  split; [| done].
  assert (Hline : forall k name,
    append_line k (gopass.password_result name)
    = Append (uint32 (Z.of_nat k)) (json.valid_utf8 name)
        "Copy password to clipboard"%string (Some "dialog-password"%string)).
  { intros k name. unfold append_line, Marshal.
    cbn [Name Description IconName gopass.password_result].
    f_equal; by vm_compute. }
  assert (Hgen : forall l from (id : nat) name,
    l !! id = Some name ->
    append_lines from (gopass.password_result <$> l) !! id
    = Some (append_line (from + id) (gopass.password_result name))).
  { induction l as [| x l IH]; intros from [| id] name H;
      cbn [fmap list_fmap append_lines] in *; try done.
    - injection H as ->. by rewrite Nat.add_0_r.
    - change (append_lines (S from) (gopass.password_result <$> l) !! id
              = Some (append_line (from + S id)
                        (gopass.password_result name))).
      rewrite (IH (S from) id name H). do 2 f_equal. lia. }
  intros id name H. by rewrite (Hgen found 0 id name H), Hline.
Qed.



(** ** The theorems above on sample runs *)

(** A search, an activation of its second result, and the state before the
    [Exit] is taken. *)
Lemma loop_replies_by_commands_witness :
  let input := [demo.search_line "q"; demo.activate_line "1";
                quoted "Exit"] in
  let s := demo.run demo.two_results
             ([SchedMain] ++ repeat (SchedTask 0) 7 ++ [SchedMain; SchedMain])
             input in
  (reachable demo.Unmarshal demo.two_results demo.OnActivate input s /\
   main_out s = [Close]) /\
  exists consumed,
    input = consumed ++ requests s /\
    main_out s
    = l_out (loop_run (decode demo.Unmarshal <$> completed s consumed)) /\
    query <$> tasks s
    = l_queries (loop_run (decode demo.Unmarshal <$> completed s consumed)) /\
    (l_done (loop_run (decode demo.Unmarshal <$> completed s consumed)) = true ->
     main s = MReturned) /\
    (main s = MReturned ->
     l_done (loop_run (decode demo.Unmarshal <$> completed s consumed)) = true \/
     requests s = []).
Proof.
  intros input s. split; [split; [apply run_reachable | by vm_compute] |].
  apply (loop_replies_by_commands demo.Unmarshal demo.two_results
           demo.OnActivate input s).
  apply run_reachable.
Defined.

(** The same run, after the [Exit]. *)
Lemma exit_is_final_witness :
  let input := [demo.search_line "q"; demo.activate_line "1";
                quoted "Exit"] in
  let s := demo.run demo.two_results
             ([SchedMain] ++ repeat (SchedTask 0) 7
              ++ [SchedMain; SchedMain; SchedMain]) input in
  let consumed := input in
  (reachable demo.Unmarshal demo.two_results demo.OnActivate input s /\
   input = consumed ++ requests s /\
   CmdExit ∈ decode demo.Unmarshal <$> consumed /\
   length (wire s) = 6) /\
  (main s = MJoin KExit \/
   (main s = MReturned /\ last (stdout s) = Some (OMain, Finished) /\
    (forall i t, tasks s !! i = Some t -> pc t = TExited) /\
    forall c, step demo.Unmarshal demo.two_results demo.OnActivate c s = None)).
Proof.
  intros input s consumed.
  assert (Hin : CmdExit ∈ decode demo.Unmarshal <$> consumed).
  { vm_compute. do 2 apply list_elem_of_further. apply list_elem_of_here. }
  split; [split; [apply run_reachable | by vm_compute] |].
  apply (exit_is_final demo.Unmarshal demo.two_results demo.OnActivate
           input s consumed);
    [apply run_reachable | by vm_compute | exact Hin].
Defined.

(** A search that fails after one result: the log has the three lines. *)
Lemma log_has_the_wire_witness :
  let input := [demo.search_line "q"] in
  let s := demo.run demo.failing ([SchedMain] ++ repeat (SchedTask 0) 6) input in
  (reachable demo.Unmarshal demo.failing demo.OnActivate input s /\
   length (logged s) = 5) /\
  log_replies (logged s) = wire s.
Proof.
  intros input s. split; [split; [apply run_reachable | by vm_compute] |].
  apply (log_has_the_wire demo.Unmarshal demo.failing demo.OnActivate input s).
  apply run_reachable.
Defined.

(** The step of a search goroutine that stores its two results. *)
Lemma lastResults_written_by_publish_witness :
  let input := [demo.search_line "q"] in
  let s := demo.run demo.two_results
             ([SchedMain] ++ repeat (SchedTask 0) 4) input in
  let s' := demo.run demo.two_results
              ([SchedMain] ++ repeat (SchedTask 0) 5) input in
  let c := SchedTask 0 in
  (step demo.Unmarshal demo.two_results demo.OnActivate c s = Some s' /\
   lastResults s = [] /\ lastResults s' = ["a/q"; "b/q"]%string) /\
  (lastResults s' = lastResults s \/
   exists i t, c = SchedTask i /\ tasks s !! i = Some t /\
               pc t = TPublish /\ lastResults s' = matched t).
Proof.
  intros input s s' c. split; [by vm_compute |].
  apply (lastResults_written_by_publish demo.Unmarshal demo.two_results
           demo.OnActivate c s s').
  by vm_compute.
Defined.



(** The loop waits for a search that waits for its cancellation. *)
Lemma run_can_return_witness :
  let input := [demo.search_line "first"; demo.search_line "second"] in
  let s := demo.run demo.blocking [SchedMain; SchedTask 0; SchedMain] input in
  (reachable demo.Unmarshal demo.blocking demo.OnActivate input s /\
   main s = MJoin (KSearch "second")) /\
  exists sched s',
    exec demo.Unmarshal demo.blocking demo.OnActivate sched s = Some s' /\
    main s' = MReturned.
Proof.
  intros input s. split; [split; [apply run_reachable | by vm_compute] |].
  apply (run_can_return demo.Unmarshal demo.blocking demo.OnActivate input s).
  apply run_reachable.
Defined.

(** A search whose callback fails after one result, from its start. *)
Lemma search_left_alone_witness :
  let input := [demo.search_line "q"] in
  let s := demo.run demo.failing [SchedMain] input in
  let i := 0 in
  let t := {| query := "q"; ctx_cancelled := false; matched := [];
              pc := TClear |} in
  let l := [demo.result "partial"] in
  let err := Some "backend down"%string in
  (tasks s !! i = Some t /\ pc t = TClear /\
   outcome (ctx_cancelled t) (demo.failing i (query t)) = (l, Some err)) /\
  exists s' t',
    exec demo.Unmarshal demo.failing demo.OnActivate
      (repeat (SchedTask i)
         (outcome_steps (ctx_cancelled t) (demo.failing i (query t)) + 4)) s
    = Some s' /\
    stdout s'
    = stdout s
      ++ ((fun r => (OTask i, r))
          <$> Clear :: append_lines (length (matched t)) l ++ [Finished]) /\
    logged s'
    = logged s
      ++ (LogReply <$> Clear :: append_lines (length (matched t)) l)
      ++ option_list (LogSearchFailed <$> err) ++ [LogReply Finished] /\
    lastResults s' = matched t ++ (Name <$> l) /\
    tasks s' !! i = Some t' /\ pc t' = TExited /\
    main s' = main s /\ requests s' = requests s /\
    searchCancel s' = searchCancel s /\ searchDone s' = searchDone s /\
    activated s' = activated s.
Proof.
  intros input s i t l err. split; [by vm_compute |].
  apply (search_left_alone demo.Unmarshal demo.failing demo.OnActivate
           i s t l err); by vm_compute.
Defined.

(** A search of the plugin for an entry in other case, from its start. *)
Lemma plugin_search_on_the_wire_witness :
  let allEntries := gopass.loadEntries demo.ToLower sample_output in
  let range_order := fun _ : nat => map_to_list allEntries in
  let input := [demo.search_line "gp Bank"] in
  let OnSearch := fun n q =>
    gopass.OnSearch demo.ToLower allEntries (range_order n) q in
  let s := demo.run OnSearch [SchedMain] input in
  let i := 0 in
  let t := {| query := "gp Bank"; ctx_cancelled := false; matched := [];
              pc := TClear |} in
  let lowerQuery := demo.ToLower (strings.TrimPrefix (query t) "gp ") in
  let found :=
    option_list (allEntries !! lowerQuery)
    ++ take 19 (snd <$> filter (fun p => p.1 <> lowerQuery /\
                                         gopass_main.matches lowerQuery p.1
                                         = true) (range_order i)) in
  (tasks s !! i = Some t /\ pc t = TClear /\ matched t = [] /\
   ctx_cancelled t = false /\ found = ["bank"]%string) /\
  exists n s',
    exec demo.Unmarshal OnSearch demo.OnActivate (repeat (SchedTask i) n) s
    = Some s' /\
    stdout s'
    = stdout s
      ++ ((fun r => (OTask i, r))
          <$> Clear :: append_lines 0 (gopass.password_result <$> found)
              ++ [Finished]) /\
    lastResults s' = found /\
    (forall (id : nat) name,
       found !! id = Some name ->
       append_lines 0 (gopass.password_result <$> found) !! id
       = Some (Append (uint32 (Z.of_nat id)) (json.valid_utf8 name)
                 "Copy password to clipboard" (Some "dialog-password"))) /\
    main s' = main s /\ requests s' = requests s /\
    activated s' = activated s.
Proof.
  intros allEntries range_order input OnSearch s i t lowerQuery found.
  split; [by vm_compute |].
  apply (plugin_search_on_the_wire demo.Unmarshal demo.OnActivate demo.ToLower
           allEntries range_order i s t); by vm_compute.
Defined.


(** The input ends while a search is held. *)
Lemma held_search_not_cancelled_witness :
  let input := [demo.search_line "q"] in
  let s := demo.run demo.two_results [SchedMain; SchedMain] input in
  let i := 0 in
  let t := {| query := "q"; ctx_cancelled := false; matched := [];
              pc := TClear |} in
  (reachable demo.Unmarshal demo.two_results demo.OnActivate input s /\
   searchCancel s = Some i /\ tasks s !! i = Some t /\
   (forall k, main s <> MJoin k) /\ main s = MReturned /\ requests s = []) /\
  ctx_cancelled t = false.
Proof.
  intros input s i t.
  assert (Hm : main s = MReturned) by by vm_compute.
  assert (Hk : forall k, main s <> MJoin k) by (intros k; by rewrite Hm).
  split; [split; [apply run_reachable | by vm_compute] |].
  apply (held_search_not_cancelled demo.Unmarshal demo.two_results
           demo.OnActivate input s i t);
    [apply run_reachable | by vm_compute | by vm_compute | exact Hk].
Defined.
